(** * Gravity Sculptor: the particle physics engine (Physics.js)

    A shallow embedding of the [Physics] class and a verification of the
    properties its specification states about [update], [respawnParticle],
    [toggleChaosMode], [applyExplosion] and [applyImplosion].

    Number model.  A JavaScript number is modelled by [num]: an exact real,
    one of the two infinities, or NaN.  The arithmetic follows IEEE-754 on
    the special values (1/0 is +Infinity, 0 * Infinity is NaN, every
    comparison with NaN is false) and is exact on finite values: rounding,
    overflow, underflow, the sign of zero and the narrowing of a
    [Float32Array] store to single precision are idealised away.
    Everything proved below is a statement about this idealised
    arithmetic.  A value the code computes is therefore given as the
    formula it computes, which the engine follows up to the rounding of its
    operations and stores; the inequalities stated are of the kinds that
    this rounding does not break: between a stored value and a threshold
    that single precision represents, between two values of which the
    engine derives one from the other by operations that cannot reorder
    them, or the outcome of a comparison the code itself makes.

    Ambient effects.  [Math.random()] and [Date.now()] read from two tapes
    carried by the [World]; the n-th call returns the n-th entry. *)

From Stdlib Require Import Reals Lra Lia List Bool.
From stdpp Require Import base list.

Open Scope R_scope.

(** ** JavaScript numbers *)

Inductive num : Type :=
| Fin (r : R)
| PInf
| NInf
| NaN.

Coercion Fin : R >-> num.

Declare Scope num_scope.
Delimit Scope num_scope with num.
Bind Scope num_scope with num.

Definition nneg (a : num) : num :=
  match a with
  | Fin x => Fin (- x)
  | PInf => NInf
  | NInf => PInf
  | NaN => NaN
  end.

(** [x * i] for a finite [x] and an infinite [i]: the sign of [x] picks the
    infinity, and [0 * Infinity] is NaN. *)
Definition scale_inf (x : R) (i : num) : num :=
  if Req_dec_T x 0 then NaN
  else if Rlt_dec 0 x then i else nneg i.

Definition nadd (a b : num) : num :=
  match a, b with
  | Fin x, Fin y => Fin (x + y)
  | NaN, _ | _, NaN => NaN
  | PInf, NInf | NInf, PInf => NaN
  | PInf, _ | _, PInf => PInf
  | NInf, _ | _, NInf => NInf
  end.

Definition nsub (a b : num) : num :=
  match a, b with
  | Fin x, Fin y => Fin (x - y)
  | NaN, _ | _, NaN => NaN
  | PInf, PInf | NInf, NInf => NaN
  | PInf, _ | _, NInf => PInf
  | NInf, _ | _, PInf => NInf
  end.

Definition nmul (a b : num) : num :=
  match a, b with
  | Fin x, Fin y => Fin (x * y)
  | NaN, _ | _, NaN => NaN
  | Fin x, i | i, Fin x => scale_inf x i
  | PInf, PInf | NInf, NInf => PInf
  | PInf, NInf | NInf, PInf => NInf
  end.

Definition ndiv (a b : num) : num :=
  match a, b with
  | Fin x, Fin y =>
      if Req_dec_T y 0 then scale_inf x PInf else Fin (x / y)
  | NaN, _ | _, NaN => NaN
  | Fin _, _ => Fin 0
  | i, Fin y => if Rlt_dec y 0 then nneg i else i
  | _, _ => NaN
  end.

Definition nlt (a b : num) : bool :=
  match a, b with
  | Fin x, Fin y => if Rlt_dec x y then true else false
  | NaN, _ | _, NaN => false
  | NInf, NInf | PInf, _ | _, NInf => false
  | NInf, _ | _, PInf => true
  end.

Definition ngt (a b : num) : bool := nlt b a.

Notation "a + b" := (nadd a b) : num_scope.
Notation "a - b" := (nsub a b) : num_scope.
Notation "a * b" := (nmul a b) : num_scope.
Notation "a / b" := (ndiv a b) : num_scope.
Notation "a <? b" := (nlt a b) : num_scope.
Notation "a >? b" := (ngt a b) : num_scope.

Definition Math_sqrt (a : num) : num :=
  match a with
  | Fin x => if Rlt_dec x 0 then NaN else Fin (sqrt x)
  | PInf => PInf
  | _ => NaN
  end.

Definition Math_max (a b : num) : num :=
  match a, b with
  | NaN, _ | _, NaN => NaN
  | _, _ => if nlt a b then b else a
  end.

Definition Math_min (a b : num) : num :=
  match a, b with
  | NaN, _ | _, NaN => NaN
  | _, _ => if nlt b a then b else a
  end.

Definition Math_cos (a : num) : num :=
  match a with Fin x => Fin (cos x) | _ => NaN end.

Definition Math_sin (a : num) : num :=
  match a with Fin x => Fin (sin x) | _ => NaN end.

(** [Math.PI], idealised to the real number it approximates. *)
Definition Math_PI : num := Fin PI.

(** Truthiness of a number: [0] and [NaN] are falsy. *)
Definition truthy (a : num) : bool :=
  match a with
  | Fin x => if Req_dec_T x 0 then false else true
  | NaN => false
  | _ => true
  end.

(** [a || b] on numbers. *)
Definition or_else (a b : num) : num := if truthy a then a else b.

(** ** Typed arrays

    A [Float32Array] is a list of numbers.  Reading outside the array gives
    [undefined], which every use below turns into [NaN]; writing outside
    the array is ignored.  A store keeps the number it is given: the
    narrowing to single precision is not modelled. *)

Abbreviation Float32Array := (list num).

Definition new_Float32Array (n : nat) : Float32Array := replicate n (Fin 0).

Definition get (a : Float32Array) (i : nat) : num := default NaN (a !! i).

Definition put (a : Float32Array) (i : nat) (v : num) : Float32Array :=
  <[i := v]> a.

(** ** The simulation state *)

Record Physics : Type := mkPhysics {
  count : nat;
  positions : Float32Array;
  velocities : Float32Array;
  accelerations : Float32Array;
  masses : Float32Array;
  lifetimes : Float32Array;
  G : num;
  drag : num;
  maxVelocity : num;
  minDistance : num;
  fieldRadius : num;
  chaosMode : bool;
  chaosFactor : num;
  attractMode : bool
}.

(** The object together with the ambient sources it reads: the values the
    coming calls of [Math.random()] and [Date.now()] return, and how many
    were consumed so far. *)
Record World : Type := mkWorld {
  this : Physics;
  random_tape : nat -> R;
  random_calls : nat;
  clock_tape : nat -> R;
  clock_calls : nat
}.

Definition set_positions (a : Float32Array) (p : Physics) : Physics :=
  mkPhysics (count p) a (velocities p) (accelerations p) (masses p)
    (lifetimes p) (G p) (drag p) (maxVelocity p) (minDistance p)
    (fieldRadius p) (chaosMode p) (chaosFactor p) (attractMode p).

Definition set_velocities (a : Float32Array) (p : Physics) : Physics :=
  mkPhysics (count p) (positions p) a (accelerations p) (masses p)
    (lifetimes p) (G p) (drag p) (maxVelocity p) (minDistance p)
    (fieldRadius p) (chaosMode p) (chaosFactor p) (attractMode p).

Definition set_masses (a : Float32Array) (p : Physics) : Physics :=
  mkPhysics (count p) (positions p) (velocities p) (accelerations p) a
    (lifetimes p) (G p) (drag p) (maxVelocity p) (minDistance p)
    (fieldRadius p) (chaosMode p) (chaosFactor p) (attractMode p).

Definition set_lifetimes (a : Float32Array) (p : Physics) : Physics :=
  mkPhysics (count p) (positions p) (velocities p) (accelerations p)
    (masses p) a (G p) (drag p) (maxVelocity p) (minDistance p)
    (fieldRadius p) (chaosMode p) (chaosFactor p) (attractMode p).

Definition set_chaos (mode : bool) (factor : num) (p : Physics) : Physics :=
  mkPhysics (count p) (positions p) (velocities p) (accelerations p)
    (masses p) (lifetimes p) (G p) (drag p) (maxVelocity p) (minDistance p)
    (fieldRadius p) mode factor (attractMode p).

Definition on_this (f : Physics -> Physics) (w : World) : World :=
  mkWorld (f (this w)) (random_tape w) (random_calls w)
    (clock_tape w) (clock_calls w).

(** [Math.random()] *)
Definition Math_random (w : World) : num * World :=
  (Fin (random_tape w (random_calls w)),
   mkWorld (this w) (random_tape w) (S (random_calls w))
     (clock_tape w) (clock_calls w)).

(** [Date.now()] *)
Definition Date_now (w : World) : num * World :=
  (Fin (clock_tape w (clock_calls w)),
   mkWorld (this w) (random_tape w) (random_calls w)
     (clock_tape w) (S (clock_calls w))).

(** ** Inputs of [update] *)

(** An element of [gravityWells]: [{ x, y, z, strength }]. *)
Record GravityWell : Type := mkGravityWell {
  gw_x : num; gw_y : num; gw_z : num; gw_strength : num
}.

(** An element of [handVelocities]: [{ vx, vy }]. *)
Record HandVelocity : Type := mkHandVelocity { hv_vx : num; hv_vy : num }.

(** An element of [pathForces]: [{ x, y, time }]. *)
Record PathPoint : Type := mkPathPoint {
  pt_x : num; pt_y : num; pt_time : num
}.

(** A precomputed well of [update]: [{ x, y, z, strength, vx, vy }]. *)
Record Well : Type := mkWell {
  well_x : num; well_y : num; well_z : num;
  well_strength : num; well_vx : num; well_vy : num
}.

Definition vec3 : Type := num * num * num.

Local Open Scope num_scope.

(** ** The constructor and [initParticles] *)

Definition init_particle (w : World) (i : nat) : World :=
  let i3 := (i * 3)%nat in
  let r1 := Math_random w in
  let angle := fst r1 * Math_PI * Fin 2 in
  let r2 := Math_random (snd r1) in
  let radius := fst r2 * Fin 1.5 in
  let w := on_this (fun p => set_positions
             (put (put (put (positions p)
                i3 (Math_cos angle * radius))
                (i3 + 1) (Math_sin angle * radius * Fin 0.8))
                (i3 + 2) (Fin 0)) p) (snd r2) in
  let driftSpeed := Fin 0.001 in
  let r3 := Math_random w in
  let r4 := Math_random (snd r3) in
  let r5 := Math_random (snd r4) in
  let w := on_this (fun p => set_velocities
             (put (put (put (velocities p)
                i3 ((fst r3 - Fin 0.5) * driftSpeed))
                (i3 + 1) ((fst r4 - Fin 0.5) * driftSpeed))
                (i3 + 2) ((fst r5 - Fin 0.5) * Fin 0.0002)) p) (snd r5) in
  let r6 := Math_random w in
  let w := on_this (fun p => set_masses
             (put (masses p) i (Fin 0.5 + fst r6 * Fin 0.5)) p) (snd r6) in
  let r7 := Math_random w in
  on_this (fun p => set_lifetimes (put (lifetimes p) i (fst r7)) p) (snd r7).

Definition initParticles (w : World) : World :=
  fold_left init_particle (seq 0 (count (this w))) w.

(** [new Physics(particleCount)], in a runtime whose [Math.random()] and
    [Date.now()] will return the entries of the two tapes. *)
Definition new_Physics (particleCount : nat) (randoms clock : nat -> R) : World :=
  initParticles
    (mkWorld
       (mkPhysics particleCount
          (new_Float32Array (particleCount * 3))
          (new_Float32Array (particleCount * 3))
          (new_Float32Array (particleCount * 3))
          (new_Float32Array particleCount)
          (new_Float32Array particleCount)
          (Fin 0.00015) (Fin 0.995) (Fin 0.08) (Fin 0.05) (Fin 2.5)
          false (Fin 1) true)
       randoms 0 clock 0).

(** ** [respawnParticle] *)

Definition respawnParticle (i : nat) (w : World) : World :=
  let i3 := (i * 3)%nat in
  let r1 := Math_random w in
  let angle := fst r1 * Math_PI * Fin 2 in
  let r2 := Math_random (snd r1) in
  let radius := Fin 0.1 + fst r2 * Fin 0.3 in
  let r3 := Math_random (snd r2) in
  let w := on_this (fun p => set_positions
             (put (put (put (positions p)
                i3 (Math_cos angle * radius))
                (i3 + 1) (Math_sin angle * radius))
                (i3 + 2) ((fst r3 - Fin 0.5) * Fin 0.1)) p) (snd r3) in
  let r4 := Math_random w in
  let r5 := Math_random (snd r4) in
  let w := on_this (fun p => set_velocities
             (put (put (put (velocities p)
                i3 ((fst r4 - Fin 0.5) * Fin 0.01))
                (i3 + 1) ((fst r5 - Fin 0.5) * Fin 0.01))
                (i3 + 2) (Fin 0)) p) (snd r5) in
  on_this (fun p => set_lifetimes (put (lifetimes p) i (Fin 0)) p) w.

(** ** [toggleChaosMode] *)

Definition toggleChaosMode (w : World) : bool * World :=
  let mode := negb (chaosMode (this w)) in
  (mode, on_this (set_chaos mode (if mode then Fin 3 else Fin 1)) w).

(** ** [update] *)

(** [gravityWells.map((w, idx) => ...)]: normalised to world space, with the
    hand velocity of the same index, [0] when it is missing or falsy. *)
Definition precompute_well (handVelocities : list HandVelocity)
    (idx : nat) (w : GravityWell) : Well :=
  mkWell (gw_x w * Fin 1.5) (gw_y w * Fin 1.2) (gw_z w * Fin 0.5)
    (gw_strength w)
    (or_else (from_option hv_vx NaN (handVelocities !! idx)) (Fin 0))
    (or_else (from_option hv_vy NaN (handVelocities !! idx)) (Fin 0)).

Definition precompute_wells (gravityWells : list GravityWell)
    (handVelocities : list HandVelocity) : list Well :=
  imap (precompute_well handVelocities) gravityWells.

(** The merged well of two close hands, [null] otherwise. *)
Definition merge_wells (wells : list Well) : option Well :=
  match wells with
  | [w0; w1] =>
      let dx := well_x w0 - well_x w1 in
      let dy := well_y w0 - well_y w1 in
      let dist := Math_sqrt (dx * dx + dy * dy) in
      if dist <? Fin 0.5 then
        let mergeFactor := Fin 1 - dist / Fin 0.5 in
        Some (mkWell
          ((well_x w0 + well_x w1) / Fin 2)
          ((well_y w0 + well_y w1) / Fin 2)
          ((well_z w0 + well_z w1) / Fin 2)
          ((well_strength w0 + well_strength w1)
             * (Fin 1 + mergeFactor * Fin 0.5))
          ((well_vx w0 + well_vx w1) / Fin 2)
          ((well_vy w0 + well_vy w1) / Fin 2))
      else None
  | _ => None
  end.

(** The gravitational constant of the frame. *)
Definition effective_G (p : Physics) : num :=
  G p * (if chaosMode p then chaosFactor p * Fin 2 else Fin 1).

(** One pass of the loop over [effectiveWells], for the particle at [i3]. *)
Definition well_force (p : Physics) (i3 : nat) (G minDist fieldR : num)
    (a : vec3) (well : Well) : vec3 :=
  let dx := well_x well - get (positions p) i3 in
  let dy := well_y well - get (positions p) (i3 + 1) in
  let dz := well_z well - get (positions p) (i3 + 2) in
  let distSq := dx * dx + dy * dy + dz * dz in
  let dist := Math_sqrt distSq in
  if dist <? fieldR then
    let softDist := Math_max dist minDist in
    let force := (G * well_strength well) / (softDist * softDist) in
    let invDist := Fin 1 / dist in
    let direction := if attractMode p then Fin 1 else Fin (-1) in
    let ax := a.1.1 + dx * invDist * force * direction in
    let ay := a.1.2 + dy * invDist * force * direction in
    let az := a.2 + dz * invDist * force * direction in
    let handSpeed :=
      Math_sqrt (well_vx well * well_vx well + well_vy well * well_vy well) in
    if (handSpeed >? Fin 0.01) && (dist <? Fin 0.5) then
      let slingshotForce := handSpeed * Fin 0.5 * (Fin 1 - dist / Fin 0.5) in
      (ax + well_vx well * slingshotForce,
       ay + well_vy well * slingshotForce,
       az)
    else (ax, ay, az)
  else a.

(** One pass of the loop over [pathForces]. *)
Definition path_force (p : Physics) (i3 : nat) (now : num)
    (a : vec3) (point : PathPoint) : vec3 :=
  let age := (now - pt_time point) / Fin 8000 in
  if age <? Fin 1 then
    let strength := (Fin 1 - age) * Fin 0.0005 in
    let dx := pt_x point - get (positions p) i3 in
    let dy := pt_y point - get (positions p) (i3 + 1) in
    let dist := Math_sqrt (dx * dx + dy * dy) in
    if (dist <? Fin 0.6) && (dist >? Fin 0.01) then
      let force := strength / (dist + Fin 0.03) in
      (a.1.1 + (dx / dist) * force, a.1.2 + (dy / dist) * force, a.2)
    else a
  else a.

(** The acceleration of particle [i]: wells, then path points, then the
    turbulence of chaos mode. *)
Definition acceleration (wells : list Well) (mergedWell : option Well)
    (pathForces : list PathPoint) (G minDist fieldR : num)
    (i : nat) (w : World) : vec3 * World :=
  let i3 := (i * 3)%nat in
  let effectiveWells :=
    match mergedWell with Some m => [m] | None => wells end in
  let a := fold_left (well_force (this w) i3 G minDist fieldR)
             effectiveWells (Fin 0, Fin 0, Fin 0) in
  let aw :=
    match pathForces with
    | [] => (a, w)
    | _ :: _ =>
        let now := Date_now w in
        (fold_left (path_force (this w) i3 (fst now)) pathForces a, snd now)
    end in
  if chaosMode (this w) then
    let r1 := Math_random (snd aw) in
    let r2 := Math_random (snd r1) in
    ((fst aw).1.1 + (fst r1 - Fin 0.5) * Fin 0.0002,
     (fst aw).1.2 + (fst r2 - Fin 0.5) * Fin 0.0002,
     (fst aw).2, snd r2)
  else aw.

Definition integrate_velocity (i3 : nat) (a : vec3) (dt drag : num)
    (p : Physics) : Physics :=
  let p := set_velocities (put (velocities p) i3
             ((get (velocities p) i3 + a.1.1 * dt) * drag)) p in
  let p := set_velocities (put (velocities p) (i3 + 1)
             ((get (velocities p) (i3 + 1) + a.1.2 * dt) * drag)) p in
  set_velocities (put (velocities p) (i3 + 2)
    ((get (velocities p) (i3 + 2) + a.2 * dt) * drag)) p.

Definition clamp_velocity (i3 : nat) (maxV : num) (p : Physics) : Physics :=
  let vx := get (velocities p) i3 in
  let vy := get (velocities p) (i3 + 1) in
  let vz := get (velocities p) (i3 + 2) in
  let speed := Math_sqrt (vx * vx + vy * vy + vz * vz) in
  if speed >? maxV then
    let scale := maxV / speed in
    let p := set_velocities (put (velocities p) i3
               (get (velocities p) i3 * scale)) p in
    let p := set_velocities (put (velocities p) (i3 + 1)
               (get (velocities p) (i3 + 1) * scale)) p in
    set_velocities (put (velocities p) (i3 + 2)
      (get (velocities p) (i3 + 2) * scale)) p
  else p.

Definition integrate_position (i3 : nat) (dt : num) (p : Physics) : Physics :=
  let p := set_positions (put (positions p) i3
             (get (positions p) i3 + get (velocities p) i3 * dt)) p in
  let p := set_positions (put (positions p) (i3 + 1)
             (get (positions p) (i3 + 1)
                + get (velocities p) (i3 + 1) * dt)) p in
  set_positions (put (positions p) (i3 + 2)
    (get (positions p) (i3 + 2) + get (velocities p) (i3 + 2) * dt)) p.

(** The test [px * px + py * py > 16] of the boundary check. *)
Definition escaped (i : nat) (p : Physics) : bool :=
  let px := get (positions p) (i * 3) in
  let py := get (positions p) (i * 3 + 1) in
  (px * px + py * py) >? Fin 16.

Definition respawn_escaped (i : nat) (w : World) : World :=
  if escaped i (this w) then respawnParticle i w else w.

Definition update_lifetime (i : nat) (p : Physics) : Physics :=
  set_lifetimes (put (lifetimes p) i
    (Math_min (Fin 1) (get (lifetimes p) i + Fin 0.001))) p.

(** The state of the loop body of [update] for particle [i] once the
    position is integrated, before the boundary check. *)
Definition move_particle (wells : list Well) (mergedWell : option Well)
    (pathForces : list PathPoint) (dt G drag maxV minDist fieldR : num)
    (w : World) (i : nat) : World :=
  let aw := acceleration wells mergedWell pathForces G minDist fieldR i w in
  on_this (fun p =>
    integrate_position (i * 3) dt
      (clamp_velocity (i * 3) maxV
         (integrate_velocity (i * 3) (fst aw) dt drag p))) (snd aw).

(** The whole loop body of [update] for particle [i]. *)
Definition update_particle (wells : list Well) (mergedWell : option Well)
    (pathForces : list PathPoint) (dt G drag maxV minDist fieldR : num)
    (w : World) (i : nat) : World :=
  on_this (update_lifetime i)
    (respawn_escaped i
       (move_particle wells mergedWell pathForces
          dt G drag maxV minDist fieldR w i)).

(** The loop of [update] run over the particles of the list [js]. *)
Definition update_loop (gravityWells : list GravityWell)
    (handVelocities : list HandVelocity) (dt : num)
    (pathForces : list PathPoint) (js : list nat) (w : World) : World :=
  let p := this w in
  let wells := precompute_wells gravityWells handVelocities in
  fold_left
    (update_particle wells (merge_wells wells) pathForces dt
       (effective_G p) (drag p) (maxVelocity p) (minDistance p)
       (fieldRadius p))
    js w.

Definition update (gravityWells : list GravityWell)
    (handVelocities : list HandVelocity) (dt : num)
    (pathForces : list PathPoint) (w : World) : World :=
  update_loop gravityWells handVelocities dt pathForces
    (seq 0 (count (this w))) w.

(** ** [applyExplosion] and [applyImplosion] *)

Definition explode_particle (worldX worldY explosionForce explosionRadius : num)
    (p : Physics) (i : nat) : Physics :=
  let i3 := (i * 3)%nat in
  let dx := get (positions p) i3 - worldX in
  let dy := get (positions p) (i3 + 1) - worldY in
  let dist := Math_sqrt (dx * dx + dy * dy) in
  if (dist <? explosionRadius) && (dist >? Fin 0.01) then
    let force := explosionForce * (Fin 1 - dist / explosionRadius) in
    let invDist := Fin 1 / dist in
    let p := set_velocities (put (velocities p) i3
               (get (velocities p) i3 + dx * invDist * force)) p in
    set_velocities (put (velocities p) (i3 + 1)
      (get (velocities p) (i3 + 1) + dy * invDist * force)) p
  else p.

Definition applyExplosion (x y strength : num) (w : World) : World :=
  let worldX := x * Fin 1.5 in
  let worldY := y * Fin 1.2 in
  let explosionForce := Fin 0.08 * strength in
  let explosionRadius := Fin 1.5 in
  on_this (fun p =>
    fold_left (explode_particle worldX worldY explosionForce explosionRadius)
      (seq 0 (count p)) p) w.

Definition implode_particle (worldX worldY implosionForce implosionRadius : num)
    (p : Physics) (i : nat) : Physics :=
  let i3 := (i * 3)%nat in
  let dx := worldX - get (positions p) i3 in
  let dy := worldY - get (positions p) (i3 + 1) in
  let dist := Math_sqrt (dx * dx + dy * dy) in
  if (dist <? implosionRadius) && (dist >? Fin 0.01) then
    let force := implosionForce * (Fin 1 - dist / implosionRadius) in
    let invDist := Fin 1 / dist in
    let p := set_velocities (put (velocities p) i3
               (get (velocities p) i3 + dx * invDist * force)) p in
    set_velocities (put (velocities p) (i3 + 1)
      (get (velocities p) (i3 + 1) + dy * invDist * force)) p
  else p.

Definition applyImplosion (x y strength : num) (w : World) : World :=
  let worldX := x * Fin 1.5 in
  let worldY := y * Fin 1.2 in
  let implosionForce := Fin 0.06 * strength in
  let implosionRadius := Fin 2.0 in
  on_this (fun p =>
    fold_left (implode_particle worldX worldY implosionForce implosionRadius)
      (seq 0 (count p)) p) w.

(** ** [getSpeeds] *)

Definition speed_of (p : Physics) (i : nat) : num :=
  let i3 := (i * 3)%nat in
  let vx := get (velocities p) i3 in
  let vy := get (velocities p) (i3 + 1) in
  let vz := get (velocities p) (i3 + 2) in
  Math_sqrt (vx * vx + vy * vy + vz * vz).

Definition getSpeeds (p : Physics) : Float32Array :=
  map (speed_of p) (seq 0 (count p)).

(** ** Particle views and well-formedness *)

Definition pos_of (p : Physics) (i : nat) : vec3 :=
  (get (positions p) (i * 3), get (positions p) (i * 3 + 1),
   get (positions p) (i * 3 + 2)).

Definition vel_of (p : Physics) (i : nat) : vec3 :=
  (get (velocities p) (i * 3), get (velocities p) (i * 3 + 1),
   get (velocities p) (i * 3 + 2)).

Definition life_of (p : Physics) (i : nat) : num := get (lifetimes p) i.

(** The typed arrays have the sizes the constructor gave them. *)
Definition well_sized (p : Physics) : Prop :=
  length (positions p) = (count p * 3)%nat /\
  length (velocities p) = (count p * 3)%nat /\
  length (masses p) = count p /\
  length (lifetimes p) = count p.

(** Everything [update] and the impulses leave alone. *)
Definition same_setup (p q : Physics) : Prop :=
  count q = count p /\ masses q = masses p /\
  G q = G p /\ drag q = drag p /\ maxVelocity q = maxVelocity p /\
  minDistance q = minDistance p /\ fieldRadius q = fieldRadius p /\
  chaosMode q = chaosMode p /\ chaosFactor q = chaosFactor p /\
  attractMode q = attractMode p /\
  length (positions q) = length (positions p) /\
  length (velocities q) = length (velocities p) /\
  length (lifetimes q) = length (lifetimes p).

(** [q] differs from [p] at most in the position, velocity and lifetime of
    particle [j]. *)
Definition only_particle (j : nat) (p q : Physics) : Prop :=
  same_setup p q /\
  (forall k, k <> (j * 3)%nat -> k <> (j * 3 + 1)%nat -> k <> (j * 3 + 2)%nat ->
     get (positions q) k = get (positions p) k /\
     get (velocities q) k = get (velocities p) k) /\
  (forall k, k <> j -> get (lifetimes q) k = get (lifetimes p) k).

(** The ambient tapes of [v] are those of [w]. *)
Definition same_tapes (w v : World) : Prop :=
  random_tape v = random_tape w /\ clock_tape v = clock_tape w.

(** The velocity and position arithmetic of the loop body, on the three
    components of one particle. *)
Definition integrated (a : vec3) (dt dr : num) (v : vec3) : vec3 :=
  ((v.1.1 + a.1.1 * dt) * dr, (v.1.2 + a.1.2 * dt) * dr,
   (v.2 + a.2 * dt) * dr).

Definition clamped (maxV : num) (v : vec3) : vec3 :=
  let speed := Math_sqrt (v.1.1 * v.1.1 + v.1.2 * v.1.2 + v.2 * v.2) in
  if speed >? maxV then
    let scale := maxV / speed in
    (v.1.1 * scale, v.1.2 * scale, v.2 * scale)
  else v.

Definition advanced (dt : num) (pos v : vec3) : vec3 :=
  (pos.1.1 + v.1.1 * dt, pos.1.2 + v.1.2 * dt, pos.2 + v.2 * dt).

(** The state of [update] when the pass of particle [i] has integrated the
    position and is about to make the boundary check. *)
Definition at_boundary_check (gravityWells : list GravityWell)
    (handVelocities : list HandVelocity) (dt : num)
    (pathForces : list PathPoint) (w : World) (i : nat) : World :=
  let p := this w in
  let wells := precompute_wells gravityWells handVelocities in
  move_particle wells (merge_wells wells) pathForces dt
    (effective_G p) (drag p) (maxVelocity p) (minDistance p) (fieldRadius p)
    (update_loop gravityWells handVelocities dt pathForces (seq 0 i) w) i.

(** Whether that call of [update] respawns particle [i]. *)
Definition respawns (gravityWells : list GravityWell)
    (handVelocities : list HandVelocity) (dt : num)
    (pathForces : list PathPoint) (w : World) (i : nat) : bool :=
  escaped i (this (at_boundary_check gravityWells handVelocities dt
                     pathForces w i)).

(** The wells the forces of a frame come from. *)
Definition effective_wells (gravityWells : list GravityWell)
    (handVelocities : list HandVelocity) : list Well :=
  let wells := precompute_wells gravityWells handVelocities in
  match merge_wells wells with Some m => [m] | None => wells end.

(** The Euclidean norm of a vector of space. *)
Definition norm3 (a b c : R) : R := sqrt (a * a + b * b + c * c).

(** The distance between two points of the plane. *)
Definition planar_distance (ax ay bx by_ : R) : R :=
  sqrt ((ax - bx) * (ax - bx) + (ay - by_) * (ay - by_)).

(** The distance between two points of space. *)
Definition spatial_distance (ax ay az bx by_ bz : R) : R :=
  sqrt ((ax - bx) * (ax - bx) + (ay - by_) * (ay - by_)
        + (az - bz) * (az - bz)).

(** A constructed object of [n] particles whose positions, velocities and
    lifetimes have reached the given values, in a runtime whose coming
    [Math.random()] values are [randoms]. *)
Definition sample_world (n : nat) (pos vel lifes : Float32Array)
    (randoms : nat -> R) : World :=
  mkWorld
    (mkPhysics n pos vel (new_Float32Array (n * 3)) (replicate n (Fin 0.5))
       lifes (Fin 0.00015) (Fin 0.995) (Fin 0.08) (Fin 0.05) (Fin 2.5)
       false (Fin 1) true)
    randoms 0 (fun _ => 0%R) 0.

(** One particle about to leave the disc of radius 4, and one at rest near
    the origin, in a runtime whose [Math.random()] returns 0. *)
Definition escaping_world : World :=
  sample_world 1 [Fin 4; Fin 0; Fin 0] [Fin 0.001; Fin 0; Fin 0] [Fin 0.5]
    (fun _ => 0%R).

Definition coasting_world : World :=
  sample_world 1 [Fin 1; Fin 0; Fin 0] [Fin 0.01; Fin 0; Fin 0] [Fin 0.5]
    (fun _ => 0%R).

(** The object [new Physics(1)] builds in a runtime whose [Math.random()]
    returns 0, and a hand at the origin. *)
Definition origin_world : World :=
  new_Physics 1 (fun _ => 0%R) (fun _ => 0%R).

Definition origin_hand : GravityWell :=
  mkGravityWell (Fin 0) (Fin 0) (Fin 0) (Fin 1).

(** One particle at rest at the origin. *)
Definition resting_world : World :=
  sample_world 1 [Fin 0; Fin 0; Fin 0] [Fin 0; Fin 0; Fin 0] [Fin 0.5]
    (fun _ => 0%R).

(** A particle whose x or y velocity is not a number. *)
Definition lost (p : Physics) (i : nat) : Prop :=
  get (velocities p) (i * 3) = NaN \/ get (velocities p) (i * 3 + 1) = NaN.

(** A well sitting exactly on the particle [i] of [p]. *)
Definition coincides (p : Physics) (i : nat) (well : Well) : Prop :=
  exists x y z : R,
    pos_of p i = (Fin x, Fin y, Fin z) /\
    well_x well = Fin x /\ well_y well = Fin y /\ well_z well = Fin z.

(** Particle [i] as [initParticles] seeds it from the seven numbers the
    tape holds from [base] on. *)
Definition seeded (p : Physics) (i : nat) (tape : nat -> R) (base : nat)
  : Prop :=
  let angle := (tape base * PI * 2)%R in
  let radius := (tape (base + 1)%nat * 1.5)%R in
  pos_of p i
  = (Fin (cos angle * radius), Fin (sin angle * radius * 0.8), Fin 0) /\
  vel_of p i
  = (Fin ((tape (base + 2)%nat - 0.5) * 0.001),
     Fin ((tape (base + 3)%nat - 0.5) * 0.001),
     Fin ((tape (base + 4)%nat - 0.5) * 0.0002)) /\
  get (masses p) i = Fin (0.5 + tape (base + 5)%nat * 0.5) /\
  life_of p i = Fin (tape (base + 6)%nat).

(** Every lifetime is a number of [0, 1]. *)
Definition lifetimes_in_range (p : Physics) : Prop :=
  forall i, (i < count p)%nat ->
    exists l : R, life_of p i = Fin l /\ (0 <= l <= 1)%R.

(** How many of the particles 0, ..., k - 1 a call of [update] respawns. *)
Fixpoint respawned_among (gravityWells : list GravityWell)
    (handVelocities : list HandVelocity) (dt : num)
    (pathForces : list PathPoint) (w : World) (k : nat) : nat :=
  match k with
  | O => 0
  | S k' =>
      (respawned_among gravityWells handVelocities dt pathForces w k'
       + (if respawns gravityWells handVelocities dt pathForces w k'
          then 1 else 0))%nat
  end.

(** ** The game layer (GameMode.js): drawing path and score

    The part of [GameMode] that feeds [update] its path points and keeps
    the score.  [localStorage] is the cell [saved_highScore]; the clock is
    a tape, as for [World]. *)

Inductive Mode : Type := Free | Draw | Collect | Disperse | Balance.

(** An element of [drawPath]: [{ x, y, time, color }]. *)
Record DrawPoint : Type := mkDrawPoint {
  dp_x : num; dp_y : num; dp_time : num; dp_color : nat
}.

Record GameMode : Type := mkGameMode {
  currentMode : Mode;
  drawPath : list DrawPoint;
  pathMaxLength : nat;
  pathFadeTime : num;
  score : num;
  combo : num;
  comboTimer : num;
  comboTimeout : num;
  highScore : num;
  saved_highScore : option num;
  currentColorIndex : nat;
  game_clock : nat -> R;
  game_clock_calls : nat
}.

(** [new GameMode()], where [stored] is what [parseInt] made of the saved
    high score. *)
Definition new_GameMode (stored : num) (clock : nat -> R) : GameMode :=
  mkGameMode Free [] 300 (Fin 8000) (Fin 0) (Fin 1) (Fin 0) (Fin 2000)
    stored None 0 clock 0.

Definition set_drawPath (path : list DrawPoint) (g : GameMode) : GameMode :=
  mkGameMode (currentMode g) path (pathMaxLength g) (pathFadeTime g)
    (score g) (combo g) (comboTimer g) (comboTimeout g) (highScore g)
    (saved_highScore g) (currentColorIndex g) (game_clock g)
    (game_clock_calls g).

Definition set_mode (m : Mode) (g : GameMode) : GameMode :=
  mkGameMode m (drawPath g) (pathMaxLength g) (pathFadeTime g)
    (score g) (combo g) (comboTimer g) (comboTimeout g) (highScore g)
    (saved_highScore g) (currentColorIndex g) (game_clock g)
    (game_clock_calls g).

Definition set_score (s c t h : num) (saved : option num) (g : GameMode)
  : GameMode :=
  mkGameMode (currentMode g) (drawPath g) (pathMaxLength g) (pathFadeTime g)
    s c t (comboTimeout g) h saved (currentColorIndex g) (game_clock g)
    (game_clock_calls g).

(** [Date.now()] in the game layer. *)
Definition game_now (g : GameMode) : num * GameMode :=
  (Fin (game_clock g (game_clock_calls g)),
   mkGameMode (currentMode g) (drawPath g) (pathMaxLength g) (pathFadeTime g)
     (score g) (combo g) (comboTimer g) (comboTimeout g) (highScore g)
     (saved_highScore g) (currentColorIndex g) (game_clock g)
     (S (game_clock_calls g))).

Definition addScore (points : num) (g : GameMode) : num * GameMode :=
  let t := game_now g in
  let now := fst t in
  let g := snd t in
  let combo1 :=
    if (now - comboTimer g) >? comboTimeout g then Fin 1 else combo g in
  let score1 := score g + points * combo1 in
  if score1 >? highScore g then
    (score1, set_score score1 combo1 now score1 (Some score1) g)
  else
    (score1, set_score score1 combo1 now (highScore g) (saved_highScore g) g).

Definition increaseCombo (g : GameMode) : num * GameMode :=
  let combo1 := Math_min (combo g + Fin 1) (Fin 10) in
  let t := game_now g in
  (combo1,
   set_score (score (snd t)) combo1 (fst t) (highScore (snd t))
     (saved_highScore (snd t)) (snd t)).

Definition resetScore (g : GameMode) : GameMode :=
  set_score (Fin 0) (Fin 1) (comboTimer g) (highScore g) (saved_highScore g) g.

Definition addDrawPoint (x y : num) (g : GameMode) : GameMode :=
  let t := game_now g in
  let g := snd t in
  let pushed :=
    drawPath g ++ [mkDrawPoint x y (fst t) (currentColorIndex g)] in
  let path :=
    if Nat.ltb (pathMaxLength g) (length pushed) then tail pushed
    else pushed in
  snd (addScore (Fin 1) (set_drawPath path g)).

Definition getActivePath (g : GameMode) : list DrawPoint * GameMode :=
  let t := game_now g in
  let now := fst t in
  let g := snd t in
  let path :=
    List.filter (fun p => (now - dp_time p) <? pathFadeTime g) (drawPath g) in
  (path, set_drawPath path g).

Definition clearPath (g : GameMode) : GameMode := set_drawPath [] g.

Definition setMode (m : Mode) (g : GameMode) : GameMode :=
  let g := set_mode m g in
  match m with Draw => g | _ => clearPath g end.


(** The calls the application makes on the game layer. *)
Inductive GameCall : Type :=
| GAddDrawPoint (x y : num)
| GGetActivePath
| GAddScore (points : num)
| GIncreaseCombo
| GResetScore
| GClearPath
| GSetMode (m : Mode).

Definition run_game_call (g : GameMode) (c : GameCall) : GameMode :=
  match c with
  | GAddDrawPoint x y => addDrawPoint x y g
  | GGetActivePath => snd (getActivePath g)
  | GAddScore points => snd (addScore points g)
  | GIncreaseCombo => snd (increaseCombo g)
  | GResetScore => resetScore g
  | GClearPath => clearPath g
  | GSetMode m => setMode m g
  end.

Definition run_game_calls (cs : list GameCall) (g : GameMode) : GameMode :=
  fold_left run_game_call cs g.

(** The combo multiplier is a number of [1, 10]. *)
Definition combo_in_range (g : GameMode) : Prop :=
  exists c : R, combo g = Fin c /\ (1 <= c <= 10)%R.

(** The scores as the comparisons of the code see them, in a game whose
    stored high score was [h0]: the score is not above the high score, the
    high score is below neither [h0] nor 0, and the storage holds nothing
    or the high score. *)
Definition scores_ordered (h0 : num) (g : GameMode) : Prop :=
  (score g >? highScore g) = false /\
  (h0 >? highScore g) = false /\
  (Fin 0 >? highScore g) = false /\
  (saved_highScore g = None \/ saved_highScore g = Some (highScore g)).

(** Every value [Math.random()] will return lies in [0, 1). *)
Definition random_in_range (w : World) : Prop :=
  forall k, (0 <= random_tape w k < 1)%R.

(** The calls a client makes on a constructed object. *)
Inductive Call : Type :=
| CallUpdate (gravityWells : list GravityWell)
    (handVelocities : list HandVelocity) (dt : num)
    (pathForces : list PathPoint)
| CallExplosion (x y strength : num)
| CallImplosion (x y strength : num).

Definition run_call (w : World) (c : Call) : World :=
  match c with
  | CallUpdate gws hvs dt pfs => update gws hvs dt pfs w
  | CallExplosion x y s => applyExplosion x y s w
  | CallImplosion x y s => applyImplosion x y s w
  end.

Definition run_calls (cs : list Call) (w : World) : World :=
  fold_left run_call cs w.

(** [n] frames in a row without hands, hand velocities or path points. *)
Fixpoint coast (n : nat) (dt : num) (w : World) : World :=
  match n with
  | O => w
  | S n' => update [] [] dt [] (coast n' dt w)
  end.

(** ** Arithmetic of numbers *)

Ltac decide_reals :=
  repeat match goal with
    | |- context [Rlt_dec ?a ?b] => destruct (Rlt_dec a b); try lra
    | |- context [Req_dec_T ?a ?b] => destruct (Req_dec_T a b); try lra
    | H : context [Rlt_dec ?a ?b] |- _ => destruct (Rlt_dec a b); try lra
    | H : context [Req_dec_T ?a ?b] |- _ => destruct (Req_dec_T a b); try lra
    end.

Lemma nlt_Fin (x y : R) : (Fin x <? Fin y) = true <-> (x < y)%R.
Proof. simpl. destruct (Rlt_dec x y); split; intros; try easy. Qed.

Lemma nlt_Fin_true (x y : R) : (x < y)%R -> (Fin x <? Fin y) = true.
Proof. apply nlt_Fin. Qed.

Lemma nlt_Fin_false (x y : R) : (y <= x)%R -> (Fin x <? Fin y) = false.
Proof. intros H. simpl. destruct (Rlt_dec x y); [lra | reflexivity]. Qed.

Lemma ngt_Fin_true (x y : R) : (y < x)%R -> (Fin x >? Fin y) = true.
Proof. apply nlt_Fin_true. Qed.

Lemma ngt_Fin_false (x y : R) : (x <= y)%R -> (Fin x >? Fin y) = false.
Proof. apply nlt_Fin_false. Qed.

Lemma ndiv_Fin (x y : R) : y <> 0%R -> Fin x / Fin y = Fin (x / y).
Proof. intros H. simpl. destruct (Req_dec_T y 0); [contradiction | reflexivity]. Qed.

Lemma ndiv_zero (x : R) : (0 < x)%R -> Fin x / Fin 0 = PInf.
Proof.
  intros H. unfold ndiv, scale_inf.
  destruct (Req_dec_T 0 0); [| lra].
  destruct (Req_dec_T x 0); [lra |].
  destruct (Rlt_dec 0 x); [reflexivity | lra].
Qed.

Lemma nmul_zero_PInf : Fin 0 * PInf = NaN.
Proof. unfold nmul, scale_inf. destruct (Req_dec_T 0 0); [reflexivity | lra]. Qed.

Lemma Math_sqrt_Fin (x : R) : (0 <= x)%R -> Math_sqrt (Fin x) = Fin (sqrt x).
Proof. intros H. simpl. destruct (Rlt_dec x 0); [lra | reflexivity]. Qed.

Lemma sum_sq2_nonneg (a b : R) : (0 <= a * a + b * b)%R.
Proof. nra. Qed.

Lemma sum_sq3_nonneg (a b c : R) : (0 <= a * a + b * b + c * c)%R.
Proof. nra. Qed.

Lemma Math_sqrt_square (x : R) : (0 <= x)%R -> Math_sqrt (Fin (x * x)) = Fin x.
Proof.
  intros H. rewrite Math_sqrt_Fin by nra. now rewrite sqrt_square.
Qed.

Lemma nmul_1_r (a : num) : a * Fin 1 = a.
Proof.
  destruct a; simpl; unfold scale_inf; decide_reals; try reflexivity.
  f_equal; lra.
Qed.

Lemma nadd_NaN_r (a : num) : a + NaN = NaN.
Proof. now destruct a. Qed.

Lemma nmul_NaN_l (a : num) : NaN * a = NaN.
Proof. reflexivity. Qed.

Lemma nmul_NaN_r (a : num) : a * NaN = NaN.
Proof. now destruct a. Qed.

Lemma Fin_eq (x y : R) : x = y -> Fin x = Fin y.
Proof. now intros ->. Qed.

Lemma or_else_Fin (x : R) : or_else (Fin x) (Fin 0) = Fin x.
Proof.
  unfold or_else, truthy. destruct (Req_dec_T x 0); [now subst | reflexivity].
Qed.

(** A comparison that succeeds has no NaN operand. *)
Lemma nlt_true_inv (a b : num) :
  (a <? b) = true ->
  (exists x y, a = Fin x /\ b = Fin y /\ (x < y)%R) \/
  (a = NInf /\ b <> NInf /\ b <> NaN) \/
  (b = PInf /\ a <> PInf /\ a <> NaN).
Proof.
  destruct a as [x| | |], b as [y| | |]; simpl; try discriminate; intros H.
  - left. exists x, y. destruct (Rlt_dec x y); [auto | discriminate].
  - right; right; repeat split; discriminate.
  - right; left; repeat split; discriminate.
  - right; left; repeat split; discriminate.
Qed.

(** ** Reading and writing typed arrays *)

Lemma get_put_eq (a : Float32Array) (i : nat) (v : num) :
  (i < length a)%nat -> get (put a i v) i = v.
Proof. intros H. unfold get, put. now rewrite list_lookup_insert_eq. Qed.

Lemma get_put_ne (a : Float32Array) (i j : nat) (v : num) :
  i <> j -> get (put a i v) j = get a j.
Proof. intros H. unfold get, put. now rewrite list_lookup_insert_ne. Qed.

Lemma length_put (a : Float32Array) (i : nat) (v : num) :
  length (put a i v) = length a.
Proof. apply length_insert. Qed.

Lemma get_new (n i : nat) : (i < n)%nat -> get (new_Float32Array n) i = Fin 0.
Proof.
  intros H. unfold get, new_Float32Array.
  now rewrite lookup_replicate_2.
Qed.

(** ** Frame properties of the loop body *)

Lemma same_setup_refl (p : Physics) : same_setup p p.
Proof. unfold same_setup. tauto. Qed.

Lemma same_setup_trans (p q r : Physics) :
  same_setup p q -> same_setup q r -> same_setup p r.
Proof.
  unfold same_setup. intros H1 H2.
  destruct H1 as (?&?&?&?&?&?&?&?&?&?&?&?&?).
  destruct H2 as (?&?&?&?&?&?&?&?&?&?&?&?&?).
  repeat split; congruence.
Qed.

Lemma well_sized_same_setup (p q : Physics) :
  same_setup p q -> well_sized p -> well_sized q.
Proof.
  unfold same_setup, well_sized.
  intros (?&Hm&?&?&?&?&?&?&?&?&?&?&?) (?&?&?&?).
  rewrite Hm. repeat split; congruence.
Qed.

Lemma only_particle_refl (j : nat) (p : Physics) : only_particle j p p.
Proof. split; [apply same_setup_refl | auto]. Qed.

Lemma only_particle_trans (j : nat) (p q r : Physics) :
  only_particle j p q -> only_particle j q r -> only_particle j p r.
Proof.
  intros (S1 & A1 & L1) (S2 & A2 & L2). split; [| split].
  - eapply same_setup_trans; eauto.
  - intros k H0 H1 H2.
    destruct (A1 k H0 H1 H2) as [E1 E2].
    destruct (A2 k H0 H1 H2) as [E3 E4]. split; congruence.
  - intros k H. rewrite <- L1 by assumption. now apply L2.
Qed.

Lemma same_tapes_refl (w : World) : same_tapes w w.
Proof. now split. Qed.

Lemma same_tapes_trans (u v w : World) :
  same_tapes u v -> same_tapes v w -> same_tapes u w.
Proof. intros [? ?] [? ?]. split; congruence. Qed.

Lemma on_this_tapes (f : Physics -> Physics) (w : World) :
  same_tapes w (on_this f w).
Proof. now split. Qed.

Ltac frame_arrays :=
  unfold same_setup; simpl;
  repeat rewrite length_put;
  repeat (rewrite get_put_ne by lia);
  auto 20.

Lemma integrate_velocity_only (j : nat) (a : vec3) (dt dr : num) (p : Physics) :
  only_particle j p (integrate_velocity (j * 3) a dt dr p).
Proof.
  split; [| split]; unfold integrate_velocity.
  - frame_arrays.
  - intros k H0 H1 H2. frame_arrays.
  - intros k H. frame_arrays.
Qed.

Lemma clamp_velocity_only (j : nat) (maxV : num) (p : Physics) :
  only_particle j p (clamp_velocity (j * 3) maxV p).
Proof.
  unfold clamp_velocity.
  destruct (_ >? maxV); [| apply only_particle_refl].
  split; [| split].
  - frame_arrays.
  - intros k H0 H1 H2. frame_arrays.
  - intros k H. frame_arrays.
Qed.

Lemma integrate_position_only (j : nat) (dt : num) (p : Physics) :
  only_particle j p (integrate_position (j * 3) dt p).
Proof.
  split; [| split]; unfold integrate_position.
  - frame_arrays.
  - intros k H0 H1 H2. frame_arrays.
  - intros k H. frame_arrays.
Qed.

Lemma update_lifetime_only (j : nat) (p : Physics) :
  only_particle j p (update_lifetime j p).
Proof.
  split; [| split]; unfold update_lifetime.
  - frame_arrays.
  - intros k H0 H1 H2. frame_arrays.
  - intros k H. frame_arrays.
Qed.

Lemma respawnParticle_only (j : nat) (w : World) :
  only_particle j (this w) (this (respawnParticle j w)) /\
  same_tapes w (respawnParticle j w).
Proof.
  split; [split; [| split] |]; unfold respawnParticle.
  - frame_arrays.
  - intros k H0 H1 H2. frame_arrays.
  - intros k H. frame_arrays.
  - now split.
Qed.

Lemma respawn_escaped_only (j : nat) (w : World) :
  only_particle j (this w) (this (respawn_escaped j w)) /\
  same_tapes w (respawn_escaped j w).
Proof.
  unfold respawn_escaped. destruct (escaped j (this w)).
  - apply respawnParticle_only.
  - split; [apply only_particle_refl | apply same_tapes_refl].
Qed.

Lemma acceleration_this wells merged pathForces g minDist fieldR i w :
  this (snd (acceleration wells merged pathForces g minDist fieldR i w)) = this w
  /\ same_tapes w (snd (acceleration wells merged pathForces g minDist fieldR i w)).
Proof.
  unfold acceleration.
  destruct pathForces; destruct (chaosMode (this w)); simpl; split;
    try reflexivity; now split.
Qed.

Lemma move_particle_only wells merged pathForces dt g dr maxV minDist fieldR w j :
  only_particle j (this w)
    (this (move_particle wells merged pathForces dt g dr maxV minDist fieldR w j))
  /\ same_tapes w
       (move_particle wells merged pathForces dt g dr maxV minDist fieldR w j).
Proof.
  unfold move_particle.
  destruct (acceleration_this wells merged pathForces g minDist fieldR j w)
    as [Ht Hs].
  set (aw := acceleration _ _ _ _ _ _ _ _) in *.
  clearbody aw. split.
  - cbn [this on_this]. rewrite Ht.
    eapply only_particle_trans; [apply integrate_velocity_only |].
    eapply only_particle_trans; [apply clamp_velocity_only |].
    apply integrate_position_only.
  - eapply same_tapes_trans; [exact Hs | apply on_this_tapes].
Qed.

Lemma update_particle_only wells merged pathForces dt g dr maxV minDist fieldR w j :
  only_particle j (this w)
    (this (update_particle wells merged pathForces dt g dr maxV minDist fieldR w j))
  /\ same_tapes w
       (update_particle wells merged pathForces dt g dr maxV minDist fieldR w j).
Proof.
  unfold update_particle.
  destruct (move_particle_only wells merged pathForces dt g dr maxV minDist
              fieldR w j) as [Hm Hs].
  set (wm := move_particle _ _ _ _ _ _ _ _ _ _ _) in *.
  destruct (respawn_escaped_only j wm) as [Hr Hr'].
  clearbody wm. split.
  - cbn [this on_this].
    eapply only_particle_trans; [exact Hm |].
    eapply only_particle_trans; [exact Hr |].
    apply update_lifetime_only.
  - eapply same_tapes_trans; [exact Hs |].
    eapply same_tapes_trans; [exact Hr' | apply on_this_tapes].
Qed.

(** ** The loop of [update], particle by particle *)

Section UpdateLoop.

Variables (wells : list Well) (merged : option Well)
  (pathForces : list PathPoint) (dt g dr maxV minDist fieldR : num).

Let step := update_particle wells merged pathForces dt g dr maxV minDist fieldR.

Lemma fold_step_setup (js : list nat) (w : World) :
  same_setup (this w) (this (fold_left step js w)) /\
  same_tapes w (fold_left step js w).
Proof.
  revert w. induction js as [| j js IH]; intros w; simpl.
  - split; [apply same_setup_refl | apply same_tapes_refl].
  - destruct (update_particle_only wells merged pathForces dt g dr maxV
                minDist fieldR w j) as [[Hs _] Ht].
    destruct (IH (step w j)) as [Hs' Ht'].
    split.
    + eapply same_setup_trans; eauto.
    + eapply same_tapes_trans; eauto.
Qed.

Lemma fold_step_other (i : nat) (js : list nat) (w : World) :
  ~ In i js ->
  pos_of (this (fold_left step js w)) i = pos_of (this w) i /\
  vel_of (this (fold_left step js w)) i = vel_of (this w) i /\
  life_of (this (fold_left step js w)) i = life_of (this w) i.
Proof.
  revert w. induction js as [| j js IH]; intros w Hni; simpl.
  - auto.
  - assert (Hij : j <> i) by (intros ->; apply Hni; now left).
    assert (Hni' : ~ In i js) by (intros H; apply Hni; now right).
    destruct (IH (step w j) Hni') as (Hp & Hv & Hl).
    rewrite Hp, Hv, Hl.
    destruct (update_particle_only wells merged pathForces dt g dr maxV
                minDist fieldR w j) as [(_ & Ha & Hlf) _].
    fold step in Ha, Hlf.
    unfold pos_of, vel_of, life_of.
    destruct (Ha (i * 3)%nat) as [-> ->]; try lia.
    destruct (Ha (i * 3 + 1)%nat) as [-> ->]; try lia.
    destruct (Ha (i * 3 + 2)%nat) as [-> ->]; try lia.
    rewrite Hlf by lia. auto.
Qed.

End UpdateLoop.

Lemma seq_split_at (i n : nat) :
  (i < n)%nat -> seq 0 n = seq 0 i ++ i :: seq (S i) (n - S i).
Proof.
  intros H. replace n with (i + S (n - S i))%nat at 1 by lia.
  rewrite seq_app. simpl. reflexivity.
Qed.

(** The constants [update] hoists out of the loop do not change while the
    loop runs, so the loop may be cut at any particle. *)
Lemma update_loop_app gws hvs dt pfs (l1 l2 : list nat) (w : World) :
  update_loop gws hvs dt pfs (l1 ++ l2) w =
  update_loop gws hvs dt pfs l2 (update_loop gws hvs dt pfs l1 w).
Proof.
  assert (Hs : same_setup (this w) (this (update_loop gws hvs dt pfs l1 w)))
    by apply fold_step_setup.
  destruct Hs as (_&_&HG&Hd&Hm&Hmd&Hf&Hc&Hcf&_).
  unfold update_loop at 1 2. unfold effective_G.
  rewrite HG, Hd, Hm, Hmd, Hf, Hc, Hcf.
  rewrite fold_left_app. reflexivity.
Qed.

Lemma update_loop_setup gws hvs dt pfs (js : list nat) (w : World) :
  same_setup (this w) (this (update_loop gws hvs dt pfs js w)) /\
  same_tapes w (update_loop gws hvs dt pfs js w).
Proof. apply fold_step_setup. Qed.

Lemma update_loop_other gws hvs dt pfs (i : nat) (js : list nat) (w : World) :
  ~ In i js ->
  pos_of (this (update_loop gws hvs dt pfs js w)) i = pos_of (this w) i /\
  vel_of (this (update_loop gws hvs dt pfs js w)) i = vel_of (this w) i /\
  life_of (this (update_loop gws hvs dt pfs js w)) i = life_of (this w) i.
Proof. apply fold_step_other. Qed.

(** The state of particle [i] when [update] returns is the one its own pass
    of the loop left, and the state that pass started from is the one
    [update] was called with. *)
Lemma update_at_particle gws hvs dt pfs (i : nat) (w : World) :
  (i < count (this w))%nat ->
  let w1 := update_loop gws hvs dt pfs (seq 0 i) w in
  let w2 := update_loop gws hvs dt pfs [i] w1 in
  let w3 := update gws hvs dt pfs w in
  (pos_of (this w3) i = pos_of (this w2) i /\
   vel_of (this w3) i = vel_of (this w2) i /\
   life_of (this w3) i = life_of (this w2) i) /\
  (pos_of (this w1) i = pos_of (this w) i /\
   vel_of (this w1) i = vel_of (this w) i /\
   life_of (this w1) i = life_of (this w) i) /\
  same_setup (this w) (this w1) /\ same_tapes w w1.
Proof.
  intros Hi w1 w2 w3. split; [| split].
  - unfold w3, update. rewrite (seq_split_at i _ Hi).
    rewrite update_loop_app.
    change (i :: seq (S i) (count (this w) - S i))
      with ([i] ++ seq (S i) (count (this w) - S i)).
    rewrite update_loop_app. fold w1 w2.
    apply update_loop_other. rewrite in_seq. lia.
  - apply update_loop_other. rewrite in_seq. lia.
  - apply update_loop_setup.
Qed.

(** ** The gravitational constant of a frame *)

(** C3, as the code has it: the constant [update] uses for the well forces is
    [G] when chaos mode is off and [G * (chaosFactor * 2)] when it is on;
    [toggleChaosMode] switching chaos on sets the factor to 3, so the
    constant is then six times [G]. *)
Theorem effective_G_chaos (w : World) (g : R) :
  G (this w) = Fin g ->
  (forall gws hvs dt pfs,
     update gws hvs dt pfs w =
     fold_left
       (update_particle (precompute_wells gws hvs)
          (merge_wells (precompute_wells gws hvs)) pfs dt
          (effective_G (this w)) (drag (this w)) (maxVelocity (this w))
          (minDistance (this w)) (fieldRadius (this w)))
       (seq 0 (count (this w))) w) /\
  (chaosMode (this w) = false -> effective_G (this w) = Fin g) /\
  (chaosMode (this w) = true ->
     effective_G (this w) = Fin g * (chaosFactor (this w) * Fin 2)) /\
  (chaosMode (this w) = false ->
     chaosMode (this (snd (toggleChaosMode w))) = true /\
     chaosFactor (this (snd (toggleChaosMode w))) = Fin 3 /\
     effective_G (this (snd (toggleChaosMode w))) = Fin (6 * g)).
Proof.
  intros HG. split; [reflexivity |]. unfold effective_G. repeat split.
  - intros ->. rewrite HG. apply nmul_1_r.
  - intros ->. now rewrite HG.
  - simpl. now rewrite H.
  - simpl. now rewrite H.
  - simpl. rewrite H, HG. simpl. apply Fin_eq. lra.
Qed.

Lemma effective_G_chaos_witness :
  effective_G (this (new_Physics 0 (fun _ => 0%R) (fun _ => 0%R)))
    = Fin 0.00015 /\
  effective_G
    (this (snd (toggleChaosMode
                  (new_Physics 0 (fun _ => 0%R) (fun _ => 0%R)))))
    = Fin (6 * 0.00015).
Proof.
  pose proof (effective_G_chaos
                (new_Physics 0 (fun _ => 0%R) (fun _ => 0%R)) 0.00015
                eq_refl) as (_ & Hoff & _ & Hon).
  split.
  - apply Hoff. reflexivity.
  - apply Hon. reflexivity.
Defined.

(** C3, as stated, fails: with chaos mode switched on by [toggleChaosMode]
    the chaos factor is 3 and [G * chaosFactor] is 0.00045, but the
    constant of the frame is 0.0009. *)
Lemma effective_G_chaos_counterexample :
  let p := this (snd (toggleChaosMode
                        (new_Physics 0 (fun _ => 0%R) (fun _ => 0%R)))) in
  chaosMode p = true /\
  G p * chaosFactor p = Fin (0.00015 * 3) /\
  effective_G p = Fin (0.00015 * (3 * 2)) /\
  effective_G p <> G p * chaosFactor p.
Proof.
  simpl. repeat split; try reflexivity.
  unfold effective_G. simpl. intros H. injection H. lra.
Qed.

(** ** Merging two wells *)

Lemma planar_distance_nonneg (ax ay bx by_ : R) :
  (0 <= planar_distance ax ay bx by_)%R.
Proof. apply sqrt_pos. Qed.

Lemma planar_distance_axis (ax bx y : R) :
  (bx <= ax)%R -> planar_distance ax y bx y = (ax - bx)%R.
Proof.
  intros H. unfold planar_distance.
  replace ((ax - bx) * (ax - bx) + (y - y) * (y - y))%R
    with ((ax - bx) * (ax - bx))%R by lra.
  apply sqrt_square. lra.
Qed.

Lemma merge_wells_close (w0 w1 : Well) (x0 y0 x1 y1 s0 s1 : R) :
  well_x w0 = Fin x0 -> well_y w0 = Fin y0 -> well_strength w0 = Fin s0 ->
  well_x w1 = Fin x1 -> well_y w1 = Fin y1 -> well_strength w1 = Fin s1 ->
  (planar_distance x0 y0 x1 y1 < 0.5)%R ->
  merge_wells [w0; w1] =
  Some (mkWell (Fin ((x0 + x1) / 2)) (Fin ((y0 + y1) / 2))
          ((well_z w0 + well_z w1) / Fin 2)
          (Fin ((s0 + s1)
                * (1 + (1 - planar_distance x0 y0 x1 y1 / 0.5) * 0.5)))
          ((well_vx w0 + well_vx w1) / Fin 2)
          ((well_vy w0 + well_vy w1) / Fin 2)).
Proof.
  intros Hx0 Hy0 Hs0 Hx1 Hy1 Hs1 Hd. unfold merge_wells.
  rewrite Hx0, Hy0, Hs0, Hx1, Hy1, Hs1. cbn [nsub nmul nadd].
  rewrite Math_sqrt_Fin by apply sum_sq2_nonneg.
  fold (planar_distance x0 y0 x1 y1).
  rewrite nlt_Fin_true by assumption.
  rewrite !ndiv_Fin by lra. reflexivity.
Qed.

Lemma merge_wells_far (w0 w1 : Well) (x0 y0 x1 y1 : R) :
  well_x w0 = Fin x0 -> well_y w0 = Fin y0 ->
  well_x w1 = Fin x1 -> well_y w1 = Fin y1 ->
  (0.5 <= planar_distance x0 y0 x1 y1)%R ->
  merge_wells [w0; w1] = None.
Proof.
  intros Hx0 Hy0 Hx1 Hy1 Hd. unfold merge_wells.
  rewrite Hx0, Hy0, Hx1, Hy1. cbn [nsub nmul nadd].
  rewrite Math_sqrt_Fin by apply sum_sq2_nonneg.
  fold (planar_distance x0 y0 x1 y1).
  now rewrite nlt_Fin_false by assumption.
Qed.

(** C2, as the code has it: two supplied wells are merged when the distance
    between their scaled images (1.5 x, 1.2 y) is below 0.5; the merged well
    lies at the midpoint of the scaled wells, its strength is
    (s1 + s2) (1 + (1 - d / 0.5) 0.5) for that distance d, its velocity the
    average of the two wells' velocities, and it alone is used for the
    forces; at d = 0.3 and unit strengths the merged strength is 2.4. *)
Theorem merge_wells_scaled (g0 g1 : GravityWell) (hvs : list HandVelocity)
    (x0 y0 x1 y1 s0 s1 : R) :
  gw_x g0 = Fin x0 -> gw_y g0 = Fin y0 -> gw_strength g0 = Fin s0 ->
  gw_x g1 = Fin x1 -> gw_y g1 = Fin y1 -> gw_strength g1 = Fin s1 ->
  let d := planar_distance (x0 * 1.5) (y0 * 1.2) (x1 * 1.5) (y1 * 1.2) in
  (d < 0.5)%R ->
  let wells := precompute_wells [g0; g1] hvs in
  exists w0 w1 m,
    wells = [w0; w1] /\ merge_wells wells = Some m /\
    well_x m = Fin ((x0 * 1.5 + x1 * 1.5) / 2) /\
    well_y m = Fin ((y0 * 1.2 + y1 * 1.2) / 2) /\
    well_z m = (gw_z g0 * Fin 0.5 + gw_z g1 * Fin 0.5) / Fin 2 /\
    well_strength m = Fin ((s0 + s1) * (1 + (1 - d / 0.5) * 0.5)) /\
    well_vx m = (well_vx w0 + well_vx w1) / Fin 2 /\
    well_vy m = (well_vy w0 + well_vy w1) / Fin 2 /\
    (d = 0.3%R -> s0 = 1%R -> s1 = 1%R -> well_strength m = Fin 2.4) /\
    (forall pfs g minDist fieldR i w,
       acceleration wells (Some m) pfs g minDist fieldR i w =
       acceleration [m] None pfs g minDist fieldR i w).
Proof.
  intros Hx0 Hy0 Hs0 Hx1 Hy1 Hs1 d Hd wells.
  exists (precompute_well hvs 0 g0), (precompute_well hvs 1 g1).
  eexists. split; [reflexivity |]. split.
  - unfold wells, precompute_wells. cbn [imap].
    unfold compose.
    apply (merge_wells_close _ _ (x0 * 1.5) (y0 * 1.2) (x1 * 1.5) (y1 * 1.2)
             s0 s1); simpl; try rewrite Hx0; try rewrite Hy0;
      try rewrite Hx1; try rewrite Hy1; auto.
  - cbn [well_x well_y well_z well_strength well_vx well_vy precompute_well].
    repeat split; try reflexivity.
    intros Hd3 -> ->. fold d. rewrite Hd3. apply Fin_eq. lra.
Qed.

Lemma merge_wells_scaled_witness :
  exists m,
    merge_wells
      (precompute_wells
         [mkGravityWell (Fin 0.2) (Fin 0) (Fin 0) (Fin 1);
          mkGravityWell (Fin 0) (Fin 0) (Fin 0) (Fin 1)] []) = Some m /\
    well_strength m = Fin 2.4.
Proof.
  assert (Hd : planar_distance (0.2 * 1.5) (0 * 1.2) (0 * 1.5) (0 * 1.2)
               = 0.3%R).
  { rewrite planar_distance_axis by lra. lra. }
  destruct (merge_wells_scaled
              (mkGravityWell (Fin 0.2) (Fin 0) (Fin 0) (Fin 1))
              (mkGravityWell (Fin 0) (Fin 0) (Fin 0) (Fin 1))
              [] 0.2 0 0 0 1 1 eq_refl eq_refl eq_refl eq_refl eq_refl eq_refl)
    as (w0 & w1 & m & _ & Hm & _ & _ & _ & _ & _ & _ & Hs & _).
  - rewrite Hd. lra.
  - exists m. split; [exact Hm |]. now apply Hs.
Defined.

(** C2, as stated, fails: two supplied wells at planar distance 0.3 and of
    strength 1 are merged with strength 2.1, because the distance the merge
    uses is the one between the scaled wells, here 0.45. *)
Lemma merge_wells_supplied_counterexample :
  let g0 := mkGravityWell (Fin 0.3) (Fin 0) (Fin 0) (Fin 1) in
  let g1 := mkGravityWell (Fin 0) (Fin 0) (Fin 0) (Fin 1) in
  planar_distance 0.3 0 0 0 = 0.3%R /\
  exists m,
    merge_wells (precompute_wells [g0; g1] []) = Some m /\
    well_strength m = Fin 2.1 /\ well_strength m <> Fin 2.4.
Proof.
  intros g0 g1. split.
  - rewrite planar_distance_axis by lra. lra.
  - assert (Hd : planar_distance (0.3 * 1.5) (0 * 1.2) (0 * 1.5) (0 * 1.2)
                 = 0.45%R).
    { rewrite planar_distance_axis by lra. lra. }
    eexists. split; [| split].
    + unfold precompute_wells. cbn [imap]. unfold compose.
      apply (merge_wells_close _ _ (0.3 * 1.5) (0 * 1.2) (0 * 1.5) (0 * 1.2)
               1 1); try reflexivity.
      rewrite Hd. lra.
    + cbn [well_strength]. rewrite Hd. apply Fin_eq. lra.
    + cbn [well_strength]. rewrite Hd. intros H. injection H. lra.
Qed.

(** ** The impulses *)

(** A read-modify-write of a slot needs no bounds: outside the array the
    read is [NaN], it stays [NaN] through the arithmetic, and the write is
    dropped. *)
Lemma get_put_self (a : Float32Array) (k : nat) (f : num -> num) :
  f NaN = NaN -> get (put a k (f (get a k))) k = f (get a k).
Proof.
  intros Hf. destruct (Nat.lt_ge_cases k (length a)) as [H | H].
  - now apply get_put_eq.
  - unfold get, put. rewrite list_insert_ge by assumption.
    rewrite lookup_ge_None_2 by assumption. simpl. now rewrite Hf.
Qed.

Lemma get_put_add (a : Float32Array) (k : nat) (e : num) :
  get (put a k (get a k + e)) k = get a k + e.
Proof. now apply (get_put_self a k (fun v => v + e)). Qed.

(** The guard and the increments of one pass of [applyExplosion]. *)
Definition explosion_hits (wx wy radius : num) (p : Physics) (i : nat) : bool :=
  let dx := get (positions p) (i * 3) - wx in
  let dy := get (positions p) (i * 3 + 1) - wy in
  let dist := Math_sqrt (dx * dx + dy * dy) in
  (dist <? radius) && (dist >? Fin 0.01).

Definition explosion_push (wx wy force radius : num) (p : Physics) (i : nat)
  : num * num :=
  let dx := get (positions p) (i * 3) - wx in
  let dy := get (positions p) (i * 3 + 1) - wy in
  let dist := Math_sqrt (dx * dx + dy * dy) in
  (dx * (Fin 1 / dist) * (force * (Fin 1 - dist / radius)),
   dy * (Fin 1 / dist) * (force * (Fin 1 - dist / radius))).

Definition implosion_pull (wx wy force radius : num) (p : Physics) (i : nat)
  : num * num :=
  let dx := wx - get (positions p) (i * 3) in
  let dy := wy - get (positions p) (i * 3 + 1) in
  let dist := Math_sqrt (dx * dx + dy * dy) in
  (dx * (Fin 1 / dist) * (force * (Fin 1 - dist / radius)),
   dy * (Fin 1 / dist) * (force * (Fin 1 - dist / radius))).

Definition implosion_hits (wx wy radius : num) (p : Physics) (i : nat) : bool :=
  let dx := wx - get (positions p) (i * 3) in
  let dy := wy - get (positions p) (i * 3 + 1) in
  let dist := Math_sqrt (dx * dx + dy * dy) in
  (dist <? radius) && (dist >? Fin 0.01).

(** What one pass adds to the slot [k] of the velocities. *)
Definition impulse_at (hits : bool) (push : num * num) (i k : nat)
    (v : num) : num :=
  if hits then
    if Nat.eqb k (i * 3) then v + push.1
    else if Nat.eqb k (i * 3 + 1) then v + push.2
    else v
  else v.

Lemma explode_particle_frame wx wy f r p i :
  explode_particle wx wy f r p i =
  set_velocities (velocities (explode_particle wx wy f r p i)) p /\
  length (velocities (explode_particle wx wy f r p i)) = length (velocities p).
Proof.
  unfold explode_particle.
  destruct (_ && _); simpl.
  - split; [reflexivity | now rewrite !length_put].
  - split; [now destruct p | reflexivity].
Qed.

Lemma implode_particle_frame wx wy f r p i :
  implode_particle wx wy f r p i =
  set_velocities (velocities (implode_particle wx wy f r p i)) p /\
  length (velocities (implode_particle wx wy f r p i)) = length (velocities p).
Proof.
  unfold implode_particle.
  destruct (_ && _); simpl.
  - split; [reflexivity | now rewrite !length_put].
  - split; [now destruct p | reflexivity].
Qed.

Lemma explode_particle_velocity wx wy f r p i k :
  get (velocities (explode_particle wx wy f r p i)) k =
  impulse_at (explosion_hits wx wy r p i) (explosion_push wx wy f r p i) i k
    (get (velocities p) k).
Proof.
  unfold explode_particle, impulse_at, explosion_hits, explosion_push.
  destruct (_ && _); [| reflexivity]. cbn [velocities set_velocities fst snd].
  destruct (Nat.eqb_spec k (i * 3)) as [-> | H0].
  - rewrite get_put_ne by lia. apply get_put_add.
  - destruct (Nat.eqb_spec k (i * 3 + 1)) as [-> | H1].
    + rewrite get_put_add. now rewrite get_put_ne by lia.
    + now rewrite !get_put_ne by lia.
Qed.

Lemma implode_particle_velocity wx wy f r p i k :
  get (velocities (implode_particle wx wy f r p i)) k =
  impulse_at (implosion_hits wx wy r p i) (implosion_pull wx wy f r p i) i k
    (get (velocities p) k).
Proof.
  unfold implode_particle, impulse_at, implosion_hits, implosion_pull.
  destruct (_ && _); [| reflexivity]. cbn [velocities set_velocities fst snd].
  destruct (Nat.eqb_spec k (i * 3)) as [-> | H0].
  - rewrite get_put_ne by lia. apply get_put_add.
  - destruct (Nat.eqb_spec k (i * 3 + 1)) as [-> | H1].
    + rewrite get_put_add. now rewrite get_put_ne by lia.
    + now rewrite !get_put_ne by lia.
Qed.

(** The loop of an impulse, for any pass that only adds to the planar
    velocity of its particle and decides from the positions alone. *)
Section ImpulseLoop.

Variable pass : Physics -> nat -> Physics.
Variable hits : Physics -> nat -> bool.
Variable push : Physics -> nat -> num * num.

Hypothesis pass_frame : forall p i,
  pass p i = set_velocities (velocities (pass p i)) p /\
  length (velocities (pass p i)) = length (velocities p).
Hypothesis pass_velocity : forall p i k,
  get (velocities (pass p i)) k =
  impulse_at (hits p i) (push p i) i k (get (velocities p) k).
Hypothesis by_position : forall p q i,
  positions p = positions q -> hits p i = hits q i /\ push p i = push q i.

Lemma impulse_loop_frame (js : list nat) (p : Physics) :
  fold_left pass js p = set_velocities (velocities (fold_left pass js p)) p /\
  length (velocities (fold_left pass js p)) = length (velocities p).
Proof.
  revert p. induction js as [| j js IH]; intros p; simpl.
  - split; [now destruct p | reflexivity].
  - destruct (IH (pass p j)) as [E L]. destruct (pass_frame p j) as [E' L'].
    split; [| congruence].
    remember (fold_left pass js (pass p j)) as q.
    rewrite E. remember (velocities q) as vq.
    rewrite E'. reflexivity.
Qed.

Lemma impulse_loop_positions (js : list nat) (p : Physics) :
  positions (fold_left pass js p) = positions p.
Proof. destruct (impulse_loop_frame js p) as [-> _]. reflexivity. Qed.

Lemma impulse_loop_skip (js : list nat) (p : Physics) (k : nat) :
  (forall j, In j js -> k <> (j * 3)%nat /\ k <> (j * 3 + 1)%nat) ->
  get (velocities (fold_left pass js p)) k = get (velocities p) k.
Proof.
  revert p. induction js as [| j js IH]; intros p Hk; simpl; [reflexivity |].
  rewrite IH by (intros j' Hj'; apply Hk; now right).
  rewrite pass_velocity. unfold impulse_at.
  destruct (Hk j (or_introl eq_refl)) as [H0 H1].
  destruct (hits p j); [| reflexivity].
  destruct (Nat.eqb_spec k (j * 3)); [contradiction |].
  destruct (Nat.eqb_spec k (j * 3 + 1)); [contradiction | reflexivity].
Qed.

Lemma impulse_loop_at (n i k : nat) (p : Physics) :
  (i < n)%nat -> (i * 3 <= k < i * 3 + 3)%nat ->
  get (velocities (fold_left pass (seq 0 n) p)) k =
  impulse_at (hits p i) (push p i) i k (get (velocities p) k).
Proof.
  intros Hi Hk. rewrite (seq_split_at i n Hi), fold_left_app. simpl.
  rewrite impulse_loop_skip by (intros j Hj; apply in_seq in Hj; lia).
  rewrite pass_velocity.
  destruct (by_position (fold_left pass (seq 0 i) p) p i
              (impulse_loop_positions _ _)) as [-> ->].
  now rewrite impulse_loop_skip by (intros j Hj; apply in_seq in Hj; lia).
Qed.

Lemma impulse_loop_z (js : list nat) (i : nat) (p : Physics) :
  get (velocities (fold_left pass js p)) (i * 3 + 2) =
  get (velocities p) (i * 3 + 2).
Proof. apply impulse_loop_skip. intros j _. lia. Qed.

End ImpulseLoop.

Lemma explosion_by_position wx wy f r p q i :
  positions p = positions q ->
  explosion_hits wx wy r p i = explosion_hits wx wy r q i /\
  explosion_push wx wy f r p i = explosion_push wx wy f r q i.
Proof. unfold explosion_hits, explosion_push. now intros ->. Qed.

Lemma implosion_by_position wx wy f r p q i :
  positions p = positions q ->
  implosion_hits wx wy r p i = implosion_hits wx wy r q i /\
  implosion_pull wx wy f r p i = implosion_pull wx wy f r q i.
Proof. unfold implosion_hits, implosion_pull. now intros ->. Qed.

(** [applyExplosion] changes nothing but the velocities, and of particle
    [i] it changes the planar velocity by the push computed from the state
    it was called in. *)
Lemma applyExplosion_spec (x y s : num) (w : World) :
  let wx := x * Fin 1.5 in
  let wy := y * Fin 1.2 in
  let f := Fin 0.08 * s in
  let p := this w in
  let w' := applyExplosion x y s w in
  w' = on_this (set_velocities (velocities (this w'))) w /\
  length (velocities (this w')) = length (velocities p) /\
  (forall i, get (velocities (this w')) (i * 3 + 2)
             = get (velocities p) (i * 3 + 2)) /\
  (forall i k, (i < count p)%nat -> (i * 3 <= k < i * 3 + 3)%nat ->
     get (velocities (this w')) k =
     impulse_at (explosion_hits wx wy (Fin 1.5) p i)
       (explosion_push wx wy f (Fin 1.5) p i) i k (get (velocities p) k)).
Proof.
  intros wx wy f p w'. unfold w', applyExplosion. cbn [this on_this].
  fold wx wy f p.
  pose proof (impulse_loop_frame _ (explode_particle_frame wx wy f (Fin 1.5))
                (seq 0 (count p)) p) as [E L].
  repeat split.
  - unfold on_this. cbn [this]. fold p. now rewrite <- E.
  - exact L.
  - intros i. apply (impulse_loop_z _ _ _ (explode_particle_velocity wx wy f (Fin 1.5))).
  - intros i k Hi Hk.
    apply (impulse_loop_at _ _ _ (explode_particle_frame wx wy f (Fin 1.5))
             (explode_particle_velocity wx wy f (Fin 1.5))
             (explosion_by_position wx wy f (Fin 1.5))); assumption.
Qed.

Lemma applyImplosion_spec (x y s : num) (w : World) :
  let wx := x * Fin 1.5 in
  let wy := y * Fin 1.2 in
  let f := Fin 0.06 * s in
  let p := this w in
  let w' := applyImplosion x y s w in
  w' = on_this (set_velocities (velocities (this w'))) w /\
  length (velocities (this w')) = length (velocities p) /\
  (forall i, get (velocities (this w')) (i * 3 + 2)
             = get (velocities p) (i * 3 + 2)) /\
  (forall i k, (i < count p)%nat -> (i * 3 <= k < i * 3 + 3)%nat ->
     get (velocities (this w')) k =
     impulse_at (implosion_hits wx wy (Fin 2.0) p i)
       (implosion_pull wx wy f (Fin 2.0) p i) i k (get (velocities p) k)).
Proof.
  intros wx wy f p w'. unfold w', applyImplosion. cbn [this on_this].
  fold wx wy f p.
  pose proof (impulse_loop_frame _ (implode_particle_frame wx wy f (Fin 2.0))
                (seq 0 (count p)) p) as [E L].
  repeat split.
  - unfold on_this. cbn [this]. fold p. now rewrite <- E.
  - exact L.
  - intros i. apply (impulse_loop_z _ _ _ (implode_particle_velocity wx wy f (Fin 2.0))).
  - intros i k Hi Hk.
    apply (impulse_loop_at _ _ _ (implode_particle_frame wx wy f (Fin 2.0))
             (implode_particle_velocity wx wy f (Fin 2.0))
             (implosion_by_position wx wy f (Fin 2.0))); assumption.
Qed.

Lemma explosion_hits_finite (p : Physics) (i : nat) (px py wx wy r : R) :
  get (positions p) (i * 3) = Fin px ->
  get (positions p) (i * 3 + 1) = Fin py ->
  explosion_hits (Fin wx) (Fin wy) (Fin r) p i = true <->
  (0.01 < planar_distance px py wx wy < r)%R.
Proof.
  intros Hx Hy. unfold explosion_hits. rewrite Hx, Hy. cbn [nsub nmul nadd].
  rewrite Math_sqrt_Fin by apply sum_sq2_nonneg.
  fold (planar_distance px py wx wy).
  rewrite andb_true_iff. unfold ngt. rewrite !nlt_Fin. tauto.
Qed.

Lemma explosion_push_finite (p : Physics) (i : nat) (px py wx wy f r : R) :
  get (positions p) (i * 3) = Fin px ->
  get (positions p) (i * 3 + 1) = Fin py ->
  let d := planar_distance px py wx wy in
  (0.01 < d < r)%R ->
  explosion_push (Fin wx) (Fin wy) (Fin f) (Fin r) p i =
  (Fin ((px - wx) * (1 / d) * (f * (1 - d / r))),
   Fin ((py - wy) * (1 / d) * (f * (1 - d / r)))).
Proof.
  intros Hx Hy d Hd. unfold explosion_push. rewrite Hx, Hy.
  cbn [nsub nmul nadd].
  rewrite Math_sqrt_Fin by apply sum_sq2_nonneg.
  fold (planar_distance px py wx wy). fold d.
  rewrite !ndiv_Fin by lra. reflexivity.
Qed.

Lemma implosion_hits_finite (p : Physics) (i : nat) (px py wx wy r : R) :
  get (positions p) (i * 3) = Fin px ->
  get (positions p) (i * 3 + 1) = Fin py ->
  implosion_hits (Fin wx) (Fin wy) (Fin r) p i = true <->
  (0.01 < planar_distance wx wy px py < r)%R.
Proof.
  intros Hx Hy. unfold implosion_hits. rewrite Hx, Hy. cbn [nsub nmul nadd].
  rewrite Math_sqrt_Fin by apply sum_sq2_nonneg.
  fold (planar_distance wx wy px py).
  rewrite andb_true_iff. unfold ngt. rewrite !nlt_Fin. tauto.
Qed.

Lemma planar_distance_sym (ax ay bx by_ : R) :
  planar_distance ax ay bx by_ = planar_distance bx by_ ax ay.
Proof. unfold planar_distance. f_equal. ring. Qed.

(** The unit vector from one point of the plane to another. *)
Lemma planar_unit (ax ay bx by_ : R) :
  let d := planar_distance ax ay bx by_ in
  (0 < d)%R ->
  (((ax - bx) / d) * ((ax - bx) / d) + ((ay - by_) / d) * ((ay - by_) / d)
   = 1)%R.
Proof.
  intros d Hd.
  assert (Hsq : (d * d = (ax - bx) * (ax - bx) + (ay - by_) * (ay - by_))%R).
  { unfold d, planar_distance. apply sqrt_sqrt. apply sum_sq2_nonneg. }
  field_simplify_eq; [| lra]. lra.
Qed.

Lemma explosion_misses_finite (p : Physics) (i : nat) (px py wx wy r : R) :
  get (positions p) (i * 3) = Fin px ->
  get (positions p) (i * 3 + 1) = Fin py ->
  ~ (0.01 < planar_distance px py wx wy < r)%R ->
  explosion_hits (Fin wx) (Fin wy) (Fin r) p i = false.
Proof.
  intros Hx Hy Hd.
  destruct (explosion_hits (Fin wx) (Fin wy) (Fin r) p i) eqn:E; [| reflexivity].
  exfalso. apply Hd. now apply (explosion_hits_finite p i px py wx wy r Hx Hy).
Qed.

Lemma implosion_misses_finite (p : Physics) (i : nat) (px py wx wy r : R) :
  get (positions p) (i * 3) = Fin px ->
  get (positions p) (i * 3 + 1) = Fin py ->
  ~ (0.01 < planar_distance wx wy px py < r)%R ->
  implosion_hits (Fin wx) (Fin wy) (Fin r) p i = false.
Proof.
  intros Hx Hy Hd.
  destruct (implosion_hits (Fin wx) (Fin wy) (Fin r) p i) eqn:E; [| reflexivity].
  exfalso. apply Hd. now apply (implosion_hits_finite p i px py wx wy r Hx Hy).
Qed.

(** C6, as the code has it: [applyExplosion(x, y, strength)] adds to the
    velocity of every particle whose planar distance [d] from the scaled
    point (1.5 x, 1.2 y) lies strictly between 0.01 and 1.5 the vector
    0.08 strength (1 - d / 1.5) times the unit vector from that point to the
    particle; for a strength that is not negative this is an increment of
    that magnitude directed away from the point.  At (0, 0), where scaling
    changes nothing, strength 1 and distance 1 give 0.08 (1 - 1 / 1.5). *)
Theorem applyExplosion_increment (x y s : R) (w : World) (i : nat) (px py : R) :
  (i < count (this w))%nat ->
  get (positions (this w)) (i * 3) = Fin px ->
  get (positions (this w)) (i * 3 + 1) = Fin py ->
  let d := planar_distance px py (x * 1.5) (y * 1.2) in
  (0.01 < d < 1.5)%R ->
  let m := (0.08 * s * (1 - d / 1.5))%R in
  let ux := ((px - x * 1.5) / d)%R in
  let uy := ((py - y * 1.2) / d)%R in
  let w' := applyExplosion (Fin x) (Fin y) (Fin s) w in
  get (velocities (this w')) (i * 3)
    = get (velocities (this w)) (i * 3) + Fin (m * ux) /\
  get (velocities (this w')) (i * 3 + 1)
    = get (velocities (this w)) (i * 3 + 1) + Fin (m * uy) /\
  get (velocities (this w')) (i * 3 + 2)
    = get (velocities (this w)) (i * 3 + 2) /\
  (ux * ux + uy * uy = 1)%R /\
  ((0 <= s)%R ->
     (0 <= m)%R /\ sqrt ((m * ux) * (m * ux) + (m * uy) * (m * uy)) = m) /\
  (x = 0%R -> y = 0%R -> s = 1%R -> d = 1%R ->
     m = (0.08 * (1 - 1.0 / 1.5))%R /\
     d = planar_distance px py 0 0).
Proof.
  intros Hi Hx Hy d Hd m ux uy w'.
  destruct (applyExplosion_spec (Fin x) (Fin y) (Fin s) w)
    as (_ & _ & Hz & Hv).
  fold w' in Hz, Hv. cbn [nmul] in Hv.
  assert (Hhit : explosion_hits (Fin (x * 1.5)) (Fin (y * 1.2)) (Fin 1.5)
                   (this w) i = true)
    by now apply (explosion_hits_finite _ _ px py).
  pose proof (explosion_push_finite (this w) i px py (x * 1.5) (y * 1.2)
                (0.08 * s) 1.5 Hx Hy Hd) as Hpush.
  fold d in Hpush.
  assert (Hu : (ux * ux + uy * uy = 1)%R)
    by (apply planar_unit; fold d; lra).
  repeat split.
  - rewrite (Hv i (i * 3)%nat) by lia. rewrite Hhit, Hpush.
    unfold impulse_at. rewrite Nat.eqb_refl. cbn [fst].
    f_equal. apply Fin_eq. unfold m, ux. field. lra.
  - rewrite (Hv i (i * 3 + 1)%nat) by lia. rewrite Hhit, Hpush.
    unfold impulse_at.
    destruct (Nat.eqb_spec (i * 3 + 1) (i * 3)); [lia |].
    rewrite Nat.eqb_refl. cbn [snd].
    f_equal. apply Fin_eq. unfold m, uy. field. lra.
  - apply Hz.
  - exact Hu.
  - unfold m. apply Rmult_le_pos; [lra |].
    lra.
  - replace ((m * ux) * (m * ux) + (m * uy) * (m * uy))%R
      with ((m * m) * (ux * ux + uy * uy))%R by ring.
    rewrite Hu, Rmult_1_r. apply sqrt_square.
    unfold m. apply Rmult_le_pos; [lra |].
    lra.
  - unfold m. subst s. rewrite H2. lra.
  - unfold d. subst x y. f_equal; lra.
Qed.

Lemma applyExplosion_increment_witness :
  let w := sample_world 1 [Fin 1; Fin 0; Fin 0] [Fin 0; Fin 0; Fin 0]
             [Fin 0] (fun _ => 0%R) in
  get (velocities (this (applyExplosion (Fin 0) (Fin 0) (Fin 1) w))) 0
  = Fin 0 + Fin (0.08 * 1 * (1 - planar_distance 1 0 (0 * 1.5) (0 * 1.2) / 1.5)
                 * ((1 - 0 * 1.5) / planar_distance 1 0 (0 * 1.5) (0 * 1.2))).
Proof.
  intros w.
  assert (Hd : planar_distance 1 0 (0 * 1.5) (0 * 1.2) = 1%R).
  { unfold planar_distance.
    replace ((1 - 0 * 1.5) * (1 - 0 * 1.5)
             + (0 - 0 * 1.2) * (0 - 0 * 1.2))%R with (1 * 1)%R by lra.
    apply sqrt_square. lra. }
  refine (proj1 (applyExplosion_increment 0 0 1 w 0 1 0 _ eq_refl eq_refl _)).
  - simpl. lia.
  - rewrite Hd. lra.
Defined.

(** C6, as stated, fails for a point off the origin: [applyExplosion(1, 0, 1)]
    leaves a particle at the origin, at planar distance 1 from (1, 0), as
    it is, because the distance the code measures is the one to the scaled
    point (1.5, 0), which is not below the radius 1.5. *)
Lemma applyExplosion_supplied_counterexample :
  let w := sample_world 1 [Fin 0; Fin 0; Fin 0] [Fin 0; Fin 0; Fin 0]
             [Fin 0] (fun _ => 0%R) in
  let w' := applyExplosion (Fin 1) (Fin 0) (Fin 1) w in
  planar_distance 0 0 1 0 = 1%R /\
  (0.08 * 1 * (1 - 1 / 1.5) <> 0)%R /\
  vel_of (this w') 0 = vel_of (this w) 0.
Proof.
  intros w w'. split; [| split].
  - rewrite planar_distance_sym, planar_distance_axis by lra. lra.
  - lra.
  - destruct (applyExplosion_spec (Fin 1) (Fin 0) (Fin 1) w)
      as (_ & _ & Hz & Hv).
    fold w' in Hz, Hv. cbn [nmul] in Hv.
    assert (Hmiss : explosion_hits (Fin (1 * 1.5)) (Fin (0 * 1.2)) (Fin 1.5)
                      (this w) 0 = false).
    { apply (explosion_misses_finite _ _ 0 0); try reflexivity.
      rewrite planar_distance_sym.
      replace (0 * 1.2)%R with 0%R by lra.
      rewrite planar_distance_axis by lra. lra. }
    unfold vel_of.
    rewrite (Hv 0%nat (0 * 3)%nat), (Hv 0%nat (0 * 3 + 1)%nat), (Hz 0%nat)
      by (simpl; lia).
    rewrite Hmiss. reflexivity.
Qed.

(** ** The population *)

Lemma init_particle_sized (w : World) (i : nat) :
  count (this (init_particle w i)) = count (this w) /\
  length (positions (this (init_particle w i))) = length (positions (this w)) /\
  length (velocities (this (init_particle w i))) = length (velocities (this w)) /\
  length (masses (this (init_particle w i))) = length (masses (this w)) /\
  length (lifetimes (this (init_particle w i))) = length (lifetimes (this w)).
Proof. unfold init_particle. simpl. now rewrite !length_put. Qed.

Lemma initParticles_sized (w : World) :
  count (this (initParticles w)) = count (this w) /\
  (well_sized (this w) -> well_sized (this (initParticles w))).
Proof.
  unfold initParticles. generalize (seq 0 (count (this w))). intros js.
  revert w. induction js as [| j js IH]; intros w; simpl; [tauto |].
  destruct (IH (init_particle w j)) as [Hc Hs].
  destruct (init_particle_sized w j) as (Ec & Ep & Ev & Em & El).
  split; [congruence |].
  intros (?&?&?&?). apply Hs. unfold well_sized.
  rewrite Ec, Ep, Ev, Em, El. tauto.
Qed.

Lemma new_Physics_sized (n : nat) (randoms clock : nat -> R) :
  count (this (new_Physics n randoms clock)) = n /\
  well_sized (this (new_Physics n randoms clock)).
Proof.
  unfold new_Physics.
  match goal with |- context [initParticles ?w0] =>
    destruct (initParticles_sized w0) as [Hc Hs] end.
  split; [exact Hc |]. apply Hs.
  unfold well_sized, new_Float32Array. simpl.
  now rewrite !length_replicate.
Qed.

Lemma run_call_sized (w : World) (c : Call) :
  count (this (run_call w c)) = count (this w) /\
  (well_sized (this w) -> well_sized (this (run_call w c))).
Proof.
  destruct c as [gws hvs dt pfs | x y s | x y s]; cbn [run_call].
  - destruct (update_loop_setup gws hvs dt pfs (seq 0 (count (this w))) w)
      as [Hs _]. fold (update gws hvs dt pfs w) in Hs.
    split; [apply Hs | now apply well_sized_same_setup].
  - destruct (applyExplosion_spec x y s w) as (E & L & _).
    remember (applyExplosion x y s w) as w'.
    rewrite E. unfold well_sized. simpl. rewrite L. tauto.
  - destruct (applyImplosion_spec x y s w) as (E & L & _).
    remember (applyImplosion x y s w) as w'.
    rewrite E. unfold well_sized. simpl. rewrite L. tauto.
Qed.

Lemma run_calls_sized (cs : list Call) (w : World) :
  count (this (run_calls cs w)) = count (this w) /\
  (well_sized (this w) -> well_sized (this (run_calls cs w))).
Proof.
  unfold run_calls. revert w.
  induction cs as [| c cs IH]; intros w; simpl; [tauto |].
  destruct (IH (run_call w c)) as [Hc Hs].
  destruct (run_call_sized w c) as [Hc' Hs'].
  split; [congruence | auto].
Qed.

(** C9: an impulse changes only the x and y velocities: positions, masses,
    lifetimes, the z velocities and the particle count are as before; and
    an object constructed with [n] particles has [n] particles, in arrays
    of the constructor's sizes, after any sequence of [update],
    [applyExplosion] and [applyImplosion] calls. *)
Theorem impulses_change_planar_velocity_only :
  (forall x y s w,
     let w' := applyExplosion x y s w in
     positions (this w') = positions (this w) /\
     masses (this w') = masses (this w) /\
     lifetimes (this w') = lifetimes (this w) /\
     count (this w') = count (this w) /\
     length (velocities (this w')) = length (velocities (this w)) /\
     forall i, get (velocities (this w')) (i * 3 + 2)
               = get (velocities (this w)) (i * 3 + 2)) /\
  (forall x y s w,
     let w' := applyImplosion x y s w in
     positions (this w') = positions (this w) /\
     masses (this w') = masses (this w) /\
     lifetimes (this w') = lifetimes (this w) /\
     count (this w') = count (this w) /\
     length (velocities (this w')) = length (velocities (this w)) /\
     forall i, get (velocities (this w')) (i * 3 + 2)
               = get (velocities (this w)) (i * 3 + 2)) /\
  (forall n randoms clock cs,
     let w' := run_calls cs (new_Physics n randoms clock) in
     count (this w') = n /\ well_sized (this w')).
Proof.
  split; [| split].
  - intros x y s w w'.
    destruct (applyExplosion_spec x y s w) as (E & L & Hz & _).
    fold w' in E, L, Hz. clearbody w'.
    repeat split; try assumption; rewrite E; reflexivity.
  - intros x y s w w'.
    destruct (applyImplosion_spec x y s w) as (E & L & Hz & _).
    fold w' in E, L, Hz. clearbody w'.
    repeat split; try assumption; rewrite E; reflexivity.
  - intros n randoms clock cs w'.
    destruct (run_calls_sized cs (new_Physics n randoms clock)) as [Hc Hs].
    destruct (new_Physics_sized n randoms clock) as [Hn Hw].
    fold w' in Hc, Hs. split; [congruence | auto].
Qed.

(** ** World space *)

Lemma precompute_wells_lookup (gws : list GravityWell)
    (hvs : list HandVelocity) (idx : nat) (g : GravityWell) :
  gws !! idx = Some g ->
  precompute_wells gws hvs !! idx = Some (precompute_well hvs idx g).
Proof.
  intros H. unfold precompute_wells. rewrite list_lookup_imap, H. reflexivity.
Qed.

Lemma well_force_out_of_reach (p : Physics) (i3 : nat) (g minDist : num)
    (a : vec3) (well : Well) (fr px py pz wx wy wz : R) :
  get (positions p) i3 = Fin px ->
  get (positions p) (i3 + 1) = Fin py ->
  get (positions p) (i3 + 2) = Fin pz ->
  well_x well = Fin wx -> well_y well = Fin wy -> well_z well = Fin wz ->
  (fr <= spatial_distance wx wy wz px py pz)%R ->
  well_force p i3 g minDist (Fin fr) a well = a.
Proof.
  intros Hx Hy Hz Wx Wy Wz Hd. unfold well_force.
  rewrite Hx, Hy, Hz, Wx, Wy, Wz. cbn [nsub nmul nadd].
  rewrite Math_sqrt_Fin by apply sum_sq3_nonneg.
  fold (spatial_distance wx wy wz px py pz).
  now rewrite nlt_Fin_false by assumption.
Qed.

(** ** One pass of the loop, seen from its particle *)

Lemma nadd_NaN_l (a : num) : NaN + a = NaN.
Proof. reflexivity. Qed.

Lemma integrate_velocity_view (i : nat) (a : vec3) (dt dr : num) (p : Physics) :
  vel_of (integrate_velocity (i * 3) a dt dr p) i
  = integrated a dt dr (vel_of p i) /\
  positions (integrate_velocity (i * 3) a dt dr p) = positions p /\
  lifetimes (integrate_velocity (i * 3) a dt dr p) = lifetimes p.
Proof.
  split; [| split; reflexivity].
  unfold integrate_velocity, vel_of, integrated.
  cbn [velocities set_velocities fst snd].
  repeat f_equal.
  - rewrite !get_put_ne by lia.
    apply (get_put_self _ _ (fun v => (v + a.1.1 * dt) * dr)). reflexivity.
  - rewrite (get_put_ne _ (i * 3 + 2)) by lia.
    rewrite (get_put_self _ _ (fun v => (v + a.1.2 * dt) * dr)) by reflexivity.
    now rewrite get_put_ne by lia.
  - rewrite (get_put_self _ _ (fun v => (v + a.2 * dt) * dr)) by reflexivity.
    now rewrite !get_put_ne by lia.
Qed.

Lemma clamp_velocity_view (i : nat) (maxV : num) (p : Physics) :
  vel_of (clamp_velocity (i * 3) maxV p) i = clamped maxV (vel_of p i) /\
  positions (clamp_velocity (i * 3) maxV p) = positions p /\
  lifetimes (clamp_velocity (i * 3) maxV p) = lifetimes p.
Proof.
  unfold clamp_velocity, clamped, vel_of. cbn [fst snd].
  set (speed := Math_sqrt _).
  destruct (speed >? maxV); [| auto].
  split; [| split; reflexivity].
  cbn [velocities set_velocities].
  repeat f_equal.
  - rewrite !get_put_ne by lia.
    apply (get_put_self _ _ (fun v => v * (maxV / speed))). reflexivity.
  - rewrite (get_put_ne _ (i * 3 + 2)) by lia.
    rewrite (get_put_self _ _ (fun v => v * (maxV / speed))) by reflexivity.
    now rewrite get_put_ne by lia.
  - rewrite (get_put_self _ _ (fun v => v * (maxV / speed))) by reflexivity.
    now rewrite !get_put_ne by lia.
Qed.

Lemma integrate_position_view (i : nat) (dt : num) (p : Physics) :
  pos_of (integrate_position (i * 3) dt p) i
  = advanced dt (pos_of p i) (vel_of p i) /\
  velocities (integrate_position (i * 3) dt p) = velocities p /\
  lifetimes (integrate_position (i * 3) dt p) = lifetimes p.
Proof.
  split; [| split; reflexivity].
  unfold integrate_position, pos_of, vel_of, advanced.
  cbn [positions velocities set_positions fst snd].
  repeat f_equal.
  - rewrite !get_put_ne by lia.
    apply (get_put_self _ _ (fun v => v + get (velocities p) (i * 3) * dt)).
    reflexivity.
  - rewrite (get_put_ne _ (i * 3 + 2)) by lia.
    rewrite (get_put_self _ _
               (fun v => v + get (velocities p) (i * 3 + 1) * dt))
      by reflexivity.
    now rewrite get_put_ne by lia.
  - rewrite (get_put_self _ _
               (fun v => v + get (velocities p) (i * 3 + 2) * dt))
      by reflexivity.
    now rewrite !get_put_ne by lia.
Qed.

(** The particle after its position is integrated, from the particle
    before and its acceleration. *)
Lemma move_particle_view wells merged pathForces dt g dr maxV minDist fieldR w i :
  let a := fst (acceleration wells merged pathForces g minDist fieldR i w) in
  let wm := move_particle wells merged pathForces dt g dr maxV minDist fieldR
              w i in
  vel_of (this wm) i = clamped maxV (integrated a dt dr (vel_of (this w) i)) /\
  pos_of (this wm) i = advanced dt (pos_of (this w) i) (vel_of (this wm) i) /\
  lifetimes (this wm) = lifetimes (this w).
Proof.
  intros a wm. unfold wm, move_particle. fold a.
  destruct (acceleration_this wells merged pathForces g minDist fieldR i w)
    as [Ht _].
  cbn [this on_this]. rewrite Ht.
  set (p1 := integrate_velocity (i * 3) a dt dr (this w)).
  set (p2 := clamp_velocity (i * 3) maxV p1).
  destruct (integrate_velocity_view i a dt dr (this w)) as (V1 & P1 & L1).
  destruct (clamp_velocity_view i maxV p1) as (V2 & P2 & L2).
  destruct (integrate_position_view i dt p2) as (P3 & V3 & L3).
  fold p1 in V1, P1, L1. fold p2 in V2, P2, L2.
  split; [| split].
  - unfold vel_of at 1. rewrite V3. fold (vel_of p2 i). now rewrite V2, V1.
  - rewrite P3. unfold vel_of at 2. rewrite V3. fold (vel_of p2 i).
    unfold pos_of. now rewrite P2, P1.
  - now rewrite L3, L2, L1.
Qed.

Lemma update_lifetime_view (i : nat) (p : Physics) :
  life_of (update_lifetime i p) i
  = Math_min (Fin 1) (life_of p i + Fin 0.001) /\
  positions (update_lifetime i p) = positions p /\
  velocities (update_lifetime i p) = velocities p.
Proof.
  split; [| split; reflexivity].
  unfold update_lifetime, life_of. cbn [lifetimes set_lifetimes].
  apply (get_put_self _ _ (fun v => Math_min (Fin 1) (v + Fin 0.001))).
  reflexivity.
Qed.

Lemma Math_min_lifetime (l : R) :
  Math_min (Fin 1) (Fin l + Fin 0.001) = Fin (Rmin 1 (l + 0.001)).
Proof.
  cbn [nadd Math_min nlt]. unfold Rmin.
  destruct (Rlt_dec (l + 0.001) 1), (Rle_dec 1 (l + 0.001));
    try reflexivity; lra.
Qed.

(** The particle [respawnParticle] leaves, from the five numbers it draws. *)
Lemma respawnParticle_view (i : nat) (w : World) :
  well_sized (this w) -> (i < count (this w))%nat ->
  let t := fun k => random_tape w (random_calls w + k) in
  let angle := (t 0%nat * PI * 2)%R in
  let radius := (0.1 + t 1%nat * 0.3)%R in
  let w' := respawnParticle i w in
  pos_of (this w') i
  = (Fin (cos angle * radius), Fin (sin angle * radius),
     Fin ((t 2%nat - 0.5) * 0.1)) /\
  vel_of (this w') i
  = (Fin ((t 3%nat - 0.5) * 0.01), Fin ((t 4%nat - 0.5) * 0.01), Fin 0) /\
  life_of (this w') i = Fin 0.
Proof.
  intros (Lp & Lv & _ & Ll) Hi t angle radius w'.
  unfold w', respawnParticle, pos_of, vel_of, life_of, Math_random.
  cbn [this on_this fst snd positions velocities lifetimes set_positions
       set_velocities set_lifetimes random_tape random_calls
       nmul nadd nsub Math_PI Math_cos Math_sin].
  unfold angle, radius, t. cbv beta.
  replace (random_calls w + 0)%nat with (random_calls w) by lia.
  replace (random_calls w + 1)%nat with (S (random_calls w)) by lia.
  replace (random_calls w + 2)%nat with (S (S (random_calls w))) by lia.
  replace (random_calls w + 3)%nat with (S (S (S (random_calls w)))) by lia.
  replace (random_calls w + 4)%nat with (S (S (S (S (random_calls w))))) by lia.
  split; [| split].
  - repeat f_equal.
    + rewrite !get_put_ne by lia. apply get_put_eq. lia.
    + rewrite get_put_ne by lia. apply get_put_eq. rewrite length_put. lia.
    + apply get_put_eq. rewrite !length_put. lia.
  - repeat f_equal.
    + rewrite !get_put_ne by lia. apply get_put_eq. lia.
    + rewrite get_put_ne by lia. apply get_put_eq. rewrite length_put. lia.
    + apply get_put_eq. rewrite !length_put. lia.
  - apply get_put_eq. lia.
Qed.

(** The particle after its whole pass. *)
Lemma update_particle_view wells merged pathForces dt g dr maxV minDist fieldR w i :
  let wm := move_particle wells merged pathForces dt g dr maxV minDist fieldR
              w i in
  let w' := update_particle wells merged pathForces dt g dr maxV minDist fieldR
              w i in
  (escaped i (this wm) = true ->
     pos_of (this w') i = pos_of (this (respawnParticle i wm)) i /\
     vel_of (this w') i = vel_of (this (respawnParticle i wm)) i /\
     life_of (this w') i
     = Math_min (Fin 1)
         (life_of (this (respawnParticle i wm)) i + Fin 0.001)) /\
  (escaped i (this wm) = false ->
     pos_of (this w') i = pos_of (this wm) i /\
     vel_of (this w') i = vel_of (this wm) i /\
     life_of (this w') i
     = Math_min (Fin 1) (life_of (this w) i + Fin 0.001)).
Proof.
  intros wm w'.
  pose proof (move_particle_view wells merged pathForces dt g dr maxV minDist
                fieldR w i) as (_ & _ & Lm).
  fold wm in Lm.
  unfold w', update_particle. fold wm. clear w'. clearbody wm.
  unfold respawn_escaped.
  split; intros ->; cbn [this on_this].
  - destruct (update_lifetime_view i (this (respawnParticle i wm)))
      as (L & P & V).
    unfold pos_of, vel_of. rewrite P, V, L. auto.
  - destruct (update_lifetime_view i (this wm)) as (L & P & V).
    unfold pos_of, vel_of. rewrite P, V, L.
    unfold life_of. rewrite Lm. auto.
Qed.

(** The particle when [update] returns. *)
Lemma update_view gws hvs dt pfs (w : World) (i : nat) :
  (i < count (this w))%nat ->
  let wm := at_boundary_check gws hvs dt pfs w i in
  let w' := update gws hvs dt pfs w in
  (respawns gws hvs dt pfs w i = true ->
     pos_of (this w') i = pos_of (this (respawnParticle i wm)) i /\
     vel_of (this w') i = vel_of (this (respawnParticle i wm)) i /\
     life_of (this w') i
     = Math_min (Fin 1)
         (life_of (this (respawnParticle i wm)) i + Fin 0.001)) /\
  (respawns gws hvs dt pfs w i = false ->
     pos_of (this w') i = pos_of (this wm) i /\
     vel_of (this w') i = vel_of (this wm) i /\
     life_of (this w') i
     = Math_min (Fin 1) (life_of (this w) i + Fin 0.001)).
Proof.
  intros Hi wm w'.
  destruct (update_at_particle gws hvs dt pfs i w Hi)
    as ((P3 & V3 & L3) & (P1 & V1 & L1) & Hs & _).
  fold w' in P3, V3, L3. rewrite P3, V3, L3.
  set (w1 := update_loop gws hvs dt pfs (seq 0 i) w) in *.
  assert (E : update_loop gws hvs dt pfs [i] w1
              = update_particle (precompute_wells gws hvs)
                  (merge_wells (precompute_wells gws hvs)) pfs dt
                  (effective_G (this w)) (drag (this w))
                  (maxVelocity (this w)) (minDistance (this w))
                  (fieldRadius (this w)) w1 i).
  { unfold update_loop at 1. cbn [fold_left].
    destruct Hs as (_&_&HG&Hd&Hm&Hmd&Hf&Hc&Hcf&_).
    unfold effective_G. now rewrite HG, Hd, Hm, Hmd, Hf, Hc, Hcf. }
  rewrite E. unfold respawns. fold wm.
  pose proof (update_particle_view (precompute_wells gws hvs)
                (merge_wells (precompute_wells gws hvs)) pfs dt
                (effective_G (this w)) (drag (this w))
                (maxVelocity (this w)) (minDistance (this w))
                (fieldRadius (this w)) w1 i) as [Hy Hn].
  fold (at_boundary_check gws hvs dt pfs w i) in Hy, Hn. fold wm in Hy, Hn.
  split; intros Hr.
  - exact (Hy Hr).
  - destruct (Hn Hr) as (? & ? & Hl). repeat split; try assumption.
    now rewrite Hl, L1.
Qed.

(** The particle at its boundary check, from the particle [update] was
    called with. *)
Lemma at_boundary_check_view gws hvs dt pfs (w : World) (i : nat) :
  (i < count (this w))%nat ->
  let w1 := update_loop gws hvs dt pfs (seq 0 i) w in
  let a := fst (acceleration (precompute_wells gws hvs)
                  (merge_wells (precompute_wells gws hvs)) pfs
                  (effective_G (this w)) (minDistance (this w))
                  (fieldRadius (this w)) i w1) in
  let wm := at_boundary_check gws hvs dt pfs w i in
  vel_of (this wm) i
  = clamped (maxVelocity (this w))
      (integrated a dt (drag (this w)) (vel_of (this w) i)) /\
  pos_of (this wm) i = advanced dt (pos_of (this w) i) (vel_of (this wm) i) /\
  same_setup (this w) (this wm) /\ same_tapes w wm /\
  same_setup (this w) (this w1) /\
  pos_of (this w1) i = pos_of (this w) i.
Proof.
  intros Hi. cbv zeta. unfold at_boundary_check. cbv zeta.
  destruct (update_at_particle gws hvs dt pfs i w Hi)
    as (_ & (P1 & V1 & L1) & Hs & Ht).
  set (w1 := update_loop gws hvs dt pfs (seq 0 i) w) in *.
  pose proof (move_particle_view (precompute_wells gws hvs)
                (merge_wells (precompute_wells gws hvs)) pfs dt
                (effective_G (this w)) (drag (this w))
                (maxVelocity (this w)) (minDistance (this w))
                (fieldRadius (this w)) w1 i) as (Vm & Pm & _).
  pose proof (move_particle_only (precompute_wells gws hvs)
                (merge_wells (precompute_wells gws hvs)) pfs dt
                (effective_G (this w)) (drag (this w))
                (maxVelocity (this w)) (minDistance (this w))
                (fieldRadius (this w)) w1 i) as ((Sm & _) & Tm).
  set (wm := move_particle _ _ _ _ _ _ _ _ _ w1 i) in *.
  set (a := fst (acceleration _ _ _ _ _ _ i w1)) in *.
  clearbody wm a w1.
  split; [now rewrite Vm, V1 |].
  split; [now rewrite Pm, P1 |].
  split; [eapply same_setup_trans; eassumption |].
  split; [eapply same_tapes_trans; eassumption |].
  split; assumption.
Qed.

(** ** Coasting: no wells, no path points, no chaos *)

Lemma norm3_nonneg (a b c : R) : (0 <= norm3 a b c)%R.
Proof. apply sqrt_pos. Qed.

Lemma norm3_scale (a b c k : R) :
  (0 <= k)%R -> norm3 (a * k) (b * k) (c * k) = (k * norm3 a b c)%R.
Proof.
  intros Hk. unfold norm3.
  replace (a * k * (a * k) + b * k * (b * k) + c * k * (c * k))%R
    with ((k * k) * (a * a + b * b + c * c))%R by ring.
  rewrite sqrt_mult by (try apply sum_sq3_nonneg; nra).
  now rewrite sqrt_square.
Qed.

Lemma norm3_le_bound (a b c m : R) :
  (0 <= m)%R -> (a * a + b * b + c * c <= m * m)%R -> (norm3 a b c <= m)%R.
Proof.
  intros Hm H. unfold norm3. rewrite <- (sqrt_square m Hm).
  apply sqrt_le_1_alt. exact H.
Qed.

Lemma speed_of_finite (p : Physics) (i : nat) (vx vy vz : R) :
  vel_of p i = (Fin vx, Fin vy, Fin vz) ->
  speed_of p i = Fin (norm3 vx vy vz).
Proof.
  unfold vel_of, speed_of. intros H. injection H as -> -> ->.
  cbn [nmul nadd]. apply Math_sqrt_Fin. apply sum_sq3_nonneg.
Qed.

(** The clamp on a finite velocity: untouched up to the bound, rescaled to
    the bound above it. *)
Lemma clamped_finite (mv vx vy vz : R) :
  (0 < mv)%R ->
  (norm3 vx vy vz <= mv ->
     clamped (Fin mv) (Fin vx, Fin vy, Fin vz) = (Fin vx, Fin vy, Fin vz))%R /\
  (mv < norm3 vx vy vz ->
     clamped (Fin mv) (Fin vx, Fin vy, Fin vz)
     = (Fin (vx * (mv / norm3 vx vy vz)), Fin (vy * (mv / norm3 vx vy vz)),
        Fin (vz * (mv / norm3 vx vy vz))))%R.
Proof.
  intros Hmv. unfold clamped. cbn [fst snd nmul nadd].
  rewrite Math_sqrt_Fin by apply sum_sq3_nonneg. fold (norm3 vx vy vz).
  split; intros H.
  - now rewrite ngt_Fin_false.
  - rewrite ngt_Fin_true by assumption.
    rewrite ndiv_Fin by lra. reflexivity.
Qed.

Lemma acceleration_no_forces (g minDist fieldR : num) (i : nat) (w : World) :
  chaosMode (this w) = false ->
  acceleration [] None [] g minDist fieldR i w = (Fin 0, Fin 0, Fin 0, w).
Proof. intros H. unfold acceleration. now rewrite H. Qed.

(** A coasting particle at its boundary check: its velocity was multiplied
    by the drag and clamped, its position advanced by that velocity. *)
Lemma coasting_view hvs (w : World) (i : nat) (t d mv vx vy vz : R) :
  (i < count (this w))%nat ->
  chaosMode (this w) = false ->
  drag (this w) = Fin d -> maxVelocity (this w) = Fin mv ->
  vel_of (this w) i = (Fin vx, Fin vy, Fin vz) ->
  let wm := at_boundary_check [] hvs (Fin t) [] w i in
  vel_of (this wm) i
  = clamped (Fin mv) (Fin (vx * d), Fin (vy * d), Fin (vz * d)) /\
  pos_of (this wm) i
  = advanced (Fin t) (pos_of (this w) i) (vel_of (this wm) i) /\
  same_setup (this w) (this wm) /\ same_tapes w wm.
Proof.
  intros Hi Hc Hd Hm Hv wm.
  destruct (at_boundary_check_view [] hvs (Fin t) [] w i Hi)
    as (V & P & S & T & S1 & _).
  fold wm in V, P, S, T.
  cbn [precompute_wells imap merge_wells] in V.
  rewrite acceleration_no_forces in V
    by (destruct S1 as (_&_&_&_&_&_&_&E&_); now rewrite E).
  cbn [fst] in V. rewrite Hd, Hm, Hv in V.
  split; [| tauto].
  rewrite V. unfold integrated. cbn [fst snd nmul nadd].
  repeat f_equal; lra.
Qed.

Lemma escaped_finite (p : Physics) (i : nat) (x y : R) (z : num) :
  pos_of p i = (Fin x, Fin y, z) ->
  (16 < x * x + y * y -> escaped i p = true)%R /\
  (x * x + y * y <= 16 -> escaped i p = false)%R.
Proof.
  unfold pos_of, escaped. intros H. injection H as -> -> _.
  cbn [nmul nadd]. split; intros H.
  - now apply ngt_Fin_true.
  - now apply ngt_Fin_false.
Qed.

(** A particle [update] respawns: what it is when [update] returns, from
    the five numbers [respawnParticle] drew. *)
Lemma respawned_view gws hvs dt pfs (w : World) (i : nat) :
  well_sized (this w) -> (i < count (this w))%nat ->
  respawns gws hvs dt pfs w i = true ->
  let wm := at_boundary_check gws hvs dt pfs w i in
  let w' := update gws hvs dt pfs w in
  let t := fun k => random_tape w (random_calls wm + k) in
  let angle := (t 0%nat * PI * 2)%R in
  let radius := (0.1 + t 1%nat * 0.3)%R in
  pos_of (this w') i
  = (Fin (cos angle * radius), Fin (sin angle * radius),
     Fin ((t 2%nat - 0.5) * 0.1)) /\
  vel_of (this w') i
  = (Fin ((t 3%nat - 0.5) * 0.01), Fin ((t 4%nat - 0.5) * 0.01), Fin 0) /\
  life_of (this (respawnParticle i wm)) i = Fin 0 /\
  life_of (this w') i = Fin 0.001.
Proof.
  intros Hw Hi Hr wm w' t angle radius.
  destruct (update_view gws hvs dt pfs w i Hi) as [Hy _].
  destruct (Hy Hr) as (P & V & L). fold wm w' in P, V, L.
  destruct (at_boundary_check_view gws hvs dt pfs w i Hi)
    as (_ & _ & S & (T & _) & _).
  fold wm in S, T.
  assert (Hwm : well_sized (this wm)) by now apply (well_sized_same_setup _ _ S).
  assert (Him : (i < count (this wm))%nat)
    by (destruct S as (E & _); now rewrite E).
  destruct (respawnParticle_view i wm Hwm Him) as (P' & V' & L').
  rewrite T in P', V'.
  rewrite P, V, L, L'. repeat split; try assumption.
  rewrite Math_min_lifetime. apply Fin_eq.
  unfold Rmin. destruct (Rle_dec 1 (0 + 0.001)); lra.
Qed.

(** ** Respawn at the boundary *)

Lemma polar_disc (a r m : R) :
  (0 <= r <= m)%R -> (m * m <= 16)%R ->
  (cos a * r * (cos a * r) + sin a * r * (sin a * r) <= 16)%R.
Proof.
  intros Hr Hm. pose proof (sin2_cos2 a) as H. unfold Rsqr in H.
  replace (cos a * r * (cos a * r) + sin a * r * (sin a * r))%R
    with ((r * r) * (sin a * sin a + cos a * cos a))%R by ring.
  rewrite H. nra.
Qed.

Lemma escaping_world_escapes :
  escaped 0 (this (at_boundary_check [] [] (Fin 1) [] escaping_world 0)) = true.
Proof.
  assert (Hi : (0 < count (this escaping_world))%nat) by (simpl; lia).
  destruct (coasting_view [] escaping_world 0 1 0.995 0.08 0.001 0 0
              Hi eq_refl eq_refl eq_refl eq_refl) as (V & P & _).
  destruct (clamped_finite 0.08 (0.001 * 0.995) (0 * 0.995) (0 * 0.995))
    as [Hle _]; [lra |].
  rewrite Hle in V by (apply norm3_le_bound; lra).
  rewrite V in P.
  apply (escaped_finite _ 0 _ _ _ P). lra.
Qed.

Lemma escaping_world_respawns :
  respawns [] [] (Fin 1) [] escaping_world 0 = true.
Proof. unfold respawns. exact escaping_world_escapes. Qed.

(** Boundary recycling: a particle whose position, once integrated, has
    x * x + y * y > 16 is respawned before [update] returns.  From the five
    numbers r0, ..., r4 that [Math.random()] returns next, its position is
    then (cos a * r, sin a * r, (r2 - 0.5) * 0.1) for the angle
    a = r0 * PI * 2 and the radius r = 0.1 + r1 * 0.3, its velocity
    ((r3 - 0.5) * 0.01, (r4 - 0.5) * 0.01, 0), and its lifetime 0.001: reset
    to 0 by the respawn and advanced by the step of the same pass.  With
    [Math.random()] in [0, 1) the new position passes the boundary test. *)
Theorem respawn_on_escape gws hvs dt pfs (w : World) (i : nat) :
  well_sized (this w) -> (i < count (this w))%nat ->
  escaped i (this (at_boundary_check gws hvs dt pfs w i)) = true ->
  let wm := at_boundary_check gws hvs dt pfs w i in
  let w' := update gws hvs dt pfs w in
  let r := fun k => random_tape w (random_calls wm + k) in
  let angle := (r 0%nat * PI * 2)%R in
  let radius := (0.1 + r 1%nat * 0.3)%R in
  pos_of (this w') i
  = (Fin (cos angle * radius), Fin (sin angle * radius),
     Fin ((r 2%nat - 0.5) * 0.1)) /\
  vel_of (this w') i
  = (Fin ((r 3%nat - 0.5) * 0.01), Fin ((r 4%nat - 0.5) * 0.01), Fin 0) /\
  life_of (this (respawnParticle i wm)) i = Fin 0 /\
  life_of (this w') i = Fin 0.001 /\
  (random_in_range w -> escaped i (this w') = false).
Proof.
  intros Hw Hi He wm w' r angle radius.
  destruct (respawned_view gws hvs dt pfs w i Hw Hi He) as (P & V & L0 & L).
  fold wm w' in P, V, L0, L. fold r in P, V. fold angle radius in P.
  repeat split; try assumption.
  intros Hr. apply (escaped_finite _ _ _ _ _ P).
  pose proof (Hr (random_calls wm + 1)%nat) as H1.
  assert (Hrad : (0.1 <= radius < 0.4)%R) by (unfold radius, r; lra).
  apply (polar_disc _ _ 0.4); lra.
Qed.

Lemma respawn_on_escape_witness :
  let w' := update [] [] (Fin 1) [] escaping_world in
  pos_of (this w') 0
  = (Fin (cos (0 * PI * 2) * (0.1 + 0 * 0.3)),
     Fin (sin (0 * PI * 2) * (0.1 + 0 * 0.3)), Fin ((0 - 0.5) * 0.1)) /\
  vel_of (this w') 0 = (Fin ((0 - 0.5) * 0.01), Fin ((0 - 0.5) * 0.01), Fin 0) /\
  life_of (this w') 0 = Fin 0.001 /\
  escaped 0 (this w') = false.
Proof.
  intros w'.
  destruct (respawn_on_escape [] [] (Fin 1) [] escaping_world 0)
    as (P & V & _ & L & E).
  - unfold well_sized. simpl. repeat split; reflexivity.
  - simpl. lia.
  - exact escaping_world_escapes.
  - repeat split; try assumption.
    apply E. intros k. simpl. lra.
Defined.

(** ** Decay while coasting *)

(** Decay: with no wells, no path points and chaos mode
    off, a call of [update] with a finite [dt] multiplies the velocity of
    every particle it does not respawn by the drag and clamps it at
    [maxVelocity]; for a drag in [0, 1] the speed of such a particle
    becomes min (drag * speed, 0.08) and so does not increase. *)
Theorem coasting_speed_decays hvs (w : World) (i : nat) (t d vx vy vz : R) :
  (i < count (this w))%nat ->
  chaosMode (this w) = false ->
  drag (this w) = Fin d -> (0 <= d <= 1)%R ->
  maxVelocity (this w) = Fin 0.08 ->
  vel_of (this w) i = (Fin vx, Fin vy, Fin vz) ->
  respawns [] hvs (Fin t) [] w i = false ->
  let w' := update [] hvs (Fin t) [] w in
  let s := norm3 vx vy vz in
  speed_of (this w) i = Fin s /\
  speed_of (this w') i = Fin (Rmin (d * s) 0.08) /\
  (Rmin (d * s) 0.08 <= s)%R /\
  ((d * s <= 0.08)%R ->
     vel_of (this w') i = (Fin (vx * d), Fin (vy * d), Fin (vz * d))).
Proof.
  intros Hi Hc Hd Hd01 Hm Hv Hr w' s.
  destruct (update_view [] hvs (Fin t) [] w i Hi) as [_ Hn].
  destruct (Hn Hr) as (_ & V & _). fold w' in V.
  destruct (coasting_view hvs w i t d 0.08 vx vy vz Hi Hc Hd Hm Hv)
    as (Vm & _).
  rewrite Vm in V. clear Vm Hn.
  pose proof (norm3_scale vx vy vz d (proj1 Hd01)) as Hs. fold s in Hs.
  pose proof (norm3_nonneg vx vy vz) as Hs0. fold s in Hs0.
  destruct (clamped_finite 0.08 (vx * d) (vy * d) (vz * d)) as [Hle Hgt];
    [lra |].
  rewrite Hs in Hle, Hgt.
  split; [now apply speed_of_finite |].
  assert (Hmin : (Rmin (d * s) 0.08 <= s)%R).
  { eapply Rle_trans; [apply Rmin_l | nra]. }
  destruct (Rle_lt_dec (d * s) 0.08) as [Hcase | Hcase].
  - rewrite (Hle Hcase) in V.
    split; [| split; [exact Hmin | intros _; exact V]].
    rewrite (speed_of_finite _ _ _ _ _ V), Hs.
    apply Fin_eq. now rewrite Rmin_left.
  - rewrite (Hgt Hcase) in V.
    split; [| split; [exact Hmin | intros H; lra]].
    rewrite (speed_of_finite _ _ _ _ _ V).
    apply Fin_eq. rewrite Rmin_right by lra.
    replace (vx * d * (0.08 / (d * s)))%R with (vx * (0.08 / s))%R
      by (field; nra).
    replace (vy * d * (0.08 / (d * s)))%R with (vy * (0.08 / s))%R
      by (field; nra).
    replace (vz * d * (0.08 / (d * s)))%R with (vz * (0.08 / s))%R
      by (field; nra).
    rewrite norm3_scale.
    + fold s. field. nra.
    + apply Rlt_le, Rdiv_lt_0_compat; nra.
Qed.

Lemma coasting_world_stays :
  respawns [] [] (Fin 1) [] coasting_world 0 = false.
Proof.
  assert (Hi : (0 < count (this coasting_world))%nat) by (simpl; lia).
  destruct (coasting_view [] coasting_world 0 1 0.995 0.08 0.01 0 0
              Hi eq_refl eq_refl eq_refl eq_refl) as (V & P & _).
  destruct (clamped_finite 0.08 (0.01 * 0.995) (0 * 0.995) (0 * 0.995))
    as [Hle _]; [lra |].
  rewrite Hle in V by (apply norm3_le_bound; lra).
  rewrite V in P. unfold respawns.
  apply (escaped_finite _ 0 _ _ _ P). lra.
Qed.

Lemma coasting_speed_decays_witness :
  speed_of (this coasting_world) 0 = Fin (norm3 0.01 0 0) /\
  speed_of (this (update [] [] (Fin 1) [] coasting_world)) 0
  = Fin (Rmin (0.995 * norm3 0.01 0 0) 0.08).
Proof.
  destruct (coasting_speed_decays [] coasting_world 0 1 0.995 0.01 0 0)
    as (H0 & H1 & _); try reflexivity.
  - simpl. lia.
  - lra.
  - exact coasting_world_stays.
  - split; assumption.
Defined.

(** ** Decay over repeated frames *)

Lemma update_setup gws hvs dt pfs (w : World) :
  same_setup (this w) (this (update gws hvs dt pfs w)) /\
  same_tapes w (update gws hvs dt pfs w).
Proof. unfold update. apply update_loop_setup. Qed.

(** One coasting frame for a particle it does not respawn: the velocity
    stays a triple of numbers, of norm min (drag * speed, 0.08). *)
Lemma coasting_step (w : World) (i : nat) (t d vx vy vz : R) :
  (i < count (this w))%nat ->
  chaosMode (this w) = false ->
  drag (this w) = Fin d -> (0 <= d <= 1)%R ->
  maxVelocity (this w) = Fin 0.08 ->
  vel_of (this w) i = (Fin vx, Fin vy, Fin vz) ->
  respawns [] [] (Fin t) [] w i = false ->
  let w' := update [] [] (Fin t) [] w in
  let s := norm3 vx vy vz in
  same_setup (this w) (this w') /\
  exists a b c : R,
    vel_of (this w') i = (Fin a, Fin b, Fin c) /\
    norm3 a b c = Rmin (d * s) 0.08 /\
    ((d * s <= 0.08)%R -> a = (vx * d)%R /\ b = (vy * d)%R /\ c = (vz * d)%R).
Proof.
  intros Hi Hc Hd Hd01 Hm Hv Hr w' s.
  split; [exact (proj1 (update_setup [] [] (Fin t) [] w)) |].
  destruct (update_view [] [] (Fin t) [] w i Hi) as [_ Hn].
  destruct (Hn Hr) as (_ & V & _). fold w' in V.
  destruct (coasting_view [] w i t d 0.08 vx vy vz Hi Hc Hd Hm Hv)
    as (Vm & _).
  rewrite Vm in V. clear Vm Hn.
  pose proof (norm3_scale vx vy vz d (proj1 Hd01)) as Hs. fold s in Hs.
  pose proof (norm3_nonneg vx vy vz) as Hs0. fold s in Hs0.
  destruct (clamped_finite 0.08 (vx * d) (vy * d) (vz * d)) as [Hle Hgt];
    [lra |].
  rewrite Hs in Hle, Hgt.
  destruct (Rle_lt_dec (d * s) 0.08) as [Hcase | Hcase].
  - rewrite (Hle Hcase) in V. eexists _, _, _.
    split; [exact V |]. split; [| auto].
    rewrite Hs. now rewrite Rmin_left.
  - rewrite (Hgt Hcase) in V. eexists _, _, _.
    split; [exact V |]. split; [| intros H; lra].
    rewrite Rmin_right by lra.
    replace (vx * d * (0.08 / (d * s)))%R with (vx * (0.08 / s))%R
      by (field; nra).
    replace (vy * d * (0.08 / (d * s)))%R with (vy * (0.08 / s))%R
      by (field; nra).
    replace (vz * d * (0.08 / (d * s)))%R with (vz * (0.08 / s))%R
      by (field; nra).
    rewrite norm3_scale.
    + fold s. field. nra.
    + apply Rlt_le, Rdiv_lt_0_compat; nra.
Qed.

(** The particle after [n] coasting frames that did not respawn it. *)
Lemma coast_view (w : World) (i : nat) (t d vx vy vz : R) (n : nat) :
  (i < count (this w))%nat ->
  chaosMode (this w) = false ->
  drag (this w) = Fin d -> (0 <= d <= 1)%R ->
  maxVelocity (this w) = Fin 0.08 ->
  vel_of (this w) i = (Fin vx, Fin vy, Fin vz) ->
  (forall k, (k < n)%nat ->
     respawns [] [] (Fin t) [] (coast k (Fin t) w) i = false) ->
  let s0 := norm3 vx vy vz in
  same_setup (this w) (this (coast n (Fin t) w)) /\
  exists a b c : R,
    vel_of (this (coast n (Fin t) w)) i = (Fin a, Fin b, Fin c) /\
    (norm3 a b c <= s0)%R /\
    ((s0 <= 0.08)%R -> norm3 a b c = (d ^ n * s0)%R).
Proof.
  intros Hi Hc Hd Hd01 Hm Hv Hr s0.
  pose proof (norm3_nonneg vx vy vz) as Hs0. fold s0 in Hs0.
  induction n as [| n IH]; cbn [coast].
  - split; [apply same_setup_refl |]. exists vx, vy, vz.
    split; [exact Hv |]. split; [fold s0; lra |]. intros _. fold s0. simpl. lra.
  - destruct IH as (Hset & a & b & c & V & Hle & Heq);
      [intros k Hk; apply Hr; lia |].
    specialize (Hr n (Nat.lt_succ_diag_r n)).
    set (wn := coast n (Fin t) w) in *. clearbody wn.
    assert (Hin : (i < count (this wn))%nat)
      by (destruct Hset as (E & _); now rewrite E).
    assert (Hcn : chaosMode (this wn) = false)
      by (destruct Hset as (_&_&_&_&_&_&_&E&_); now rewrite E).
    assert (Hdn : drag (this wn) = Fin d)
      by (destruct Hset as (_&_&_&E&_); now rewrite E).
    assert (Hmn : maxVelocity (this wn) = Fin 0.08)
      by (destruct Hset as (_&_&_&_&E&_); now rewrite E).
    destruct (coasting_step wn i t d a b c Hin Hcn Hdn Hd01 Hmn V Hr)
      as (Hset' & a' & b' & c' & V' & Hn' & _).
    split; [eapply same_setup_trans; eassumption |].
    exists a', b', c'. split; [exact V' |].
    pose proof (norm3_nonneg a b c) as Hs.
    assert (Hstep : (Rmin (d * norm3 a b c) 0.08 <= norm3 a b c)%R).
    { eapply Rle_trans; [apply Rmin_l | nra]. }
    split; [lra |].
    intros H0. rewrite Hn', (Heq H0).
    assert (Hp : (0 <= d ^ n <= 1)%R).
    { split; [apply pow_le; lra |].
      rewrite <- (pow1 n). apply pow_incr. lra. }
    rewrite Rmin_left by (simpl; nra).
    simpl. ring.
Qed.

(** C7, as the code has it: with no wells, no path points and chaos mode
    off, every frame multiplies the velocity of a particle it does not
    respawn by the drag and clamps it at [maxVelocity], no acceleration
    added; so over repeated frames, for as long as the particle is not
    respawned, its speed does not increase: after each frame it is
    min (drag * speed, 0.08), and from a speed of at most 0.08 it is
    drag ^ n * speed after [n] frames, decaying towards 0. *)
Theorem coasting_decay (w : World) (i : nat) (t d vx vy vz : R) (n : nat) :
  (i < count (this w))%nat ->
  chaosMode (this w) = false ->
  drag (this w) = Fin d -> (0 <= d <= 1)%R ->
  maxVelocity (this w) = Fin 0.08 ->
  vel_of (this w) i = (Fin vx, Fin vy, Fin vz) ->
  (forall k, (k <= n)%nat ->
     respawns [] [] (Fin t) [] (coast k (Fin t) w) i = false) ->
  let s0 := norm3 vx vy vz in
  exists a b c s' : R,
    let s := norm3 a b c in
    speed_of (this w) i = Fin s0 /\
    vel_of (this (coast n (Fin t) w)) i = (Fin a, Fin b, Fin c) /\
    speed_of (this (coast n (Fin t) w)) i = Fin s /\
    speed_of (this (coast (S n) (Fin t) w)) i = Fin s' /\
    s' = Rmin (d * s) 0.08 /\ (s' <= s)%R /\ (s <= s0)%R /\
    ((d * s <= 0.08)%R ->
       vel_of (this (coast (S n) (Fin t) w)) i
       = (Fin (a * d), Fin (b * d), Fin (c * d))) /\
    ((s0 <= 0.08)%R -> s = (d ^ n * s0)%R /\ s' = (d ^ S n * s0)%R).
Proof.
  intros Hi Hc Hd Hd01 Hm Hv Hr s0.
  destruct (coast_view w i t d vx vy vz n Hi Hc Hd Hd01 Hm Hv)
    as (Hset & a & b & c & V & Hle & Heq); [intros k Hk; apply Hr; lia |].
  destruct (coast_view w i t d vx vy vz (S n) Hi Hc Hd Hd01 Hm Hv)
    as (_ & a1 & b1 & c1 & V1 & _ & Heq1); [intros k Hk; apply Hr; lia |].
  specialize (Hr n (Nat.le_refl n)). cbn [coast] in V1 |- *.
  set (wn := coast n (Fin t) w) in *. clearbody wn.
  assert (Hin : (i < count (this wn))%nat)
    by (destruct Hset as (E & _); now rewrite E).
  assert (Hcn : chaosMode (this wn) = false)
    by (destruct Hset as (_&_&_&_&_&_&_&E&_); now rewrite E).
  assert (Hdn : drag (this wn) = Fin d)
    by (destruct Hset as (_&_&_&E&_); now rewrite E).
  assert (Hmn : maxVelocity (this wn) = Fin 0.08)
    by (destruct Hset as (_&_&_&_&E&_); now rewrite E).
  destruct (coasting_step wn i t d a b c Hin Hcn Hdn Hd01 Hmn V Hr)
    as (_ & a' & b' & c' & V' & Hn' & Hv').
  rewrite V1 in V'. injection V' as <- <- <-.
  pose proof (norm3_nonneg a b c) as Hs.
  exists a, b, c, (norm3 a1 b1 c1). cbv zeta.
  split; [now apply speed_of_finite |].
  split; [exact V |].
  split; [now apply speed_of_finite |].
  split; [now apply speed_of_finite |].
  split; [exact Hn' |].
  split; [rewrite Hn'; eapply Rle_trans; [apply Rmin_l | nra] |].
  split; [exact Hle |].
  split.
  - intros H. destruct (Hv' H) as (-> & -> & ->). exact V1.
  - intros H0. split; [now apply Heq | now apply Heq1].
Qed.

(** The coasting particle is not respawned in its second frame either. *)
Lemma coasting_world_stays_twice :
  respawns [] [] (Fin 1) [] (coast 1 (Fin 1) coasting_world) 0 = false.
Proof.
  cbn [coast].
  assert (Hi : (0 < count (this coasting_world))%nat) by (simpl; lia).
  destruct (update_view [] [] (Fin 1) [] coasting_world 0 Hi) as [_ Hn].
  destruct (Hn coasting_world_stays) as (P1 & V1 & _).
  destruct (coasting_view [] coasting_world 0 1 0.995 0.08 0.01 0 0
              Hi eq_refl eq_refl eq_refl eq_refl) as (Vm & Pm & _).
  destruct (clamped_finite 0.08 (0.01 * 0.995) (0 * 0.995) (0 * 0.995))
    as [Hle _]; [lra |].
  rewrite Hle in Vm by (apply norm3_le_bound; lra).
  rewrite Vm in Pm. rewrite Pm in P1. rewrite Vm in V1. clear Vm Pm Hn.
  destruct (update_setup [] [] (Fin 1) [] coasting_world) as [Hset _].
  set (w1 := update [] [] (Fin 1) [] coasting_world) in *. clearbody w1.
  assert (Hi1 : (0 < count (this w1))%nat)
    by (destruct Hset as (E & _); rewrite E; simpl; lia).
  assert (Hc1 : chaosMode (this w1) = false)
    by (destruct Hset as (_&_&_&_&_&_&_&E&_); now rewrite E).
  assert (Hd1 : drag (this w1) = Fin 0.995)
    by (destruct Hset as (_&_&_&E&_); now rewrite E).
  assert (Hm1 : maxVelocity (this w1) = Fin 0.08)
    by (destruct Hset as (_&_&_&_&E&_); now rewrite E).
  destruct (coasting_view [] w1 0 1 0.995 0.08 _ _ _ Hi1 Hc1 Hd1 Hm1 V1)
    as (V2 & P2 & _).
  destruct (clamped_finite 0.08 (0.01 * 0.995 * 0.995) (0 * 0.995 * 0.995)
              (0 * 0.995 * 0.995)) as [Hle2 _]; [lra |].
  rewrite Hle2 in V2 by (apply norm3_le_bound; lra).
  rewrite V2, P1 in P2. unfold respawns.
  apply (escaped_finite _ 0 _ _ _ P2). unfold advanced. cbn [fst snd]. lra.
Qed.

Lemma coasting_decay_witness :
  exists s s' : R,
    speed_of (this (coast 1 (Fin 1) coasting_world)) 0 = Fin s /\
    speed_of (this (coast 2 (Fin 1) coasting_world)) 0 = Fin s' /\
    s' = Rmin (0.995 * s) 0.08 /\ (s' <= s)%R.
Proof.
  destruct (coasting_decay coasting_world 0 1 0.995 0.01 0 0 1)
    as (a & b & c & s' & _ & _ & H1 & H2 & E & Hle & _); try reflexivity.
  - simpl. lia.
  - lra.
  - intros k Hk. destruct k as [| [| k]]; [| | lia].
    + exact coasting_world_stays.
    + exact coasting_world_stays_twice.
  - exists (norm3 a b c), s'. repeat split; assumption.
Defined.

(** C7, as stated, fails at the boundary: a particle drifting out of the
    disc of radius 4 with speed 0.001, in a frame with no wells, no path
    points and chaos mode off, is respawned with the velocity
    (-0.005, -0.005, 0) when [Math.random()] returns 0, and its speed has
    increased. *)
Lemma coasting_respawn_counterexample :
  let w := escaping_world in
  let w' := update [] [] (Fin 1) [] w in
  chaosMode (this w) = false /\ drag (this w) = Fin 0.995 /\
  speed_of (this w) 0 = Fin (norm3 0.001 0 0) /\
  speed_of (this w') 0
  = Fin (norm3 ((0 - 0.5) * 0.01) ((0 - 0.5) * 0.01) 0) /\
  (norm3 0.001 0 0 < norm3 ((0 - 0.5) * 0.01) ((0 - 0.5) * 0.01) 0)%R.
Proof.
  intros w w'. split; [reflexivity |]. split; [reflexivity |].
  split; [now apply speed_of_finite |]. split.
  - apply speed_of_finite.
    assert (Hw : well_sized (this w))
      by (unfold well_sized; simpl; repeat split; reflexivity).
    assert (Hi : (0 < count (this w))%nat) by (simpl; lia).
    destruct (respawned_view [] [] (Fin 1) [] w 0 Hw Hi
                escaping_world_respawns) as (_ & V & _).
    exact V.
  - unfold norm3. apply sqrt_lt_1_alt. lra.
Qed.

(** ** Lifetimes *)

(** The lifetime [update] leaves. *)
Lemma update_life_of gws hvs dt pfs (w : World) (i : nat) :
  well_sized (this w) -> (i < count (this w))%nat ->
  life_of (this (update gws hvs dt pfs w)) i
  = if respawns gws hvs dt pfs w i then Fin 0.001
    else Math_min (Fin 1) (life_of (this w) i + Fin 0.001).
Proof.
  intros Hw Hi. destruct (respawns gws hvs dt pfs w i) eqn:Hr.
  - now destruct (respawned_view gws hvs dt pfs w i Hw Hi Hr) as (_ & _ & _ & L).
  - destruct (update_view gws hvs dt pfs w i Hi) as [_ Hn].
    now destruct (Hn Hr) as (_ & _ & L).
Qed.

(** A call of [update] advances the lifetime of a particle it does not
    respawn by 0.001, saturating at 1, and leaves a respawned particle with
    lifetime 0.001: the respawn resets it to 0 and the step of the same
    pass is added.  A lifetime in [0, 1] stays there. *)
Theorem update_lifetime_step gws hvs dt pfs (w : World) (i : nat) (l : R) :
  well_sized (this w) -> (i < count (this w))%nat ->
  life_of (this w) i = Fin l -> (0 <= l <= 1)%R ->
  let w' := update gws hvs dt pfs w in
  exists l' : R,
    life_of (this w') i = Fin l' /\ (0 < l' <= 1)%R /\
    (respawns gws hvs dt pfs w i = false -> l' = Rmin 1 (l + 0.001)) /\
    (respawns gws hvs dt pfs w i = true -> l' = 0.001%R).
Proof.
  intros Hw Hi Hl Hl01 w'.
  pose proof (update_life_of gws hvs dt pfs w i Hw Hi) as L. fold w' in L.
  destruct (respawns gws hvs dt pfs w i).
  - exists 0.001%R.
    repeat split; try assumption; try lra; try discriminate.
  - rewrite Hl, Math_min_lifetime in L.
    exists (Rmin 1 (l + 0.001)). split; [exact L |].
    unfold Rmin. destruct (Rle_dec 1 (l + 0.001)); repeat split;
      try lra; try discriminate.
Qed.

Lemma update_lifetime_step_witness :
  exists l' : R,
    life_of (this (update [] [] (Fin 1) [] coasting_world)) 0 = Fin l' /\
    l' = Rmin 1 (0.5 + 0.001).
Proof.
  destruct (update_lifetime_step [] [] (Fin 1) [] coasting_world 0 0.5)
    as (l' & L & _ & Hn & _).
  - unfold well_sized. simpl. repeat split; reflexivity.
  - simpl. lia.
  - reflexivity.
  - lra.
  - exists l'. split; [exact L | apply Hn; exact coasting_world_stays].
Defined.

(** ** The singularity at a well *)

Lemma ngt_NaN_l (m : num) : (NaN >? m) = false.
Proof. now destruct m. Qed.

Lemma well_force_NaN_stays p i3 g minDist fieldR well :
  well_force p i3 g minDist fieldR (NaN, NaN, NaN) well = (NaN, NaN, NaN).
Proof.
  unfold well_force. cbn [fst snd].
  destruct (_ <? fieldR); [| reflexivity].
  destruct (_ && _); reflexivity.
Qed.

Lemma path_force_NaN_stays p i3 now point :
  path_force p i3 now (NaN, NaN, NaN) point = (NaN, NaN, NaN).
Proof.
  unfold path_force. cbn [fst snd].
  destruct (_ <? Fin 1); [| reflexivity].
  destruct (_ && _); reflexivity.
Qed.

Lemma fold_well_force_NaN p i3 g minDist fieldR wells :
  fold_left (well_force p i3 g minDist fieldR) wells (NaN, NaN, NaN)
  = (NaN, NaN, NaN).
Proof.
  induction wells as [| well wells IH]; [reflexivity |].
  cbn [fold_left]. now rewrite well_force_NaN_stays.
Qed.

Lemma fold_path_force_NaN p i3 now points :
  fold_left (path_force p i3 now) points (NaN, NaN, NaN) = (NaN, NaN, NaN).
Proof.
  induction points as [| point points IH]; [reflexivity |].
  cbn [fold_left]. now rewrite path_force_NaN_stays.
Qed.

(** The softening floors the distance of the force but not the one the
    direction is divided by: on the well itself that division is 1 / 0 and
    the direction 0 * Infinity. *)
Lemma well_force_at_well p i g minDist fieldR a well :
  coincides p i well -> (Fin 0 <? fieldR) = true ->
  well_force p (i * 3) g minDist fieldR a well = (NaN, NaN, NaN).
Proof.
  intros (x & y & z & P & Wx & Wy & Wz) Hf.
  unfold pos_of in P. injection P as Px Py Pz.
  unfold well_force. rewrite Px, Py, Pz, Wx, Wy, Wz.
  cbn [nsub]. cbn [nmul nadd].
  rewrite Math_sqrt_Fin by apply sum_sq3_nonneg.
  replace (sqrt ((x - x) * (x - x) + (y - y) * (y - y) + (z - z) * (z - z)))
    with 0%R
    by (replace ((x - x) * (x - x) + (y - y) * (y - y) + (z - z) * (z - z))%R
          with 0%R by ring; now rewrite sqrt_0).
  rewrite Hf. rewrite ndiv_zero by lra.
  set (force := _ / _). set (direction := if attractMode p then _ else _).
  assert (E : forall u : R, u = 0%R -> scale_inf u PInf = NaN).
  { intros u ->. exact nmul_zero_PInf. }
  cbn [nmul]. rewrite !E by lra. cbn [nmul]. rewrite !nadd_NaN_r.
  destruct (_ && _); reflexivity.
Qed.

Lemma fold_well_force_at_well p i g minDist fieldR wells a well :
  In well wells -> coincides p i well -> (Fin 0 <? fieldR) = true ->
  fold_left (well_force p (i * 3) g minDist fieldR) wells a = (NaN, NaN, NaN).
Proof.
  intros Hin Hc Hf. revert a.
  induction wells as [| w0 wells IH]; intros a; [destruct Hin |].
  cbn [fold_left]. destruct Hin as [-> | Hin].
  - rewrite well_force_at_well by assumption. apply fold_well_force_NaN.
  - now apply IH.
Qed.

Lemma acceleration_at_well wells merged pfs g minDist fieldR i w well :
  In well (match merged with Some m => [m] | None => wells end) ->
  coincides (this w) i well -> (Fin 0 <? fieldR) = true ->
  fst (acceleration wells merged pfs g minDist fieldR i w) = (NaN, NaN, NaN).
Proof.
  intros Hin Hc Hf. unfold acceleration.
  rewrite (fold_well_force_at_well _ _ _ _ _ _ _ well Hin Hc Hf).
  destruct pfs as [| pt pfs].
  - destruct (chaosMode (this w)); reflexivity.
  - cbn [fst snd]. rewrite fold_path_force_NaN.
    destruct (chaosMode (this w)); reflexivity.
Qed.

Lemma integrated_NaN dt dr v :
  integrated (NaN, NaN, NaN) dt dr v = (NaN, NaN, NaN).
Proof.
  unfold integrated. cbn [fst snd]. cbn [nmul]. now rewrite !nadd_NaN_r.
Qed.

Lemma clamped_NaN maxV : clamped maxV (NaN, NaN, NaN) = (NaN, NaN, NaN).
Proof.
  unfold clamped. cbn [fst snd nmul nadd Math_sqrt]. now rewrite ngt_NaN_l.
Qed.

Lemma escaped_NaN_x (p : Physics) (i : nat) :
  get (positions p) (i * 3) = NaN -> escaped i p = false.
Proof. intros H. unfold escaped. rewrite H. cbn [nmul nadd]. apply ngt_NaN_l. Qed.

Lemma escaped_NaN_y (p : Physics) (i : nat) :
  get (positions p) (i * 3 + 1) = NaN -> escaped i p = false.
Proof.
  intros H. unfold escaped. rewrite H. cbn [nmul].
  rewrite nadd_NaN_r. apply ngt_NaN_l.
Qed.

(** The singularity: a particle that sits exactly on an effective well when
    [update] is called (with a positive field radius) gets a NaN
    acceleration; its velocity and position are NaN when [update] returns,
    its speed is NaN, and the boundary check does not respawn it. *)
Theorem particle_at_well_is_lost gws hvs dt pfs (w : World) (i : nat)
    (well : Well) :
  (i < count (this w))%nat ->
  In well (effective_wells gws hvs) ->
  coincides (this w) i well ->
  (Fin 0 <? fieldRadius (this w)) = true ->
  let w' := update gws hvs dt pfs w in
  vel_of (this w') i = (NaN, NaN, NaN) /\
  pos_of (this w') i = (NaN, NaN, NaN) /\
  speed_of (this w') i = NaN /\
  respawns gws hvs dt pfs w i = false.
Proof.
  intros Hi Hin Hc Hf w'.
  destruct (at_boundary_check_view gws hvs dt pfs w i Hi)
    as (V & P & _ & _ & _ & P1).
  rewrite acceleration_at_well with (well := well) in V.
  - rewrite integrated_NaN, clamped_NaN in V. rewrite V in P.
    assert (Pm : pos_of (this (at_boundary_check gws hvs dt pfs w i)) i
                 = (NaN, NaN, NaN)).
    { rewrite P. unfold advanced. cbn [fst snd nmul]. now rewrite !nadd_NaN_r. }
    assert (Hr : respawns gws hvs dt pfs w i = false).
    { unfold respawns. apply escaped_NaN_x.
      unfold pos_of in Pm. now injection Pm. }
    destruct (update_view gws hvs dt pfs w i Hi) as [_ Hn].
    destruct (Hn Hr) as (P' & V' & _). fold w' in P', V'.
    rewrite P', V', Pm, V. repeat split; try assumption.
    unfold speed_of. unfold vel_of in V', V. rewrite V in V'.
    injection V' as -> -> ->. reflexivity.
  - exact Hin.
  - destruct Hc as (x & y & z & Hp & Hw). exists x, y, z.
    split; [now rewrite P1 | exact Hw].
  - exact Hf.
Qed.

(** ** Construction *)

Lemma init_particle_view (w : World) (i : nat) :
  well_sized (this w) -> (i < count (this w))%nat ->
  seeded (this (init_particle w i)) i (random_tape w) (random_calls w) /\
  random_calls (init_particle w i) = (random_calls w + 7)%nat /\
  random_tape (init_particle w i) = random_tape w.
Proof.
  destruct w as [[n ps vs acs ms ls cG cd cmv cmd cfr cm cf am] rt rc ct cc].
  unfold well_sized. cbn [this count positions velocities masses lifetimes].
  intros (Lp & Lv & Lm & Ll) Hi.
  lazy [seeded init_particle pos_of vel_of life_of Math_random
        this on_this fst snd positions velocities masses lifetimes
        set_positions set_velocities set_masses set_lifetimes
        random_tape random_calls nmul nadd nsub Math_PI Math_cos Math_sin].
  replace (rc + 1)%nat with (S rc) by lia.
  replace (rc + 2)%nat with (S (S rc)) by lia.
  replace (rc + 3)%nat with (S (S (S rc))) by lia.
  replace (rc + 4)%nat with (S (S (S (S rc)))) by lia.
  replace (rc + 5)%nat with (S (S (S (S (S rc))))) by lia.
  replace (rc + 6)%nat with (S (S (S (S (S (S rc)))))) by lia.
  split; [| split; [lia | reflexivity]].
  split; [| split; [| split]].
  - repeat f_equal.
    + rewrite !get_put_ne by lia. apply get_put_eq. lia.
    + rewrite get_put_ne by lia. apply get_put_eq. rewrite length_put. lia.
    + apply get_put_eq. rewrite !length_put. lia.
  - repeat f_equal.
    + rewrite !get_put_ne by lia. apply get_put_eq. lia.
    + rewrite get_put_ne by lia. apply get_put_eq. rewrite length_put. lia.
    + apply get_put_eq. rewrite !length_put. lia.
  - apply get_put_eq. lia.
  - apply get_put_eq. lia.
Qed.

(** [init_particle] writes the slots of its particle and nothing else. *)
Lemma init_particle_shape (w : World) (i : nat) :
  exists x y z vx vy vz m l : num,
    this (init_particle w i)
    = set_lifetimes (put (lifetimes (this w)) i l)
        (set_masses (put (masses (this w)) i m)
           (set_velocities
              (put (put (put (velocities (this w)) (i * 3) vx)
                      (i * 3 + 1) vy) (i * 3 + 2) vz)
              (set_positions
                 (put (put (put (positions (this w)) (i * 3) x)
                         (i * 3 + 1) y) (i * 3 + 2) z)
                 (this w)))).
Proof. unfold init_particle. cbv zeta. repeat eexists. Qed.

Lemma init_particle_other (w : World) (i j : nat) :
  i <> j ->
  pos_of (this (init_particle w j)) i = pos_of (this w) i /\
  vel_of (this (init_particle w j)) i = vel_of (this w) i /\
  get (masses (this (init_particle w j))) i = get (masses (this w)) i /\
  life_of (this (init_particle w j)) i = life_of (this w) i.
Proof.
  intros H.
  destruct (init_particle_shape w j) as (x & y & z & vx & vy & vz & m & l & E).
  rewrite E. unfold pos_of, vel_of, life_of.
  cbn [positions velocities masses lifetimes
       set_positions set_velocities set_masses set_lifetimes].
  now rewrite !get_put_ne by lia.
Qed.

Lemma init_particle_config (w : World) (i : nat) :
  G (this (init_particle w i)) = G (this w) /\
  drag (this (init_particle w i)) = drag (this w) /\
  maxVelocity (this (init_particle w i)) = maxVelocity (this w) /\
  minDistance (this (init_particle w i)) = minDistance (this w) /\
  fieldRadius (this (init_particle w i)) = fieldRadius (this w) /\
  chaosMode (this (init_particle w i)) = chaosMode (this w) /\
  chaosFactor (this (init_particle w i)) = chaosFactor (this w) /\
  attractMode (this (init_particle w i)) = attractMode (this w).
Proof.
  destruct (init_particle_shape w i) as (x & y & z & vx & vy & vz & m & l & E).
  rewrite E. cbn. tauto.
Qed.

Lemma seeded_other (p q : Physics) (i : nat) (tape : nat -> R) (base : nat) :
  pos_of q i = pos_of p i -> vel_of q i = vel_of p i ->
  get (masses q) i = get (masses p) i -> life_of q i = life_of p i ->
  seeded p i tape base -> seeded q i tape base.
Proof. unfold seeded. intros -> -> -> ->. auto. Qed.

(** The loop of [initParticles] over the particles [a], ..., [a + m - 1]. *)
Lemma init_loop_view (m a : nat) (w : World) :
  well_sized (this w) -> (a + m <= count (this w))%nat ->
  let w' := fold_left init_particle (seq a m) w in
  random_calls w' = (random_calls w + 7 * m)%nat /\
  random_tape w' = random_tape w /\
  (forall i, (a <= i < a + m)%nat ->
     seeded (this w') i (random_tape w) (random_calls w + 7 * (i - a))) /\
  (forall i, (i < a)%nat ->
     pos_of (this w') i = pos_of (this w) i /\
     vel_of (this w') i = vel_of (this w) i /\
     get (masses (this w')) i = get (masses (this w)) i /\
     life_of (this w') i = life_of (this w) i).
Proof.
  revert a w. induction m as [| m IH]; intros a w Hw Ha; cbn [seq fold_left].
  - cbv zeta. split; [lia |]. split; [reflexivity |].
    split; [intros i Hi; lia | auto].
  - destruct (init_particle_view w a Hw ltac:(lia)) as (Sa & Ra & Ta).
    destruct (init_particle_sized w a) as (Ec & Ep & Ev & Em & El).
    assert (Hw1 : well_sized (this (init_particle w a))).
    { destruct Hw as (?&?&?&?). unfold well_sized.
      rewrite Ec, Ep, Ev, Em, El. tauto. }
    destruct (IH (S a) (init_particle w a) Hw1 ltac:(rewrite Ec; lia))
      as (R1 & T1 & S1 & O1).
    pose proof (fun i H => init_particle_other w i a H) as Oa.
    set (w1 := init_particle w a) in *. clearbody w1.
    cbv zeta. split; [lia |]. split; [congruence |]. split.
    + intros i Hi. destruct (Nat.eq_dec i a) as [-> | Hne].
      * destruct (O1 a ltac:(lia)) as (P & V & M & L).
        replace (random_calls w + 7 * (a - a))%nat with (random_calls w)
          by lia.
        now apply (seeded_other (this w1)).
      * specialize (S1 i ltac:(lia)). rewrite Ta, Ra in S1.
        replace (random_calls w + 7 * (i - a))%nat
          with (random_calls w + 7 + 7 * (i - S a))%nat by lia.
        exact S1.
    + intros i Hi. destruct (O1 i ltac:(lia)) as (P & V & M & L).
      destruct (Oa i ltac:(lia)) as (P' & V' & M' & L').
      rewrite P, V, M, L. auto.
Qed.

Lemma initParticles_config (w : World) :
  G (this (initParticles w)) = G (this w) /\
  drag (this (initParticles w)) = drag (this w) /\
  maxVelocity (this (initParticles w)) = maxVelocity (this w) /\
  minDistance (this (initParticles w)) = minDistance (this w) /\
  fieldRadius (this (initParticles w)) = fieldRadius (this w) /\
  chaosMode (this (initParticles w)) = chaosMode (this w) /\
  chaosFactor (this (initParticles w)) = chaosFactor (this w) /\
  attractMode (this (initParticles w)) = attractMode (this w).
Proof.
  unfold initParticles. generalize (seq 0 (count (this w))). intros js.
  revert w. induction js as [| j js IH]; intros w; cbn [fold_left]; [tauto |].
  destruct (IH (init_particle w j)) as (?&?&?&?&?&?&?&?).
  destruct (init_particle_config w j) as (?&?&?&?&?&?&?&?).
  repeat split; congruence.
Qed.

(** What the constructor builds: particle [i] is seeded from the random
    numbers 7 i, ..., 7 i + 6, the constants are the tuned ones, and 7 n
    random numbers were drawn. *)
Lemma new_Physics_view (n : nat) (randoms clock : nat -> R) :
  let w := new_Physics n randoms clock in
  (forall i, (i < n)%nat -> seeded (this w) i randoms (7 * i)) /\
  random_calls w = (7 * n)%nat /\ random_tape w = randoms /\
  G (this w) = Fin 0.00015 /\ drag (this w) = Fin 0.995 /\
  maxVelocity (this w) = Fin 0.08 /\ minDistance (this w) = Fin 0.05 /\
  fieldRadius (this w) = Fin 2.5 /\ chaosMode (this w) = false /\
  chaosFactor (this w) = Fin 1 /\ attractMode (this w) = true.
Proof.
  unfold new_Physics.
  match goal with |- context [initParticles ?w0] => set (w0' := w0) end.
  assert (Hw : well_sized (this w0')).
  { unfold w0', well_sized, new_Float32Array. simpl.
    now rewrite !length_replicate. }
  assert (Hc : count (this w0') = n) by reflexivity.
  destruct (init_loop_view n 0 w0' Hw ltac:(rewrite Hc; lia))
    as (R1 & T1 & S1 & _).
  destruct (initParticles_config w0') as (?&?&?&?&?&?&?&?).
  unfold initParticles in *. rewrite Hc in *.
  cbv zeta. split; [| split; [exact R1 | split; [exact T1 | tauto]]].
  intros i Hi. specialize (S1 i ltac:(lia)).
  replace (random_calls w0' + 7 * (i - 0))%nat with (7 * i)%nat in S1
    by (simpl; lia).
  exact S1.
Qed.

(** A freshly constructed object: particle [i] is seeded from the seven
    numbers r0, ..., r6 that [Math.random()] returns from its call 7 i on.
    Its position is (cos a * r, sin a * r * 0.8, 0) for the angle
    a = r0 * PI * 2 and the radius r = r1 * 1.5, its velocity
    ((r2 - 0.5) * 0.001, (r3 - 0.5) * 0.001, (r4 - 0.5) * 0.0002), its mass
    0.5 + r5 * 0.5 and its lifetime r6.  With [Math.random()] in [0, 1) the
    particle lies in the square |x|, |y| <= 1.5 and passes the boundary
    test, no velocity component exceeds 0.001 in magnitude, the mass is in
    [0.5, 1] and the lifetime in [0, 1]. *)
Theorem new_Physics_seeds (n : nat) (randoms clock : nat -> R) (i : nat) :
  (i < n)%nat ->
  let p := this (new_Physics n randoms clock) in
  let angle := (randoms (7 * i)%nat * PI * 2)%R in
  let radius := (randoms (7 * i + 1)%nat * 1.5)%R in
  let x := (cos angle * radius)%R in
  let y := (sin angle * radius * 0.8)%R in
  let vx := ((randoms (7 * i + 2)%nat - 0.5) * 0.001)%R in
  let vy := ((randoms (7 * i + 3)%nat - 0.5) * 0.001)%R in
  let vz := ((randoms (7 * i + 4)%nat - 0.5) * 0.0002)%R in
  let m := (0.5 + randoms (7 * i + 5)%nat * 0.5)%R in
  let l := randoms (7 * i + 6)%nat in
  pos_of p i = (Fin x, Fin y, Fin 0) /\
  vel_of p i = (Fin vx, Fin vy, Fin vz) /\
  get (masses p) i = Fin m /\
  life_of p i = Fin l /\
  ((forall k, (0 <= randoms k < 1)%R) ->
     (Rabs x <= 1.5 /\ Rabs y <= 1.5)%R /\ escaped i p = false /\
     (Rabs vx <= 0.001 /\ Rabs vy <= 0.001 /\ Rabs vz <= 0.001)%R /\
     (0.5 <= m <= 1)%R /\ (0 <= l <= 1)%R).
Proof.
  intros Hi p. cbv zeta.
  destruct (new_Physics_view n randoms clock) as (S1 & _).
  destruct (S1 i Hi) as (P & V & M & L). fold p in P, V, M, L.
  split; [exact P |]. split; [exact V |]. split; [exact M |].
  split; [exact L |]. intros Hr.
  pose proof (Hr (7 * i + 1)%nat) as H1.
  pose proof (Hr (7 * i + 2)%nat) as H2. pose proof (Hr (7 * i + 3)%nat) as H3.
  pose proof (Hr (7 * i + 4)%nat) as H4. pose proof (Hr (7 * i + 5)%nat) as H5.
  pose proof (Hr (7 * i + 6)%nat) as H6.
  pose proof (COS_bound (randoms (7 * i)%nat * PI * 2)) as Hc.
  pose proof (SIN_bound (randoms (7 * i)%nat * PI * 2)) as Hs.
  set (c := cos (randoms (7 * i)%nat * PI * 2)) in *.
  set (s := sin (randoms (7 * i)%nat * PI * 2)) in *.
  set (radius := (randoms (7 * i + 1)%nat * 1.5)%R) in *.
  assert (Hrad : (0 <= radius < 1.5)%R) by (unfold radius; lra).
  clearbody c s radius.
  assert (Hx : (-1.5 <= c * radius <= 1.5)%R) by nra.
  assert (Hy : (-1.5 <= s * radius * 0.8 <= 1.5)%R) by nra.
  set (x := (c * radius)%R) in *. set (y := (s * radius * 0.8)%R) in *.
  clearbody x y.
  split; [split; apply Rabs_le; lra |].
  split; [apply (escaped_finite _ _ _ _ _ P); nra |].
  split; [repeat split; apply Rabs_le; lra |].
  lra.
Qed.

Lemma new_Physics_seeds_witness :
  let p := this (new_Physics 2 (fun _ => 0.25%R) (fun _ => 0%R)) in
  pos_of p 1
  = (Fin (cos (0.25 * PI * 2) * (0.25 * 1.5)),
     Fin (sin (0.25 * PI * 2) * (0.25 * 1.5) * 0.8), Fin 0) /\
  get (masses p) 1 = Fin (0.5 + 0.25 * 0.5) /\
  escaped 1 p = false.
Proof.
  intros p.
  destruct (new_Physics_seeds 2 (fun _ => 0.25%R) (fun _ => 0%R) 1)
    as (P & _ & M & _ & B); [lia |].
  split; [exact P |]. split; [exact M |].
  apply B. intros k. lra.
Defined.

Lemma particle_at_well_is_lost_witness :
  let w := new_Physics 1 (fun _ => 0%R) (fun _ => 0%R) in
  let hand := mkGravityWell (Fin 0) (Fin 0) (Fin 0) (Fin 1) in
  vel_of (this (update [hand] [] (Fin 1) [] w)) 0 = (NaN, NaN, NaN) /\
  pos_of (this (update [hand] [] (Fin 1) [] w)) 0 = (NaN, NaN, NaN).
Proof.
  intros w hand.
  destruct (new_Physics_view 1 (fun _ => 0%R) (fun _ => 0%R))
    as (S1 & _ & _ & _ & _ & _ & _ & Hf & _).
  destruct (new_Physics_sized 1 (fun _ => 0%R) (fun _ => 0%R)) as [Hc _].
  fold w in S1, Hf, Hc.
  destruct (S1 0%nat ltac:(lia)) as (P & _).
  destruct (particle_at_well_is_lost [hand] [] (Fin 1) [] w 0
              (precompute_well [] 0 hand)) as (V' & P' & _).
  - rewrite Hc. lia.
  - left. reflexivity.
  - exists 0%R, 0%R, 0%R. split.
    + rewrite P. repeat f_equal; lra.
    + cbn. repeat split; apply Fin_eq; lra.
  - rewrite Hf. apply nlt_Fin_true. lra.
  - split; assumption.
Defined.

(** ** What the calls keep *)

Lemma run_call_masses (w : World) (c : Call) :
  masses (this (run_call w c)) = masses (this w).
Proof.
  destruct c as [gws hvs dt pfs | x y s | x y s]; cbn [run_call].
  - destruct (update_loop_setup gws hvs dt pfs (seq 0 (count (this w))) w)
      as [(_ & Hm & _) _]. exact Hm.
  - destruct (applyExplosion_spec x y s w) as (E & _).
    remember (applyExplosion x y s w) as w'. now rewrite E.
  - destruct (applyImplosion_spec x y s w) as (E & _).
    remember (applyImplosion x y s w) as w'. now rewrite E.
Qed.

Lemma run_call_lifetimes (w : World) (c : Call) :
  well_sized (this w) -> lifetimes_in_range (this w) ->
  lifetimes_in_range (this (run_call w c)).
Proof.
  intros Hw Hl.
  destruct c as [gws hvs dt pfs | x y s | x y s]; cbn [run_call].
  - intros i Hi.
    destruct (update_loop_setup gws hvs dt pfs (seq 0 (count (this w))) w)
      as [(Hc & _) _]. fold (update gws hvs dt pfs w) in Hc.
    rewrite Hc in Hi. destruct (Hl i Hi) as (l & L & Hl01).
    rewrite (update_life_of gws hvs dt pfs w i Hw Hi).
    destruct (respawns gws hvs dt pfs w i).
    + exists 0.001%R. split; [reflexivity | lra].
    + rewrite L, Math_min_lifetime. eexists. split; [reflexivity |].
      unfold Rmin. destruct (Rle_dec 1 (l + 0.001)); lra.
  - destruct (applyExplosion_spec x y s w) as (E & _).
    remember (applyExplosion x y s w) as w'. rewrite E. exact Hl.
  - destruct (applyImplosion_spec x y s w) as (E & _).
    remember (applyImplosion x y s w) as w'. rewrite E. exact Hl.
Qed.

(** From the constructor on, through any sequence of [update],
    [applyExplosion] and [applyImplosion] calls, every lifetime is a number
    of [0, 1] and the masses are the ones the constructor drew. *)
Theorem lifetimes_and_masses_kept (n : nat) (randoms clock : nat -> R)
    (cs : list Call) :
  (forall k, (0 <= randoms k < 1)%R) ->
  let w0 := new_Physics n randoms clock in
  let w := run_calls cs w0 in
  lifetimes_in_range (this w) /\ masses (this w) = masses (this w0).
Proof.
  intros Hr w0 w.
  assert (H0 : well_sized (this w0) /\ lifetimes_in_range (this w0)).
  { split; [apply new_Physics_sized |].
    intros i Hi.
    destruct (new_Physics_sized n randoms clock) as [Hc _].
    fold w0 in Hc. rewrite Hc in Hi.
    destruct (new_Physics_view n randoms clock) as (S1 & _).
    destruct (S1 i Hi) as (_ & _ & _ & L). fold w0 in L.
    eexists. split; [exact L |].
    pose proof (Hr (7 * i + 6)%nat). lra. }
  unfold w, run_calls. clearbody w0. clear w.
  revert w0 H0. induction cs as [| c cs IH]; intros w0 [Hw Hl];
    cbn [fold_left]; [auto |].
  destruct (IH (run_call w0 c)) as [Hl' Hm'].
  - split; [now apply run_call_sized | now apply run_call_lifetimes].
  - split; [exact Hl' | now rewrite Hm', run_call_masses].
Qed.

Lemma lifetimes_and_masses_kept_witness :
  let w0 := new_Physics 1 (fun _ => 0.5%R) (fun _ => 0%R) in
  let w := run_calls
             [CallUpdate [] [] (Fin 1) [];
              CallExplosion (Fin 0) (Fin 0) (Fin 1.5)] w0 in
  lifetimes_in_range (this w) /\ masses (this w) = masses (this w0).
Proof.
  apply (lifetimes_and_masses_kept 1 (fun _ => 0.5%R) (fun _ => 0%R)).
  intros k. lra.
Defined.

(** ** The lifetime of a particle *)

Lemma run_calls_lifetimes (cs : list Call) (w : World) :
  well_sized (this w) -> lifetimes_in_range (this w) ->
  well_sized (this (run_calls cs w)) /\
  lifetimes_in_range (this (run_calls cs w)) /\
  count (this (run_calls cs w)) = count (this w).
Proof.
  unfold run_calls. revert w.
  induction cs as [| c cs IH]; intros w Hw Hl; cbn [fold_left]; [auto |].
  destruct (run_call_sized w c) as [Hc Hs].
  destruct (IH (run_call w c)) as (Hw' & Hl' & Hc');
    [now apply Hs | now apply run_call_lifetimes |].
  split; [exact Hw' | split; [exact Hl' | congruence]].
Qed.

(** C8, as the code has it: from the constructor on, through any sequence
    of [update], [applyExplosion] and [applyImplosion] calls, every
    lifetime is a number of [0, 1]; a call of [update] advances the
    lifetime of a particle it does not respawn by 0.001, saturating at 1,
    and leaves a particle it respawns with the lifetime 0.001, because the
    step of the frame is added after the respawn has reset the lifetime to
    0; the impulses leave the lifetimes alone. *)
Theorem lifetime_law (n : nat) (randoms clock : nat -> R) (cs : list Call) :
  (forall k, (0 <= randoms k < 1)%R) ->
  let w := run_calls cs (new_Physics n randoms clock) in
  lifetimes_in_range (this w) /\
  (forall gws hvs dt pfs i, (i < n)%nat ->
     exists l l' : R,
       life_of (this w) i = Fin l /\
       life_of (this (update gws hvs dt pfs w)) i = Fin l' /\
       (0 <= l <= 1)%R /\ (0 <= l' <= 1)%R /\
       (respawns gws hvs dt pfs w i = false -> l' = Rmin 1 (l + 0.001)) /\
       (respawns gws hvs dt pfs w i = true ->
          life_of (this (respawnParticle i
                           (at_boundary_check gws hvs dt pfs w i))) i = Fin 0
          /\ l' = 0.001%R)) /\
  (forall x y s,
     lifetimes (this (applyExplosion x y s w)) = lifetimes (this w) /\
     lifetimes (this (applyImplosion x y s w)) = lifetimes (this w)).
Proof.
  intros Hr w.
  assert (H0 : well_sized (this (new_Physics n randoms clock)) /\
               lifetimes_in_range (this (new_Physics n randoms clock))).
  { split; [apply new_Physics_sized |]. intros i Hi.
    destruct (new_Physics_sized n randoms clock) as [Hc _].
    rewrite Hc in Hi.
    destruct (new_Physics_view n randoms clock) as (S1 & _).
    destruct (S1 i Hi) as (_ & _ & _ & L).
    eexists. split; [exact L |].
    pose proof (Hr (7 * i + 6)%nat). lra. }
  destruct H0 as [Hw0 Hl0].
  destruct (run_calls_lifetimes cs _ Hw0 Hl0) as (Hw & Hl & Hc).
  destruct (new_Physics_sized n randoms clock) as [Hn _].
  fold w in Hw, Hl, Hc. rewrite Hn in Hc. clearbody w.
  split; [exact Hl |]. split.
  - intros gws hvs dt pfs i Hi. rewrite <- Hc in Hi.
    destruct (Hl i Hi) as (l & L & Hl01).
    pose proof (update_life_of gws hvs dt pfs w i Hw Hi) as L'.
    destruct (respawns gws hvs dt pfs w i) eqn:Hres.
    + destruct (respawned_view gws hvs dt pfs w i Hw Hi Hres)
        as (_ & _ & L0 & _).
      exists l, 0.001%R.
      repeat split; try assumption; try lra; try discriminate.
    + rewrite L, Math_min_lifetime in L'.
      exists l, (Rmin 1 (l + 0.001)). split; [exact L |].
      split; [exact L' |].
      unfold Rmin. destruct (Rle_dec 1 (l + 0.001)); repeat split;
        try lra; try discriminate.
  - intros x y s. split.
    + destruct (applyExplosion_spec x y s w) as (E & _).
      remember (applyExplosion x y s w) as w'. now rewrite E.
    + destruct (applyImplosion_spec x y s w) as (E & _).
      remember (applyImplosion x y s w) as w'. now rewrite E.
Qed.

Lemma lifetime_law_witness :
  let w := run_calls [CallUpdate [] [] (Fin 1) [];
                      CallImplosion (Fin 0) (Fin 0) (Fin 1)]
             (new_Physics 2 (fun _ => 0.25%R) (fun _ => 0%R)) in
  lifetimes_in_range (this w) /\
  exists l l' : R,
    life_of (this w) 1 = Fin l /\
    life_of (this (update [] [] (Fin 1) [] w)) 1 = Fin l' /\
    (0 <= l' <= 1)%R.
Proof.
  intros w.
  destruct (lifetime_law 2 (fun _ => 0.25%R) (fun _ => 0%R)
              [CallUpdate [] [] (Fin 1) [];
               CallImplosion (Fin 0) (Fin 0) (Fin 1)])
    as (Hl & Hstep & _); [intros k; lra |].
  split; [exact Hl |].
  destruct (Hstep [] [] (Fin 1) [] 1%nat) as (l & l' & L & L' & _ & B & _);
    [lia |].
  exists l, l'. repeat split; try assumption; apply B.
Defined.

(** C8, as stated, fails for a respawned particle: the particle that leaves
    the disc in [escaping_world] is respawned by [update], which resets its
    lifetime to 0, and ends the call with the lifetime 0.001, not 0. *)
Lemma respawned_lifetime_counterexample :
  let w := escaping_world in
  let w' := update [] [] (Fin 1) [] w in
  respawns [] [] (Fin 1) [] w 0 = true /\
  life_of (this w') 0 = Fin 0.001 /\
  life_of (this w') 0 <> Fin 0.
Proof.
  intros w w'.
  assert (Hw : well_sized (this w))
    by (unfold well_sized; simpl; repeat split; reflexivity).
  assert (Hi : (0 < count (this w))%nat) by (simpl; lia).
  destruct (respawned_view [] [] (Fin 1) [] w 0 Hw Hi
              escaping_world_respawns) as (_ & _ & _ & L).
  fold w' in L.
  split; [exact escaping_world_respawns |]. split; [exact L |].
  rewrite L. intros H. injection H. lra.
Qed.

(** ** A lost particle stays lost *)

Lemma clamped_lost_x maxV b c : clamped maxV (NaN, b, c) = (NaN, b, c).
Proof.
  unfold clamped. cbn [fst snd nmul nadd Math_sqrt]. now rewrite ngt_NaN_l.
Qed.

Lemma clamped_lost_y maxV a c : clamped maxV (a, NaN, c) = (a, NaN, c).
Proof.
  unfold clamped. cbn [fst snd]. cbn [nmul]. rewrite nadd_NaN_r.
  cbn [nadd Math_sqrt]. now rewrite ngt_NaN_l.
Qed.

Lemma speed_of_lost (p : Physics) (i : nat) : lost p i -> speed_of p i = NaN.
Proof.
  unfold speed_of. intros [H | H]; rewrite H; cbn [nmul].
  - reflexivity.
  - now rewrite nadd_NaN_r.
Qed.

Lemma update_keeps_lost gws hvs dt pfs (w : World) (i : nat) :
  (i < count (this w))%nat -> lost (this w) i ->
  lost (this (update gws hvs dt pfs w)) i /\
  respawns gws hvs dt pfs w i = false.
Proof.
  intros Hi Hl.
  destruct (at_boundary_check_view gws hvs dt pfs w i Hi)
    as (V & P & _).
  destruct (update_view gws hvs dt pfs w i Hi) as [_ Hn].
  unfold respawns in *.
  set (wm := at_boundary_check gws hvs dt pfs w i) in *.
  set (a := fst (acceleration _ _ _ _ _ _ _ _)) in *.
  clearbody wm a.
  unfold integrated in V. unfold vel_of at 2 3 4 in V. cbn [fst snd] in V.
  unfold advanced in P. unfold pos_of at 2 3 4 in P. cbn [fst snd] in P.
  destruct Hl as [H | H]; rewrite H in V; cbn [nadd nmul] in V.
  - rewrite clamped_lost_x in V. rewrite V in P. cbn [fst snd nmul] in P.
    rewrite nadd_NaN_r in P.
    assert (Hr : escaped i (this wm) = false).
    { apply escaped_NaN_x. unfold pos_of in P. now injection P. }
    split; [| exact Hr]. destruct (Hn Hr) as (_ & V' & _).
    left. rewrite V in V'. unfold vel_of in V'. now injection V'.
  - rewrite clamped_lost_y in V. rewrite V in P. cbn [fst snd nmul] in P.
    rewrite nadd_NaN_r in P.
    assert (Hr : escaped i (this wm) = false).
    { apply escaped_NaN_y. unfold pos_of in P. now injection P. }
    split; [| exact Hr]. destruct (Hn Hr) as (_ & V' & _).
    right. rewrite V in V'. unfold vel_of in V'. now injection V'.
Qed.

Lemma impulse_at_NaN hits push i k : impulse_at hits push i k NaN = NaN.
Proof.
  unfold impulse_at. destruct hits; [| reflexivity].
  destruct (Nat.eqb k (i * 3)); [reflexivity |].
  destruct (Nat.eqb k (i * 3 + 1)); reflexivity.
Qed.

Lemma run_call_keeps_lost (w : World) (c : Call) (i : nat) :
  (i < count (this w))%nat -> lost (this w) i -> lost (this (run_call w c)) i.
Proof.
  intros Hi Hl.
  destruct c as [gws hvs dt pfs | x y s | x y s]; cbn [run_call].
  - now apply update_keeps_lost.
  - destruct (applyExplosion_spec x y s w) as (_ & _ & _ & Hv).
    unfold lost.
    rewrite (Hv i (i * 3)%nat), (Hv i (i * 3 + 1)%nat)
      by (try assumption; lia).
    destruct Hl as [-> | ->]; [left | right]; apply impulse_at_NaN.
  - destruct (applyImplosion_spec x y s w) as (_ & _ & _ & Hv).
    unfold lost.
    rewrite (Hv i (i * 3)%nat), (Hv i (i * 3 + 1)%nat)
      by (try assumption; lia).
    destruct Hl as [-> | ->]; [left | right]; apply impulse_at_NaN.
Qed.

(** No recovery: a particle whose x or y velocity is NaN keeps a NaN
    velocity, and reports a NaN speed, after any sequence of [update],
    [applyExplosion] and [applyImplosion] calls; [update] never respawns
    it. *)
Theorem lost_particle_never_recovers (cs : list Call) (w : World) (i : nat) :
  (i < count (this w))%nat -> lost (this w) i ->
  lost (this (run_calls cs w)) i /\
  speed_of (this (run_calls cs w)) i = NaN /\
  (forall gws hvs dt pfs,
     respawns gws hvs dt pfs (run_calls cs w) i = false).
Proof.
  intros Hi Hl.
  assert (H : (i < count (this (run_calls cs w)))%nat /\
              lost (this (run_calls cs w)) i).
  { unfold run_calls. revert w Hi Hl.
    induction cs as [| c cs IH]; intros w Hi Hl; cbn [fold_left]; [auto |].
    apply IH.
    - destruct (run_call_sized w c) as [-> _]. exact Hi.
    - now apply run_call_keeps_lost. }
  destruct H as [Hi' Hl'].
  split; [exact Hl' |]. split; [now apply speed_of_lost |].
  intros gws hvs dt pfs. now apply update_keeps_lost.
Qed.

Lemma lost_particle_never_recovers_witness :
  let w := sample_world 1 [Fin 0; Fin 0; Fin 0] [NaN; Fin 0; Fin 0]
             [Fin 0] (fun _ => 0%R) in
  speed_of
    (this (run_calls [CallUpdate [] [] (Fin 1) [];
                      CallImplosion (Fin 0) (Fin 0) (Fin 1)] w)) 0 = NaN.
Proof.
  intros w.
  refine (proj1 (proj2 (lost_particle_never_recovers _ w 0 _ _))).
  - simpl. lia.
  - left. reflexivity.
Defined.

Lemma coasting_world_velocity :
  vel_of (this (update [] [] (Fin 1) [] coasting_world)) 0
  = (Fin (0.01 * 0.995), Fin (0 * 0.995), Fin (0 * 0.995)).
Proof.
  assert (Hi : (0 < count (this coasting_world))%nat) by (simpl; lia).
  destruct (update_view [] [] (Fin 1) [] coasting_world 0 Hi) as [_ Hn].
  destruct (Hn coasting_world_stays) as (_ & V & _). rewrite V.
  destruct (coasting_view [] coasting_world 0 1 0.995 0.08 0.01 0 0
              Hi eq_refl eq_refl eq_refl eq_refl) as (Vm & _).
  rewrite Vm.
  destruct (clamped_finite 0.08 (0.01 * 0.995) (0 * 0.995) (0 * 0.995))
    as [Hle _]; [lra |].
  apply Hle. apply norm3_le_bound; lra.
Qed.

(** ** The implosion, and how impulses compose *)

Lemma implosion_pull_finite (p : Physics) (i : nat) (px py wx wy f r : R) :
  get (positions p) (i * 3) = Fin px ->
  get (positions p) (i * 3 + 1) = Fin py ->
  let d := planar_distance wx wy px py in
  (0.01 < d < r)%R ->
  implosion_pull (Fin wx) (Fin wy) (Fin f) (Fin r) p i =
  (Fin ((wx - px) * (1 / d) * (f * (1 - d / r))),
   Fin ((wy - py) * (1 / d) * (f * (1 - d / r)))).
Proof.
  intros Hx Hy d Hd. unfold implosion_pull. rewrite Hx, Hy.
  cbn [nsub nmul nadd].
  rewrite Math_sqrt_Fin by apply sum_sq2_nonneg.
  fold (planar_distance wx wy px py). fold d.
  rewrite !ndiv_Fin by lra. reflexivity.
Qed.

(** [applyImplosion(x, y, strength)] adds to the velocity of every particle
    whose planar distance [d] from the scaled point (1.5 x, 1.2 y) lies
    strictly between 0.01 and 2 the vector 0.06 strength (1 - d / 2) times
    the unit vector from the particle to that point; its z velocity is
    untouched. *)
Theorem applyImplosion_increment (x y s : R) (w : World) (i : nat) (px py : R) :
  (i < count (this w))%nat ->
  get (positions (this w)) (i * 3) = Fin px ->
  get (positions (this w)) (i * 3 + 1) = Fin py ->
  let d := planar_distance (x * 1.5) (y * 1.2) px py in
  (0.01 < d < 2.0)%R ->
  let m := (0.06 * s * (1 - d / 2.0))%R in
  let ux := ((x * 1.5 - px) / d)%R in
  let uy := ((y * 1.2 - py) / d)%R in
  let w' := applyImplosion (Fin x) (Fin y) (Fin s) w in
  get (velocities (this w')) (i * 3)
    = get (velocities (this w)) (i * 3) + Fin (m * ux) /\
  get (velocities (this w')) (i * 3 + 1)
    = get (velocities (this w)) (i * 3 + 1) + Fin (m * uy) /\
  get (velocities (this w')) (i * 3 + 2)
    = get (velocities (this w)) (i * 3 + 2) /\
  (ux * ux + uy * uy = 1)%R /\
  ((0 <= s)%R ->
     (0 <= m)%R /\ sqrt ((m * ux) * (m * ux) + (m * uy) * (m * uy)) = m).
Proof.
  intros Hi Hx Hy d Hd m ux uy w'.
  destruct (applyImplosion_spec (Fin x) (Fin y) (Fin s) w)
    as (_ & _ & Hz & Hv).
  fold w' in Hz, Hv. cbn [nmul] in Hv.
  assert (Hhit : implosion_hits (Fin (x * 1.5)) (Fin (y * 1.2)) (Fin 2.0)
                   (this w) i = true)
    by now apply (implosion_hits_finite _ _ px py).
  pose proof (implosion_pull_finite (this w) i px py (x * 1.5) (y * 1.2)
                (0.06 * s) 2.0 Hx Hy Hd) as Hpull.
  fold d in Hpull.
  assert (Hu : (ux * ux + uy * uy = 1)%R)
    by (apply planar_unit; fold d; lra).
  assert (Hm : (0 <= s -> 0 <= m)%R).
  { intros Hs. unfold m. apply Rmult_le_pos; lra. }
  split; [| split; [| split; [apply Hz | split; [exact Hu |]]]].
  - rewrite (Hv i (i * 3)%nat) by lia. rewrite Hhit, Hpull.
    unfold impulse_at. rewrite Nat.eqb_refl. cbn [fst].
    f_equal. apply Fin_eq. unfold m, ux. field. lra.
  - rewrite (Hv i (i * 3 + 1)%nat) by lia. rewrite Hhit, Hpull.
    unfold impulse_at.
    destruct (Nat.eqb_spec (i * 3 + 1) (i * 3)); [lia |].
    rewrite Nat.eqb_refl. cbn [snd].
    f_equal. apply Fin_eq. unfold m, uy. field. lra.
  - intros Hs. split; [auto |].
    replace ((m * ux) * (m * ux) + (m * uy) * (m * uy))%R
      with ((m * m) * (ux * ux + uy * uy))%R by ring.
    rewrite Hu, Rmult_1_r. apply sqrt_square. auto.
Qed.

Lemma applyImplosion_increment_witness :
  let w := sample_world 1 [Fin 1; Fin 0; Fin 0] [Fin 0; Fin 0; Fin 0]
             [Fin 0] (fun _ => 0%R) in
  get (velocities (this (applyImplosion (Fin 0) (Fin 0) (Fin 1) w))) 0
  = Fin 0 + Fin (0.06 * 1 * (1 - planar_distance (0 * 1.5) (0 * 1.2) 1 0 / 2.0)
                 * ((0 * 1.5 - 1) / planar_distance (0 * 1.5) (0 * 1.2) 1 0)).
Proof.
  intros w.
  assert (Hd : planar_distance (0 * 1.5) (0 * 1.2) 1 0 = 1%R).
  { unfold planar_distance.
    replace ((0 * 1.5 - 1) * (0 * 1.5 - 1)
             + (0 * 1.2 - 0) * (0 * 1.2 - 0))%R with (1 * 1)%R by lra.
    apply sqrt_square. lra. }
  refine (proj1 (applyImplosion_increment 0 0 1 w 0 1 0 _ eq_refl eq_refl _)).
  - simpl. lia.
  - rewrite Hd. lra.
Defined.

(** Impulses add up.  No impulse moves a particle, so the second of two
    impulses measures the same distances as the first: a particle within
    reach of both an explosion and an implosion receives the push of the
    one and the pull of the other, each computed from the position it had
    before the two calls, added to its velocity in the order of the calls;
    its z velocity and everything but the velocities are left as they
    were. *)
Theorem impulses_accumulate (x y s a b t : R) (w : World) (i : nat)
    (px py : R) :
  (i < count (this w))%nat ->
  get (positions (this w)) (i * 3) = Fin px ->
  get (positions (this w)) (i * 3 + 1) = Fin py ->
  let d1 := planar_distance px py (x * 1.5) (y * 1.2) in
  let d2 := planar_distance (a * 1.5) (b * 1.2) px py in
  (0.01 < d1 < 1.5)%R -> (0.01 < d2 < 2.0)%R ->
  let push_x := (0.08 * s * (1 - d1 / 1.5) * ((px - x * 1.5) / d1))%R in
  let push_y := (0.08 * s * (1 - d1 / 1.5) * ((py - y * 1.2) / d1))%R in
  let pull_x := (0.06 * t * (1 - d2 / 2.0) * ((a * 1.5 - px) / d2))%R in
  let pull_y := (0.06 * t * (1 - d2 / 2.0) * ((b * 1.2 - py) / d2))%R in
  let v := get (velocities (this w)) in
  let w1 := applyImplosion (Fin a) (Fin b) (Fin t)
              (applyExplosion (Fin x) (Fin y) (Fin s) w) in
  let w2 := applyExplosion (Fin x) (Fin y) (Fin s)
              (applyImplosion (Fin a) (Fin b) (Fin t) w) in
  vel_of (this w1) i
  = (v (i * 3)%nat + Fin push_x + Fin pull_x,
     v (i * 3 + 1)%nat + Fin push_y + Fin pull_y, v (i * 3 + 2)%nat) /\
  vel_of (this w2) i
  = (v (i * 3)%nat + Fin pull_x + Fin push_x,
     v (i * 3 + 1)%nat + Fin pull_y + Fin push_y, v (i * 3 + 2)%nat) /\
  positions (this w1) = positions (this w) /\
  positions (this w2) = positions (this w).
Proof.
  intros Hi Hx Hy d1 d2 Hd1 Hd2 push_x push_y pull_x pull_y v w1 w2.
  destruct (applyExplosion_spec (Fin x) (Fin y) (Fin s) w)
    as (E1 & _ & Z1 & V1).
  destruct (applyImplosion_spec (Fin a) (Fin b) (Fin t) w)
    as (E2 & _ & Z2 & V2).
  set (we := applyExplosion (Fin x) (Fin y) (Fin s) w) in *.
  set (wi := applyImplosion (Fin a) (Fin b) (Fin t) w) in *.
  destruct (applyImplosion_spec (Fin a) (Fin b) (Fin t) we)
    as (E3 & _ & Z3 & V3).
  destruct (applyExplosion_spec (Fin x) (Fin y) (Fin s) wi)
    as (E4 & _ & Z4 & V4).
  fold w1 in E3, Z3, V3. fold w2 in E4, Z4, V4.
  clearbody w1 w2. clearbody we wi.
  assert (Pe : positions (this we) = positions (this w)) by now rewrite E1.
  assert (Pi : positions (this wi) = positions (this w)) by now rewrite E2.
  assert (Ce : count (this we) = count (this w)) by now rewrite E1.
  assert (Ci : count (this wi) = count (this w)) by now rewrite E2.
  cbn [nmul] in V1, V2, V3, V4.
  assert (Hhit1 : forall q, positions q = positions (this w) ->
            explosion_hits (Fin (x * 1.5)) (Fin (y * 1.2)) (Fin 1.5) q i = true /\
            explosion_push (Fin (x * 1.5)) (Fin (y * 1.2)) (Fin (0.08 * s))
              (Fin 1.5) q i
            = (Fin ((px - x * 1.5) * (1 / d1) * (0.08 * s * (1 - d1 / 1.5))),
               Fin ((py - y * 1.2) * (1 / d1) * (0.08 * s * (1 - d1 / 1.5))))).
  { intros q Hq. split.
    - apply (explosion_hits_finite _ _ px py); rewrite ?Hq; assumption.
    - apply explosion_push_finite; rewrite ?Hq; assumption. }
  assert (Hhit2 : forall q, positions q = positions (this w) ->
            implosion_hits (Fin (a * 1.5)) (Fin (b * 1.2)) (Fin 2.0) q i = true /\
            implosion_pull (Fin (a * 1.5)) (Fin (b * 1.2)) (Fin (0.06 * t))
              (Fin 2.0) q i
            = (Fin ((a * 1.5 - px) * (1 / d2) * (0.06 * t * (1 - d2 / 2.0))),
               Fin ((b * 1.2 - py) * (1 / d2) * (0.06 * t * (1 - d2 / 2.0))))).
  { intros q Hq. split.
    - apply (implosion_hits_finite _ _ px py); rewrite ?Hq; assumption.
    - apply implosion_pull_finite; rewrite ?Hq; assumption. }
  destruct (Hhit1 (this w) eq_refl) as [A1 B1].
  destruct (Hhit1 (this wi) Pi) as [A4 B4].
  destruct (Hhit2 (this w) eq_refl) as [A2 B2].
  destruct (Hhit2 (this we) Pe) as [A3 B3].
  assert (N : (i * 3 + 1 =? i * 3)%nat = false) by (apply Nat.eqb_neq; lia).
  split; [| split; [| split]].
  - unfold vel_of.
    rewrite (V3 i (i * 3)%nat), (V3 i (i * 3 + 1)%nat), (Z3 i) by lia.
    rewrite (V1 i (i * 3)%nat), (V1 i (i * 3 + 1)%nat), (Z1 i) by lia.
    rewrite A1, B1, A3, B3. unfold impulse_at.
    rewrite !Nat.eqb_refl, N. cbn [fst snd]. unfold v.
    apply f_equal2; [apply f_equal2 | reflexivity];
      (apply f_equal2; [apply f_equal |]); apply Fin_eq;
      unfold push_x, push_y, pull_x, pull_y; field; lra.
  - unfold vel_of.
    rewrite (V4 i (i * 3)%nat), (V4 i (i * 3 + 1)%nat), (Z4 i) by lia.
    rewrite (V2 i (i * 3)%nat), (V2 i (i * 3 + 1)%nat), (Z2 i) by lia.
    rewrite A2, B2, A4, B4. unfold impulse_at.
    rewrite !Nat.eqb_refl, N. cbn [fst snd]. unfold v.
    apply f_equal2; [apply f_equal2 | reflexivity];
      (apply f_equal2; [apply f_equal |]); apply Fin_eq;
      unfold push_x, push_y, pull_x, pull_y; field; lra.
  - rewrite <- Pe. now rewrite E3.
  - rewrite <- Pi. now rewrite E4.
Qed.

Lemma impulses_accumulate_witness :
  let w := sample_world 1 [Fin 1; Fin 0; Fin 0] [Fin 0; Fin 0; Fin 0]
             [Fin 0] (fun _ => 0%R) in
  let d1 := planar_distance 1 0 (0 * 1.5) (0 * 1.2) in
  let d2 := planar_distance (0 * 1.5) (0 * 1.2) 1 0 in
  get (velocities
         (this (applyImplosion (Fin 0) (Fin 0) (Fin 1)
                  (applyExplosion (Fin 0) (Fin 0) (Fin 1) w)))) 0
  = Fin 0 + Fin (0.08 * 1 * (1 - d1 / 1.5) * ((1 - 0 * 1.5) / d1))
    + Fin (0.06 * 1 * (1 - d2 / 2.0) * ((0 * 1.5 - 1) / d2)).
Proof.
  intros w d1 d2.
  assert (Hd1 : planar_distance 1 0 (0 * 1.5) (0 * 1.2) = 1%R).
  { unfold planar_distance.
    replace ((1 - 0 * 1.5) * (1 - 0 * 1.5)
             + (0 - 0 * 1.2) * (0 - 0 * 1.2))%R with (1 * 1)%R by lra.
    apply sqrt_square. lra. }
  assert (Hd2 : planar_distance (0 * 1.5) (0 * 1.2) 1 0 = 1%R)
    by (rewrite planar_distance_sym; exact Hd1).
  destruct (impulses_accumulate 0 0 1 0 0 1 w 0 1 0) as (V & _);
    try reflexivity.
  - simpl. lia.
  - rewrite Hd1. lra.
  - rewrite Hd2. lra.
  - unfold vel_of in V. now injection V.
Defined.

(** ** The force law *)

Lemma norm3_scale_abs (a b c k : R) :
  norm3 (k * a) (k * b) (k * c) = (Rabs k * norm3 a b c)%R.
Proof.
  unfold norm3.
  replace (k * a * (k * a) + k * b * (k * b) + k * c * (k * c))%R
    with (Rsqr k * (a * a + b * b + c * c))%R by (unfold Rsqr; ring).
  rewrite sqrt_mult by (try apply sum_sq3_nonneg; apply Rle_0_sqr).
  now rewrite sqrt_Rsqr_abs.
Qed.

Lemma Math_max_Fin (a b : R) : Math_max (Fin a) (Fin b) = Fin (Rmax a b).
Proof.
  cbn [Math_max nlt]. unfold Rmax.
  destruct (Rlt_dec a b), (Rle_dec a b); try reflexivity; try lra.
  apply Fin_eq. lra.
Qed.

(** The pull of a well that does not move on a particle at a distance
    strictly between 0 and the field radius. *)
Lemma well_force_in_reach (p : Physics) (i : nat) (well : Well)
    (g md fr px py pz wx wy wz s : R) :
  pos_of p i = (Fin px, Fin py, Fin pz) ->
  well_x well = Fin wx -> well_y well = Fin wy -> well_z well = Fin wz ->
  well_strength well = Fin s ->
  well_vx well = Fin 0 -> well_vy well = Fin 0 ->
  (0 < md)%R ->
  let d := spatial_distance wx wy wz px py pz in
  (0 < d < fr)%R ->
  let k := ((if attractMode p then 1 else -1) * (g * s)
            / (d * (Rmax d md * Rmax d md)))%R in
  well_force p (i * 3) (Fin g) (Fin md) (Fin fr) (Fin 0, Fin 0, Fin 0) well
  = (Fin (k * (wx - px)), Fin (k * (wy - py)), Fin (k * (wz - pz))).
Proof.
  intros P Wx Wy Wz Ws Vx Vy Hmd d Hd k.
  unfold pos_of in P. injection P as Px Py Pz.
  assert (HM : (0 < md <= Rmax d md)%R) by (split; [lra | apply Rmax_r]).
  unfold k. set (M := Rmax d md) in *.
  assert (HM2 : (0 < M * M)%R) by nra.
  unfold well_force. rewrite Px, Py, Pz, Wx, Wy, Wz, Ws, Vx, Vy.
  cbn [nsub nmul nadd].
  rewrite (Math_sqrt_Fin ((wx - px) * (wx - px) + _ + _))
    by apply sum_sq3_nonneg.
  fold (spatial_distance wx wy wz px py pz). fold d.
  rewrite nlt_Fin_true by lra.
  rewrite Math_max_Fin. fold M. cbn [nmul].
  rewrite !ndiv_Fin by lra.
  rewrite Math_sqrt_Fin by lra.
  replace (0 * 0 + 0 * 0)%R with 0%R by ring. rewrite sqrt_0.
  rewrite ngt_Fin_false by lra. cbn [andb].
  destruct (attractMode p); cbn [fst snd nmul nadd];
    repeat f_equal; field; lra.
Qed.

(** Softened inverse-square gravity, in the working range of the engine
    (a softening length of at least 0.001, a field radius of at most 1000,
    |G strength| at most 1000): a well that does not move pulls a particle
    at a distance d with 0.000001 <= d < fieldRadius along the line to the
    well (towards it in attract mode, away from it in repel mode, for a
    positive G strength) with an acceleration of magnitude
    |G strength| / max (d, minDistance)^2: inverse-square from the
    softening length outwards, and the constant |G strength| / minDistance^2
    within it. *)
Theorem softened_gravity (p : Physics) (i : nat) (well : Well)
    (g md fr px py pz wx wy wz s : R) :
  pos_of p i = (Fin px, Fin py, Fin pz) ->
  well_x well = Fin wx -> well_y well = Fin wy -> well_z well = Fin wz ->
  well_strength well = Fin s ->
  well_vx well = Fin 0 -> well_vy well = Fin 0 ->
  (0.001 <= md)%R -> (fr <= 1000)%R -> (Rabs (g * s) <= 1000)%R ->
  let d := spatial_distance wx wy wz px py pz in
  (0.000001 <= d < fr)%R ->
  let k := ((if attractMode p then 1 else -1) * (g * s)
            / (d * (Rmax d md * Rmax d md)))%R in
  exists ax ay az : R,
    well_force p (i * 3) (Fin g) (Fin md) (Fin fr) (Fin 0, Fin 0, Fin 0) well
    = (Fin ax, Fin ay, Fin az) /\
    ax = (k * (wx - px))%R /\ ay = (k * (wy - py))%R /\
    az = (k * (wz - pz))%R /\
    norm3 ax ay az = (Rabs (g * s) / (Rmax d md * Rmax d md))%R /\
    (md <= d -> norm3 ax ay az = Rabs (g * s) / (d * d))%R /\
    (d <= md -> norm3 ax ay az = Rabs (g * s) / (md * md))%R.
Proof.
  intros P Wx Wy Wz Ws Vx Vy Hmd _ _ d Hd k.
  assert (HM : (0 < md <= Rmax d md)%R) by (split; [lra | apply Rmax_r]).
  exists (k * (wx - px))%R, (k * (wy - py))%R, (k * (wz - pz))%R.
  split; [| split; [reflexivity | split; [reflexivity | split;
                                          [reflexivity |]]]].
  - apply well_force_in_reach; try assumption; [lra | fold d; lra].
  - unfold k in *. clear k. set (M := Rmax d md) in *.
    assert (HM2 : (0 < M * M)%R) by nra.
    set (k := (_ / (d * (M * M)))%R).
    assert (Hk : Rabs k = (Rabs (g * s) / (d * (M * M)))%R).
    { assert (Hpos : (0 < / (d * (M * M)))%R)
        by (apply Rinv_0_lt_compat; nra).
      unfold k. destruct (attractMode p).
      - replace (1 * (g * s) / (d * (M * M)))%R
          with ((g * s) * / (d * (M * M)))%R by (field; lra).
        rewrite Rabs_mult, (Rabs_right (/ _)) by lra. reflexivity.
      - replace (-1 * (g * s) / (d * (M * M)))%R
          with ((- (g * s)) * / (d * (M * M)))%R by (field; lra).
        rewrite Rabs_mult, Rabs_Ropp, (Rabs_right (/ _)) by lra.
        reflexivity. }
    assert (Hn : norm3 (k * (wx - px)) (k * (wy - py)) (k * (wz - pz))
                 = (Rabs (g * s) / (M * M))%R).
    { rewrite norm3_scale_abs, Hk.
      change (norm3 (wx - px) (wy - py) (wz - pz)) with d. field. lra. }
    split; [exact Hn |]. rewrite Hn. unfold M.
    split; intros H.
    + now rewrite Rmax_left by lra.
    + now rewrite Rmax_right by lra.
Qed.

Lemma spatial_distance_axis (ax bx y z : R) :
  (bx <= ax)%R -> spatial_distance ax y z bx y z = (ax - bx)%R.
Proof.
  intros H. unfold spatial_distance.
  replace ((ax - bx) * (ax - bx) + (y - y) * (y - y) + (z - z) * (z - z))%R
    with ((ax - bx) * (ax - bx))%R by ring.
  apply sqrt_square. lra.
Qed.

Lemma softened_gravity_witness :
  let p := this resting_world in
  let well := mkWell (Fin 1) (Fin 0) (Fin 0) (Fin 1) (Fin 0) (Fin 0) in
  exists ax ay az : R,
    well_force p (0 * 3) (Fin 0.00015) (Fin 0.05) (Fin 2.5)
      (Fin 0, Fin 0, Fin 0) well = (Fin ax, Fin ay, Fin az) /\
    norm3 ax ay az
    = (Rabs (0.00015 * 1)
       / (spatial_distance 1 0 0 0 0 0 * spatial_distance 1 0 0 0 0 0))%R.
Proof.
  intros p well.
  assert (Hd : spatial_distance 1 0 0 0 0 0 = 1%R)
    by (rewrite spatial_distance_axis; lra).
  destruct (softened_gravity p 0 well 0.00015 0.05 2.5 0 0 0 1 0 0 1
              eq_refl eq_refl eq_refl eq_refl eq_refl eq_refl eq_refl)
    as (ax & ay & az & E & _ & _ & _ & _ & Hfar & _).
  - lra.
  - lra.
  - replace (0.00015 * 1)%R with 0.00015%R by lra.
    rewrite Rabs_right; lra.
  - rewrite Hd. lra.
  - exists ax, ay, az. split; [exact E |]. apply Hfar. rewrite Hd. lra.
Defined.

(** ** World space: the coordinates the tests are made in *)

(** The force of a well on a particle depends on the object only through
    the position of that particle and the attract mode. *)
Lemma well_force_by_particle (p q : Physics) (i : nat) (g md fr : num)
    (a : vec3) (well : Well) :
  pos_of q i = pos_of p i -> attractMode q = attractMode p ->
  well_force q (i * 3) g md fr a well = well_force p (i * 3) g md fr a well.
Proof.
  unfold pos_of. intros H Ha. injection H as Hx Hy Hz.
  unfold well_force. now rewrite Hx, Hy, Hz, Ha.
Qed.

Lemma acceleration_single_well (well : Well) (g minDist fieldR : num)
    (i : nat) (w : World) :
  chaosMode (this w) = false ->
  acceleration [well] None [] g minDist fieldR i w
  = (well_force (this w) (i * 3) g minDist fieldR (Fin 0, Fin 0, Fin 0) well,
     w).
Proof. intros H. unfold acceleration. now rewrite H. Qed.

(** A particle at its boundary check in a frame with one hand and neither
    hand velocities, path points nor chaos: its velocity was integrated
    with the pull of the rescaled well, then clamped. *)
Lemma single_well_view (hand : GravityWell) (w : World) (i : nat)
    (t g dr mv md fr : R) (pos vel : vec3) :
  (i < count (this w))%nat -> chaosMode (this w) = false ->
  G (this w) = Fin g -> drag (this w) = Fin dr ->
  maxVelocity (this w) = Fin mv ->
  minDistance (this w) = Fin md -> fieldRadius (this w) = Fin fr ->
  pos_of (this w) i = pos -> vel_of (this w) i = vel ->
  let a := well_force (this w) (i * 3) (Fin g) (Fin md) (Fin fr)
             (Fin 0, Fin 0, Fin 0) (precompute_well [] 0 hand) in
  let wm := at_boundary_check [hand] [] (Fin t) [] w i in
  vel_of (this wm) i = clamped (Fin mv) (integrated a (Fin t) (Fin dr) vel) /\
  pos_of (this wm) i = advanced (Fin t) pos (vel_of (this wm) i).
Proof.
  intros Hi Hc HG Hd Hm Hmd Hfr Hp Hv a wm.
  destruct (at_boundary_check_view [hand] [] (Fin t) [] w i Hi)
    as (V & P & _ & _ & S1 & P1).
  fold wm in V, P. rewrite Hp in P. split; [| exact P].
  cbn [precompute_wells imap merge_wells] in V.
  rewrite acceleration_single_well in V
    by (destruct S1 as (_&_&_&_&_&_&_&E&_); now rewrite E).
  cbn [fst] in V.
  rewrite (well_force_by_particle (this w)) in V
    by (try exact P1; now destruct S1 as (_&_&_&_&_&_&_&_&_&E&_)).
  unfold effective_G in V. rewrite Hc, HG, nmul_1_r, Hd, Hm, Hmd, Hfr, Hv in V.
  exact V.
Qed.

Lemma integrated_finite (ax ay az t dr vx vy vz : R) :
  integrated (Fin ax, Fin ay, Fin az) (Fin t) (Fin dr) (Fin vx, Fin vy, Fin vz)
  = (Fin ((vx + ax * t) * dr), Fin ((vy + ay * t) * dr),
     Fin ((vz + az * t) * dr)).
Proof. reflexivity. Qed.

(** C10: [update] works on the wells rescaled to (1.5 x, 1.2 y, 0.5 z) and
    the impulses on the centre rescaled to (1.5 x, 1.2 y), and every test
    is made on distances in those coordinates.  [update] runs its loop with
    the rescaled wells and the well merged from them; two wells are merged
    exactly when their rescaled images are less than 0.5 apart in the
    plane; a hand pulls a particle of a constructed object (softening
    length 0.05, field radius 2.5) exactly when the rescaled well is
    less than 2.5 away, with the inverse-square pull towards the rescaled
    well from distance 0.05 on; an explosion and an implosion change the
    velocity of a particle exactly when its planar distance from the
    rescaled centre is strictly between 0.01 and their radius, by the
    increment computed from that distance. *)
Theorem scaled_coordinates :
  (forall gws hvs dt pfs w,
     update gws hvs dt pfs w
     = fold_left
         (update_particle (precompute_wells gws hvs)
            (merge_wells (precompute_wells gws hvs)) pfs dt
            (effective_G (this w)) (drag (this w)) (maxVelocity (this w))
            (minDistance (this w)) (fieldRadius (this w)))
         (seq 0 (count (this w))) w) /\
  (forall gws hvs idx g,
     gws !! idx = Some g ->
     exists w, precompute_wells gws hvs !! idx = Some w /\
       well_x w = gw_x g * Fin 1.5 /\ well_y w = gw_y g * Fin 1.2 /\
       well_z w = gw_z g * Fin 0.5 /\ well_strength w = gw_strength g) /\
  (forall g0 g1 hvs (x0 y0 x1 y1 : R),
     gw_x g0 = Fin x0 -> gw_y g0 = Fin y0 ->
     gw_x g1 = Fin x1 -> gw_y g1 = Fin y1 ->
     (merge_wells (precompute_wells [g0; g1] hvs) <> None <->
      (planar_distance (x0 * 1.5) (y0 * 1.2) (x1 * 1.5) (y1 * 1.2) < 0.5)%R)) /\
  (forall (w : World) (i : nat) (t g dr mv px py pz vx vy vz x y z s : R),
     (i < count (this w))%nat -> chaosMode (this w) = false ->
     G (this w) = Fin g -> drag (this w) = Fin dr ->
     maxVelocity (this w) = Fin mv ->
     minDistance (this w) = Fin 0.05 -> fieldRadius (this w) = Fin 2.5 ->
     pos_of (this w) i = (Fin px, Fin py, Fin pz) ->
     vel_of (this w) i = (Fin vx, Fin vy, Fin vz) ->
     let hand := mkGravityWell (Fin x) (Fin y) (Fin z) (Fin s) in
     respawns [hand] [] (Fin t) [] w i = false ->
     let d := spatial_distance (x * 1.5) (y * 1.2) (z * 0.5) px py pz in
     let k := ((if attractMode (this w) then 1 else -1) * (g * s)
               / (d * (d * d)))%R in
     let w' := update [hand] [] (Fin t) [] w in
     ((2.5 <= d)%R ->
        vel_of (this w') i
        = clamped (Fin mv) (Fin (vx * dr), Fin (vy * dr), Fin (vz * dr))) /\
     ((0.05 <= d < 2.5)%R ->
        vel_of (this w') i
        = clamped (Fin mv)
            (Fin ((vx + k * (x * 1.5 - px) * t) * dr),
             Fin ((vy + k * (y * 1.2 - py) * t) * dr),
             Fin ((vz + k * (z * 0.5 - pz) * t) * dr)))) /\
  (forall (x y s : R) (w : World) (i : nat) (px py : R),
     (i < count (this w))%nat ->
     get (positions (this w)) (i * 3) = Fin px ->
     get (positions (this w)) (i * 3 + 1) = Fin py ->
     let d := planar_distance px py (x * 1.5) (y * 1.2) in
     let w' := applyExplosion (Fin x) (Fin y) (Fin s) w in
     (~ (0.01 < d < 1.5)%R -> vel_of (this w') i = vel_of (this w) i) /\
     ((0.01 < d < 1.5)%R ->
        vel_of (this w') i
        = (get (velocities (this w)) (i * 3)
             + Fin (0.08 * s * (1 - d / 1.5) * ((px - x * 1.5) / d)),
           get (velocities (this w)) (i * 3 + 1)
             + Fin (0.08 * s * (1 - d / 1.5) * ((py - y * 1.2) / d)),
           get (velocities (this w)) (i * 3 + 2)))) /\
  (forall (x y s : R) (w : World) (i : nat) (px py : R),
     (i < count (this w))%nat ->
     get (positions (this w)) (i * 3) = Fin px ->
     get (positions (this w)) (i * 3 + 1) = Fin py ->
     let d := planar_distance (x * 1.5) (y * 1.2) px py in
     let w' := applyImplosion (Fin x) (Fin y) (Fin s) w in
     (~ (0.01 < d < 2.0)%R -> vel_of (this w') i = vel_of (this w) i) /\
     ((0.01 < d < 2.0)%R ->
        vel_of (this w') i
        = (get (velocities (this w)) (i * 3)
             + Fin (0.06 * s * (1 - d / 2.0) * ((x * 1.5 - px) / d)),
           get (velocities (this w)) (i * 3 + 1)
             + Fin (0.06 * s * (1 - d / 2.0) * ((y * 1.2 - py) / d)),
           get (velocities (this w)) (i * 3 + 2)))).
Proof.
  split; [reflexivity |]. split; [| split; [| split; [| split]]].
  - intros gws hvs idx g H. exists (precompute_well hvs idx g).
    split; [now apply precompute_wells_lookup | now simpl].
  - intros g0 g1 hvs x0 y0 x1 y1 Hx0 Hy0 Hx1 Hy1.
    unfold precompute_wells. cbn [imap]. unfold compose.
    set (d := planar_distance _ _ _ _).
    destruct (Rlt_le_dec d 0.5) as [Hd | Hd].
    + split; [auto |]. intros _.
      destruct g0 as [gx0 gy0 gz0 gs0], g1 as [gx1 gy1 gz1 gs1].
      simpl in *. subst. unfold merge_wells. cbn [well_x well_y nsub nmul nadd].
      rewrite Math_sqrt_Fin by apply sum_sq2_nonneg.
      fold (planar_distance (x0 * 1.5) (y0 * 1.2) (x1 * 1.5) (y1 * 1.2)).
      fold d. now rewrite nlt_Fin_true.
    + split; [| lra]. intros H. exfalso. apply H.
      apply (merge_wells_far _ _ (x0 * 1.5) (y0 * 1.2) (x1 * 1.5) (y1 * 1.2));
        simpl; try rewrite Hx0; try rewrite Hy0; try rewrite Hx1;
        try rewrite Hy1; auto.
  - intros w i t g dr mv px py pz vx vy vz x y z s Hi Hc HG Hdr Hmv Hmd Hfr
      Hp Hv hand Hr d k w'.
    destruct (update_view [hand] [] (Fin t) [] w i Hi) as [_ Hn].
    destruct (Hn Hr) as (_ & V & _). fold w' in V. rewrite V. clear V Hn.
    destruct (single_well_view hand w i t g dr mv 0.05 2.5 _ _
                Hi Hc HG Hdr Hmv Hmd Hfr Hp Hv) as (V & _).
    rewrite V. clear V.
    assert (Px : get (positions (this w)) (i * 3) = Fin px)
      by (unfold pos_of in Hp; now injection Hp).
    assert (Py : get (positions (this w)) (i * 3 + 1) = Fin py)
      by (unfold pos_of in Hp; now injection Hp).
    assert (Pz : get (positions (this w)) (i * 3 + 2) = Fin pz)
      by (unfold pos_of in Hp; now injection Hp).
    split; intros Hd.
    + rewrite (well_force_out_of_reach _ _ _ _ _ _ 2.5 px py pz
                 (x * 1.5) (y * 1.2) (z * 0.5)) by (auto; exact Hd).
      rewrite integrated_finite. repeat f_equal; lra.
    + pose proof (well_force_in_reach (this w) i (precompute_well [] 0 hand)
                    g 0.05 2.5 px py pz (x * 1.5) (y * 1.2) (z * 0.5) s
                    Hp eq_refl eq_refl eq_refl eq_refl eq_refl eq_refl
                    ltac:(lra)) as F.
      cbv zeta in F. fold d in F. rewrite F by lra.
      rewrite Rmax_left by lra. fold k.
      rewrite integrated_finite. reflexivity.
  - intros x y s w i px py Hi Hx Hy d w'.
    destruct (applyExplosion_spec (Fin x) (Fin y) (Fin s) w)
      as (_ & _ & Hz & Hv).
    fold w' in Hz, Hv. cbn [nmul] in Hv. unfold vel_of.
    rewrite (Hv i (i * 3)%nat), (Hv i (i * 3 + 1)%nat), (Hz i) by lia.
    split; intros Hd.
    + now rewrite (explosion_misses_finite _ _ px py).
    + assert (Hhit : explosion_hits (Fin (x * 1.5)) (Fin (y * 1.2)) (Fin 1.5)
                       (this w) i = true)
        by now apply (explosion_hits_finite _ _ px py).
      pose proof (explosion_push_finite (this w) i px py (x * 1.5) (y * 1.2)
                    (0.08 * s) 1.5 Hx Hy Hd) as Hpush.
      fold d in Hpush. rewrite Hhit, Hpush. unfold impulse_at.
      rewrite Nat.eqb_refl.
      destruct (Nat.eqb_spec (i * 3 + 1) (i * 3)); [lia |].
      rewrite Nat.eqb_refl. cbn [fst snd].
      apply f_equal2; [apply f_equal2 | reflexivity];
        apply f_equal, Fin_eq; field; lra.
  - intros x y s w i px py Hi Hx Hy d w'.
    destruct (applyImplosion_spec (Fin x) (Fin y) (Fin s) w)
      as (_ & _ & Hz & Hv).
    fold w' in Hz, Hv. cbn [nmul] in Hv. unfold vel_of.
    rewrite (Hv i (i * 3)%nat), (Hv i (i * 3 + 1)%nat), (Hz i) by lia.
    split; intros Hd.
    + now rewrite (implosion_misses_finite _ _ px py).
    + assert (Hhit : implosion_hits (Fin (x * 1.5)) (Fin (y * 1.2)) (Fin 2.0)
                       (this w) i = true)
        by now apply (implosion_hits_finite _ _ px py).
      pose proof (implosion_pull_finite (this w) i px py (x * 1.5) (y * 1.2)
                    (0.06 * s) 2.0 Hx Hy Hd) as Hpull.
      fold d in Hpull. rewrite Hhit, Hpull. unfold impulse_at.
      rewrite Nat.eqb_refl.
      destruct (Nat.eqb_spec (i * 3 + 1) (i * 3)); [lia |].
      rewrite Nat.eqb_refl. cbn [fst snd].
      apply f_equal2; [apply f_equal2 | reflexivity];
        apply f_equal, Fin_eq; field; lra.
Qed.

Lemma spatial_distance_on_axis (a y z : R) :
  (0 <= a)%R -> y = 0%R -> z = 0%R -> spatial_distance a y z 0 0 0 = a.
Proof.
  intros Ha -> ->. unfold spatial_distance.
  replace ((a - 0) * (a - 0) + (0 - 0) * (0 - 0) + (0 - 0) * (0 - 0))%R
    with (a * a)%R by ring.
  now apply sqrt_square.
Qed.

(** A hand at (2, 0, 0) is at distance 2 from the origin, within the field
    radius, but its well is at (3, 0, 0): the particle at the origin stays
    at rest. *)
Lemma resting_world_far_hand :
  respawns [mkGravityWell (Fin 2) (Fin 0) (Fin 0) (Fin 1)] [] (Fin 1) []
    resting_world 0 = false.
Proof.
  assert (Hi : (0 < count (this resting_world))%nat) by (simpl; lia).
  destruct (single_well_view (mkGravityWell (Fin 2) (Fin 0) (Fin 0) (Fin 1))
              resting_world 0 1 0.00015 0.995 0.08 0.05 2.5
              (Fin 0, Fin 0, Fin 0) (Fin 0, Fin 0, Fin 0)
              Hi eq_refl eq_refl eq_refl eq_refl eq_refl eq_refl
              eq_refl eq_refl) as (V & P).
  rewrite (well_force_out_of_reach _ _ _ _ _ _ 2.5 0 0 0
             (2 * 1.5) (0 * 1.2) (0 * 0.5)) in V;
    try reflexivity;
    [| rewrite spatial_distance_on_axis; lra].
  rewrite integrated_finite in V.
  destruct (clamped_finite 0.08 ((0 + 0 * 1) * 0.995) ((0 + 0 * 1) * 0.995)
              ((0 + 0 * 1) * 0.995)) as [Hle _]; [lra |].
  rewrite Hle in V by (apply norm3_le_bound; lra).
  rewrite V in P. unfold respawns.
  apply (escaped_finite _ 0 _ _ _ P). lra.
Qed.

(** A hand at (1, 0, 0) has its well at (1.5, 0, 0), within the field
    radius: the particle at the origin is pulled, and stays in the disc. *)
Lemma resting_world_near_hand :
  respawns [mkGravityWell (Fin 1) (Fin 0) (Fin 0) (Fin 1)] [] (Fin 1) []
    resting_world 0 = false.
Proof.
  assert (Hi : (0 < count (this resting_world))%nat) by (simpl; lia).
  destruct (single_well_view (mkGravityWell (Fin 1) (Fin 0) (Fin 0) (Fin 1))
              resting_world 0 1 0.00015 0.995 0.08 0.05 2.5
              (Fin 0, Fin 0, Fin 0) (Fin 0, Fin 0, Fin 0)
              Hi eq_refl eq_refl eq_refl eq_refl eq_refl eq_refl
              eq_refl eq_refl) as (V & P).
  assert (Hd : spatial_distance (1 * 1.5) (0 * 1.2) (0 * 0.5) 0 0 0 = 1.5%R)
    by (rewrite spatial_distance_on_axis; lra).
  pose proof (well_force_in_reach (this resting_world) 0
                (precompute_well [] 0
                   (mkGravityWell (Fin 1) (Fin 0) (Fin 0) (Fin 1)))
                0.00015 0.05 2.5 0 0 0 (1 * 1.5) (0 * 1.2) (0 * 0.5) 1
                eq_refl eq_refl eq_refl eq_refl eq_refl eq_refl eq_refl
                ltac:(lra)) as F.
  cbv zeta in F. rewrite Hd in F. rewrite F in V by lra. clear F.
  rewrite Rmax_left in V by lra.
  cbn [attractMode this resting_world sample_world] in V.
  rewrite integrated_finite in V.
  match type of V with
  | _ = clamped _ (Fin ?a, Fin ?b, Fin ?c) =>
      destruct (clamped_finite 0.08 a b c) as [Hle _]; [lra |];
      rewrite Hle in V by (apply norm3_le_bound; lra)
  end.
  rewrite V in P. unfold respawns.
  apply (escaped_finite _ 0 _ _ _ P). lra.
Qed.

Lemma scaled_coordinates_witness :
  let far := mkGravityWell (Fin 2) (Fin 0) (Fin 0) (Fin 1) in
  let near := mkGravityWell (Fin 1) (Fin 0) (Fin 0) (Fin 1) in
  let d := spatial_distance (1 * 1.5) (0 * 1.2) (0 * 0.5) 0 0 0 in
  let k := (1 * (0.00015 * 1) / (d * (d * d)))%R in
  vel_of (this (update [far] [] (Fin 1) [] resting_world)) 0
  = clamped (Fin 0.08) (Fin (0 * 0.995), Fin (0 * 0.995), Fin (0 * 0.995)) /\
  vel_of (this (update [near] [] (Fin 1) [] resting_world)) 0
  = clamped (Fin 0.08)
      (Fin ((0 + k * (1 * 1.5 - 0) * 1) * 0.995),
       Fin ((0 + k * (0 * 1.2 - 0) * 1) * 0.995),
       Fin ((0 + k * (0 * 0.5 - 0) * 1) * 0.995)) /\
  merge_wells
    (precompute_wells
       [mkGravityWell (Fin 0.4) (Fin 0) (Fin 0) (Fin 1);
        mkGravityWell (Fin 0) (Fin 0) (Fin 0) (Fin 1)] []) = None.
Proof.
  intros far near d k.
  destruct scaled_coordinates as (_ & _ & Hmerge & Hwell & _).
  assert (Hi : (0 < count (this resting_world))%nat) by (simpl; lia).
  split; [| split].
  - apply (proj1 (Hwell resting_world 0%nat 1 0.00015 0.995 0.08 0 0 0 0 0 0
                    2 0 0 1 Hi eq_refl eq_refl eq_refl eq_refl eq_refl
                    eq_refl eq_refl eq_refl resting_world_far_hand))%R.
    rewrite spatial_distance_on_axis; lra.
  - apply (proj2 (Hwell resting_world 0%nat 1 0.00015 0.995 0.08 0 0 0 0 0 0
                    1 0 0 1 Hi eq_refl eq_refl eq_refl eq_refl eq_refl
                    eq_refl eq_refl eq_refl resting_world_near_hand))%R.
    rewrite spatial_distance_on_axis; lra.
  - destruct (merge_wells (precompute_wells _ _)) eqn:E; [| reflexivity].
    exfalso.
    assert (Hd : planar_distance (0.4 * 1.5) (0 * 1.2) (0 * 1.5) (0 * 1.2)
                 = 0.6%R).
    { rewrite planar_distance_axis by lra. lra. }
    assert (H : (planar_distance (0.4 * 1.5) (0 * 1.2) (0 * 1.5) (0 * 1.2)
                 < 0.5)%R).
    { apply (Hmerge (mkGravityWell (Fin 0.4) (Fin 0) (Fin 0) (Fin 1))
               (mkGravityWell (Fin 0) (Fin 0) (Fin 0) (Fin 1)) []
               0.4%R 0%R 0%R 0%R eq_refl eq_refl eq_refl eq_refl).
      rewrite E. discriminate. }
    rewrite Hd in H. lra.
Defined.

(** ** Path points *)

(** A path point of age 8000 ms or more adds nothing; a younger one adds
    nothing to a particle at planar distance 0.01 or less, or 0.6 or more,
    and otherwise pulls the particle towards itself with the force
    (1 - age / 8000) 0.0005 / (d + 0.03), leaving the z acceleration. *)
Theorem path_force_fades (p : Physics) (i : nat) (a : vec3)
    (now x y time px py : R) :
  get (positions p) (i * 3) = Fin px ->
  get (positions p) (i * 3 + 1) = Fin py ->
  let point := mkPathPoint (Fin x) (Fin y) (Fin time) in
  let d := planar_distance x y px py in
  let f := ((1 - (now - time) / 8000) * 0.0005 / (d + 0.03))%R in
  ((8000 <= now - time)%R -> path_force p (i * 3) (Fin now) a point = a) /\
  (~ (0.01 < d < 0.6)%R -> path_force p (i * 3) (Fin now) a point = a) /\
  ((now - time < 8000)%R -> (0.01 < d < 0.6)%R ->
     path_force p (i * 3) (Fin now) a point
     = (a.1.1 + Fin ((x - px) / d * f), a.1.2 + Fin ((y - py) / d * f), a.2) /\
     (0 < f)%R).
Proof.
  intros Px Py point d f.
  unfold path_force. cbn [pt_x pt_y pt_time point]. rewrite Px, Py.
  cbn [nsub nmul nadd]. rewrite ndiv_Fin by lra.
  rewrite Math_sqrt_Fin by apply sum_sq2_nonneg.
  fold (planar_distance x y px py). fold d.
  pose proof (planar_distance_nonneg x y px py) as Hd0. fold d in Hd0.
  split; [| split].
  - intros H. rewrite nlt_Fin_false; [reflexivity |].
    apply Rmult_le_reg_r with 8000%R; [lra |]. unfold Rdiv.
    rewrite Rmult_assoc, Rinv_l by lra. lra.
  - intros H. destruct (Fin ((now - time) / 8000) <? Fin 1); [| reflexivity].
    destruct (Rlt_le_dec d 0.6) as [H1 | H1].
    + rewrite ngt_Fin_false by lra. now rewrite andb_false_r.
    + now rewrite nlt_Fin_false by lra.
  - intros Hage Hd. rewrite nlt_Fin_true.
    + rewrite nlt_Fin_true, ngt_Fin_true by lra. cbn [andb nadd nsub nmul].
      rewrite !ndiv_Fin by lra. cbn [nmul]. split; [reflexivity |].
      unfold f. apply Rdiv_lt_0_compat; [| lra].
      apply Rmult_lt_0_compat; [| lra].
      assert ((now - time) / 8000 < 1)%R; [| lra].
      apply Rmult_lt_reg_r with 8000%R; [lra |]. unfold Rdiv.
      rewrite Rmult_assoc, Rinv_l by lra. lra.
    + apply Rmult_lt_reg_r with 8000%R; [lra |]. unfold Rdiv.
      rewrite Rmult_assoc, Rinv_l by lra. lra.
Qed.

Lemma path_force_fades_witness :
  let p := this (sample_world 1 [Fin 0; Fin 0; Fin 0] [Fin 0; Fin 0; Fin 0]
                   [Fin 0] (fun _ => 0%R)) in
  path_force p (0 * 3) (Fin 9000) (Fin 0, Fin 0, Fin 0)
    (mkPathPoint (Fin 0.1) (Fin 0) (Fin 1000)) = (Fin 0, Fin 0, Fin 0).
Proof.
  intros p.
  refine (proj1 (path_force_fades p 0 (Fin 0, Fin 0, Fin 0) 9000 0.1 0 1000
                   0 0 eq_refl eq_refl) _).
  lra.
Defined.

(** ** How far a particle moves *)

(** A particle that [update] does not respawn is moved by [dt] times the
    velocity it ends the frame with, not the one it began it with: the
    velocity is integrated and clamped first, and the position advanced
    with the result.  When that velocity is a triple of numbers the new
    position is the old one plus [dt] times it, component by component. *)
Theorem update_displacement gws hvs dt pfs (w : World) (i : nat) :
  (i < count (this w))%nat ->
  respawns gws hvs dt pfs w i = false ->
  let w' := update gws hvs dt pfs w in
  pos_of (this w') i = advanced dt (pos_of (this w) i) (vel_of (this w') i) /\
  (forall t px py pz a b c : R,
     dt = Fin t -> pos_of (this w) i = (Fin px, Fin py, Fin pz) ->
     vel_of (this w') i = (Fin a, Fin b, Fin c) ->
     pos_of (this w') i
     = (Fin (px + a * t), Fin (py + b * t), Fin (pz + c * t))).
Proof.
  intros Hi Hr w'.
  destruct (update_view gws hvs dt pfs w i Hi) as [_ Hn].
  destruct (Hn Hr) as (P & V & _). fold w' in P, V.
  destruct (at_boundary_check_view gws hvs dt pfs w i Hi) as (_ & Pm & _).
  rewrite <- V in Pm. rewrite <- P in Pm.
  split; [exact Pm |].
  intros t px py pz a b c -> Hp Hv. rewrite Pm, Hp, Hv. reflexivity.
Qed.

Lemma update_displacement_witness :
  pos_of (this (update [] [] (Fin 1) [] coasting_world)) 0
  = (Fin (1 + 0.01 * 0.995 * 1), Fin (0 + 0 * 0.995 * 1),
     Fin (0 + 0 * 0.995 * 1)).
Proof.
  refine (proj2 (update_displacement [] [] (Fin 1) [] coasting_world 0
                   _ coasting_world_stays) 1 1 0 0 _ _ _
            eq_refl eq_refl coasting_world_velocity)%R.
  simpl. lia.
Defined.

(** ** [getSpeeds] *)

Lemma getSpeeds_lookup (p : Physics) (i : nat) :
  length (getSpeeds p) = count p /\
  ((i < count p)%nat -> getSpeeds p !! i = Some (speed_of p i)) /\
  ((count p <= i)%nat -> getSpeeds p !! i = None).
Proof.
  unfold getSpeeds. split; [| split].
  - now rewrite length_map, length_seq.
  - intros Hi. rewrite list_lookup_fmap.
    now rewrite (lookup_seq_lt 0 (count p) i Hi).
  - intros Hi. apply lookup_ge_None. now rewrite length_map, length_seq.
Qed.

(** The norm the engine computes for a triple of numbers, on the special
    values. *)
Lemma speed_cases (a b c : num) :
  let s := Math_sqrt (a * a + b * b + c * c) in
  (s = NaN <-> a = NaN \/ b = NaN \/ c = NaN) /\
  s <> NInf /\ (forall r : R, s = Fin r -> (0 <= r)%R) /\
  (s = Fin 0 <-> (a, b, c) = (Fin 0, Fin 0, Fin 0)).
Proof.
  destruct a as [x| | |], b as [y| | |], c as [z| | |];
    cbn [nmul nadd Math_sqrt];
    try (repeat split; intros; try discriminate; auto;
         try (intuition discriminate); fail).
  pose proof (sum_sq3_nonneg x y z) as Hn.
  destruct (Rlt_dec (x * x + y * y + z * z) 0) as [Hlt | _]; [lra |].
  repeat split; try discriminate.
  - intros [H | [H | H]]; discriminate.
  - intros r H. injection H as <-. apply sqrt_pos.
  - intros H. injection H as H. apply sqrt_eq_0 in H; [| exact Hn].
    assert (x = 0 /\ y = 0 /\ z = 0)%R as (-> & -> & ->) by nra.
    reflexivity.
  - intros H. injection H as -> -> ->.
    replace (0 * 0 + 0 * 0 + 0 * 0)%R with 0%R by ring.
    now rewrite sqrt_0.
Qed.

(** What [getSpeeds] reports: one entry per particle; the entry of a
    particle is NaN exactly when one of its velocity components is NaN,
    is never negative, and is 0 exactly when the particle is at rest. *)
Theorem getSpeeds_reports (p : Physics) (i : nat) :
  (i < count p)%nat ->
  length (getSpeeds p) = count p /\
  exists s : num,
    getSpeeds p !! i = Some s /\
    (s = NaN <->
     get (velocities p) (i * 3) = NaN \/ get (velocities p) (i * 3 + 1) = NaN
     \/ get (velocities p) (i * 3 + 2) = NaN) /\
    s <> NInf /\ (forall r : R, s = Fin r -> (0 <= r)%R) /\
    (s = Fin 0 <-> vel_of p i = (Fin 0, Fin 0, Fin 0)).
Proof.
  intros Hi. destruct (getSpeeds_lookup p i) as (Hl & Hs & _).
  split; [exact Hl |]. exists (speed_of p i). split; [now apply Hs |].
  apply speed_cases.
Qed.

Lemma getSpeeds_reports_witness :
  exists s : num,
    getSpeeds (this coasting_world) !! 0%nat = Some s /\ s <> NaN /\ s <> Fin 0.
Proof.
  destruct (getSpeeds_reports (this coasting_world) 0)
    as (_ & s & Hs & Hnan & _ & _ & Hzero); [simpl; lia |].
  exists s. split; [exact Hs |]. split.
  - intros H. apply Hnan in H. destruct H as [H | [H | H]]; discriminate.
  - intros H. apply Hzero in H.
    apply (f_equal (fun v : vec3 => v.1.1)) in H. simpl in H.
    injection H. lra.
Defined.

(** ** The singularity on a constructed object *)

(** A particle on an effective well: the acceleration of its pass, and what
    the particle is when [update] returns. *)
Lemma on_well_view gws hvs dt pfs (w : World) (i : nat) (well : Well) :
  (i < count (this w))%nat ->
  In well (effective_wells gws hvs) ->
  coincides (this w) i well ->
  (Fin 0 <? fieldRadius (this w)) = true ->
  let w' := update gws hvs dt pfs w in
  well_force (this w) (i * 3) (effective_G (this w)) (minDistance (this w))
    (fieldRadius (this w)) (Fin 0, Fin 0, Fin 0) well = (NaN, NaN, NaN) /\
  vel_of (this w') i = (NaN, NaN, NaN) /\
  pos_of (this w') i = (NaN, NaN, NaN) /\
  maxVelocity (this w') = maxVelocity (this w) /\
  speed_of (this w') i = NaN /\
  (speed_of (this w') i >? maxVelocity (this w')) = false /\
  getSpeeds (this w') !! i = Some NaN.
Proof.
  intros Hi Hin Hc Hf w'.
  split; [now apply well_force_at_well |].
  destruct (at_boundary_check_view gws hvs dt pfs w i Hi)
    as (V & P & _ & _ & _ & P1).
  rewrite acceleration_at_well with (well := well) in V;
    [| exact Hin
     | destruct Hc as (x & y & z & Hp & Hw); exists x, y, z;
       split; [now rewrite P1 | exact Hw]
     | exact Hf].
  rewrite integrated_NaN, clamped_NaN in V. rewrite V in P.
  assert (Pm : pos_of (this (at_boundary_check gws hvs dt pfs w i)) i
               = (NaN, NaN, NaN)).
  { rewrite P. unfold advanced. cbn [fst snd nmul]. now rewrite !nadd_NaN_r. }
  assert (Hr : respawns gws hvs dt pfs w i = false).
  { unfold respawns. apply escaped_NaN_x.
    unfold pos_of in Pm. now injection Pm. }
  destruct (update_view gws hvs dt pfs w i Hi) as [_ Hn].
  destruct (Hn Hr) as (P' & V' & _). fold w' in P', V'.
  rewrite Pm in P'. rewrite V in V'. clear Hn P V Pm Hr P1.
  destruct (update_setup gws hvs dt pfs w) as [(Ec & _ & _ & _ & Em & _) _].
  fold w' in Ec, Em. clearbody w'.
  assert (Hs : speed_of (this w') i = NaN).
  { apply speed_of_lost. left. unfold vel_of in V'. now injection V'. }
  split; [exact V' |]. split; [exact P' |]. split; [exact Em |].
  split; [exact Hs |]. rewrite Hs. split; [apply ngt_NaN_l |].
  destruct (getSpeeds_lookup (this w') i) as (_ & Hl & _).
  rewrite Hl by (rewrite Ec; exact Hi). now rewrite Hs.
Qed.

(** [new Physics(1)] when [Math.random()] returns 0: the particle is at the
    origin, and a hand at (0, 0, 0) puts a well on it. *)
Lemma origin_world_view :
  count (this origin_world) = 1%nat /\
  pos_of (this origin_world) 0 = (Fin 0, Fin 0, Fin 0) /\
  minDistance (this origin_world) = Fin 0.05 /\
  maxVelocity (this origin_world) = Fin 0.08 /\
  In (precompute_well [] 0 origin_hand) (effective_wells [origin_hand] []) /\
  coincides (this origin_world) 0 (precompute_well [] 0 origin_hand) /\
  (Fin 0 <? fieldRadius (this origin_world)) = true.
Proof.
  destruct (new_Physics_view 1 (fun _ => 0%R) (fun _ => 0%R))
    as (S1 & _ & _ & _ & _ & Hm & Hmd & Hf & _).
  destruct (new_Physics_sized 1 (fun _ => 0%R) (fun _ => 0%R)) as [Hc _].
  fold origin_world in S1, Hm, Hmd, Hf, Hc.
  destruct (S1 0%nat ltac:(lia)) as (P & _).
  assert (P0 : pos_of (this origin_world) 0 = (Fin 0, Fin 0, Fin 0))
    by (rewrite P; repeat f_equal; lra).
  split; [exact Hc |]. split; [exact P0 |]. split; [exact Hmd |].
  split; [exact Hm |]. split; [left; reflexivity |]. split.
  - exists 0%R, 0%R, 0%R. split; [exact P0 |].
    cbn. repeat split; apply Fin_eq; lra.
  - rewrite Hf. apply nlt_Fin_true. lra.
Qed.

(** C4 fails on the code: on the object [new Physics(1)] builds when
    [Math.random()] returns 0, whose particle is at the origin, a call of
    [update] with a hand at (0, 0, 0) computes the acceleration
    (NaN, NaN, NaN) for the particle, although the softening length is
    0.05, and leaves its velocity and position NaN: the softening floors
    the distance of the force, the direction is still divided by the
    distance itself. *)
Theorem singularity_at_well :
  pos_of (this origin_world) 0 = (Fin 0, Fin 0, Fin 0) /\
  minDistance (this origin_world) = Fin 0.05 /\
  well_force (this origin_world) (0 * 3) (effective_G (this origin_world))
    (minDistance (this origin_world)) (fieldRadius (this origin_world))
    (Fin 0, Fin 0, Fin 0) (precompute_well [] 0 origin_hand)
  = (NaN, NaN, NaN) /\
  vel_of (this (update [origin_hand] [] (Fin 1) [] origin_world)) 0
  = (NaN, NaN, NaN) /\
  pos_of (this (update [origin_hand] [] (Fin 1) [] origin_world)) 0
  = (NaN, NaN, NaN).
Proof.
  destruct origin_world_view as (Hc & P0 & Hmd & _ & Hin & Hco & Hf).
  assert (Hi : (0 < count (this origin_world))%nat) by (rewrite Hc; lia).
  destruct (on_well_view [origin_hand] [] (Fin 1) [] origin_world 0 _
              Hi Hin Hco Hf) as (F & V' & P' & _).
  split; [exact P0 |]. split; [exact Hmd |]. split; [exact F |].
  split; [exact V' | exact P'].
Qed.

(** C1 fails on the code, from the same defect: after that call the speed
    of the particle is NaN, no number at all and so not at most
    [maxVelocity] = 0.08; the clamp test [speed > maxV] is false on it, and
    [getSpeeds] reports NaN. *)
Theorem clamp_misses_singularity :
  maxVelocity (this (update [origin_hand] [] (Fin 1) [] origin_world))
  = Fin 0.08 /\
  speed_of (this (update [origin_hand] [] (Fin 1) [] origin_world)) 0 = NaN /\
  (speed_of (this (update [origin_hand] [] (Fin 1) [] origin_world)) 0
   >? maxVelocity (this (update [origin_hand] [] (Fin 1) [] origin_world)))
  = false /\
  (forall m : R,
     speed_of (this (update [origin_hand] [] (Fin 1) [] origin_world)) 0
     <> Fin m) /\
  getSpeeds (this (update [origin_hand] [] (Fin 1) [] origin_world)) !! 0%nat
  = Some NaN.
Proof.
  destruct origin_world_view as (Hc & _ & _ & Hm & Hin & Hco & Hf).
  assert (Hi : (0 < count (this origin_world))%nat) by (rewrite Hc; lia).
  destruct (on_well_view [origin_hand] [] (Fin 1) [] origin_world 0 _
              Hi Hin Hco Hf) as (_ & _ & _ & Em & Hs & Hg & Hl).
  split; [exact (eq_trans Em Hm) |]. split; [exact Hs |].
  split; [exact Hg |]. split; [| exact Hl].
  intros m H.
  exact (eq_ind NaN (fun a => match a with NaN => True | _ => False end)
           I _ (eq_trans (eq_sym Hs) H)).
Qed.

(** ** Chaos mode *)

(** [toggleChaosMode] returns the mode it sets, touches nothing but the
    chaos mode and factor, and toggling twice brings an object whose chaos
    mode is off (with the factor 1 the constructor sets) back to itself. *)
Theorem toggleChaosMode_round_trip (w : World) :
  chaosMode (this w) = false -> chaosFactor (this w) = Fin 1 ->
  fst (toggleChaosMode w) = true /\
  chaosMode (this (snd (toggleChaosMode w))) = true /\
  fst (toggleChaosMode (snd (toggleChaosMode w))) = false /\
  snd (toggleChaosMode (snd (toggleChaosMode w))) = w /\
  positions (this (snd (toggleChaosMode w))) = positions (this w) /\
  velocities (this (snd (toggleChaosMode w))) = velocities (this w).
Proof.
  destruct w as [[n ps vs acs ms ls cG cd cmv cmd cfr cm cf am] rt rc ct cc].
  cbn [this chaosMode chaosFactor]. intros -> ->.
  repeat split.
Qed.

Lemma toggleChaosMode_round_trip_witness :
  snd (toggleChaosMode (snd (toggleChaosMode coasting_world)))
  = coasting_world.
Proof.
  refine (proj1 (proj2 (proj2 (proj2
            (toggleChaosMode_round_trip coasting_world eq_refl eq_refl))))).
Defined.

(** ** What [update] reads from the runtime *)

Lemma acceleration_reads wells merged pfs g minDist fieldR i w :
  let w' := snd (acceleration wells merged pfs g minDist fieldR i w) in
  random_calls w'
  = (random_calls w + (if chaosMode (this w) then 2 else 0))%nat /\
  clock_calls w'
  = (clock_calls w + (match pfs with [] => 0 | _ => 1 end))%nat.
Proof.
  unfold acceleration.
  destruct pfs; destruct (chaosMode (this w)); cbn; lia.
Qed.

Lemma respawnParticle_reads (i : nat) (w : World) :
  random_calls (respawnParticle i w) = (random_calls w + 5)%nat /\
  clock_calls (respawnParticle i w) = clock_calls w.
Proof. unfold respawnParticle. cbn. lia. Qed.

Lemma on_this_reads (f : Physics -> Physics) (w : World) :
  random_calls (on_this f w) = random_calls w /\
  clock_calls (on_this f w) = clock_calls w.
Proof. split; reflexivity. Qed.

Lemma update_particle_reads wells merged pfs dt g dr maxV minDist fieldR w i :
  let wm := move_particle wells merged pfs dt g dr maxV minDist fieldR w i in
  let w' := update_particle wells merged pfs dt g dr maxV minDist fieldR w i in
  random_calls w'
  = (random_calls w + (if chaosMode (this w) then 2 else 0)
     + (if escaped i (this wm) then 5 else 0))%nat /\
  clock_calls w'
  = (clock_calls w + (match pfs with [] => 0 | _ => 1 end))%nat.
Proof.
  cbv zeta.
  destruct (acceleration_reads wells merged pfs g minDist fieldR i w)
    as [Ra Ca].
  assert (Hm : random_calls
                 (move_particle wells merged pfs dt g dr maxV minDist fieldR
                    w i)
               = random_calls
                   (snd (acceleration wells merged pfs g minDist fieldR i w))
               /\
               clock_calls
                 (move_particle wells merged pfs dt g dr maxV minDist fieldR
                    w i)
               = clock_calls
                   (snd (acceleration wells merged pfs g minDist fieldR i w))).
  { unfold move_particle. apply on_this_reads. }
  destruct Hm as [Rm Cm]. rewrite Ra in Rm. rewrite Ca in Cm.
  unfold update_particle.
  set (wm := move_particle wells merged pfs dt g dr maxV minDist fieldR w i)
    in *.
  clearbody wm.
  destruct (on_this_reads (update_lifetime i) (respawn_escaped i wm))
    as [-> ->].
  unfold respawn_escaped.
  destruct (escaped i (this wm)).
  - destruct (respawnParticle_reads i wm) as [-> ->]. lia.
  - lia.
Qed.

Lemma update_loop_reads gws hvs dt pfs (w : World) (k : nat) :
  (k <= count (this w))%nat ->
  let w' := update_loop gws hvs dt pfs (seq 0 k) w in
  random_calls w'
  = (random_calls w + (if chaosMode (this w) then 2 * k else 0)
     + 5 * respawned_among gws hvs dt pfs w k)%nat /\
  clock_calls w'
  = (clock_calls w + (match pfs with [] => 0 | _ => k end))%nat.
Proof.
  induction k as [| k IH]; intros Hk.
  - cbn. split; [destruct (chaosMode (this w)) |]; try destruct pfs; lia.
  - specialize (IH ltac:(lia)). cbv zeta in IH. destruct IH as [IR IC].
    cbv zeta. rewrite seq_S, update_loop_app. cbn [Nat.add].
    cbn [respawned_among]. unfold respawns, at_boundary_check.
    cbv zeta.
    destruct (update_loop_setup gws hvs dt pfs (seq 0 k) w) as [Hs _].
    set (w1 := update_loop gws hvs dt pfs (seq 0 k) w) in *.
    assert (E : update_loop gws hvs dt pfs [k] w1
                = update_particle (precompute_wells gws hvs)
                    (merge_wells (precompute_wells gws hvs)) pfs dt
                    (effective_G (this w)) (drag (this w))
                    (maxVelocity (this w)) (minDistance (this w))
                    (fieldRadius (this w)) w1 k).
    { unfold update_loop at 1. cbn [fold_left].
      destruct Hs as (_&_&HG&Hd&Hm&Hmd&Hf&Hc&Hcf&_).
      unfold effective_G. now rewrite HG, Hd, Hm, Hmd, Hf, Hc, Hcf. }
    rewrite E.
    destruct (update_particle_reads (precompute_wells gws hvs)
                (merge_wells (precompute_wells gws hvs)) pfs dt
                (effective_G (this w)) (drag (this w))
                (maxVelocity (this w)) (minDistance (this w))
                (fieldRadius (this w)) w1 k) as [R C].
    rewrite R, C, IR, IC.
    assert (Hc : chaosMode (this w1) = chaosMode (this w))
      by (destruct Hs as (_&_&_&_&_&_&_&Hc&_); exact Hc).
    rewrite Hc.
    set (wm := move_particle _ _ _ _ _ _ _ _ _ w1 k). clearbody wm w1.
    destruct (escaped k (this wm));
      (split; [destruct (chaosMode (this w)) |]; try destruct pfs; lia).
Qed.

(** What a frame costs the runtime: [update] draws two random numbers per
    particle in chaos mode and five per particle it respawns, and none
    otherwise; it reads the clock once per particle when there are path
    points and never when there are none. *)
Theorem update_reads gws hvs dt pfs (w : World) :
  let n := count (this w) in
  let w' := update gws hvs dt pfs w in
  random_calls w'
  = (random_calls w + (if chaosMode (this w) then 2 * n else 0)
     + 5 * respawned_among gws hvs dt pfs w n)%nat /\
  clock_calls w'
  = (clock_calls w + (match pfs with [] => 0 | _ => n end))%nat /\
  random_tape w' = random_tape w /\ clock_tape w' = clock_tape w.
Proof.
  intros n w'.
  destruct (update_loop_reads gws hvs dt pfs w n (Nat.le_refl _)) as [R C].
  destruct (update_loop_setup gws hvs dt pfs (seq 0 n) w) as [_ [T1 T2]].
  repeat split; assumption.
Qed.

(** ** The drawing path *)

Lemma addScore_frame (points : num) (g : GameMode) :
  drawPath (snd (addScore points g)) = drawPath g /\
  pathMaxLength (snd (addScore points g)) = pathMaxLength g /\
  pathFadeTime (snd (addScore points g)) = pathFadeTime g /\
  game_clock (snd (addScore points g)) = game_clock g.
Proof.
  unfold addScore. cbv zeta.
  destruct (_ >? highScore _); cbn; tauto.
Qed.

Lemma addDrawPoint_path (x y : num) (g : GameMode) :
  pathMaxLength (addDrawPoint x y g) = pathMaxLength g /\
  (length (drawPath g) <= pathMaxLength g ->
   length (drawPath (addDrawPoint x y g)) <= pathMaxLength g)%nat.
Proof.
  unfold addDrawPoint. cbv zeta.
  match goal with |- context [addScore ?p ?g0] =>
    destruct (addScore_frame p g0) as (-> & -> & _) end.
  cbn [drawPath pathMaxLength set_drawPath game_now fst snd currentColorIndex].
  split; [reflexivity |]. intros H.
  destruct (Nat.ltb_spec (pathMaxLength g)
              (length (drawPath g ++
                 [mkDrawPoint x y (Fin (game_clock g (game_clock_calls g)))
                    (currentColorIndex g)]))) as [Hlt | Hge].
  - destruct (drawPath g) as [| d l]; cbn [app tail length] in *; [lia |].
    rewrite length_app in *. cbn [length] in *. lia.
  - exact Hge.
Qed.

Lemma run_game_call_path (g : GameMode) (c : GameCall) :
  pathMaxLength (run_game_call g c) = pathMaxLength g /\
  (length (drawPath g) <= pathMaxLength g ->
   length (drawPath (run_game_call g c)) <= pathMaxLength g)%nat.
Proof.
  destruct c as [x y | | points | | | | m]; cbn [run_game_call].
  - apply addDrawPoint_path.
  - unfold getActivePath. cbn. split; [reflexivity |]. intros H.
    eapply Nat.le_trans; [apply filter_length_le | exact H].
  - destruct (addScore_frame points g) as (-> & -> & _). auto.
  - unfold increaseCombo. cbn. auto.
  - unfold resetScore. cbn. auto.
  - unfold clearPath. cbn. split; [reflexivity | lia].
  - unfold setMode, clearPath. destruct m; cbn; split;
      try reflexivity; try lia; auto.
Qed.

(** The drawing path never holds more than [pathMaxLength] = 300 points,
    whatever the application does with the game layer: [addDrawPoint]
    drops the oldest point when the path is full. *)
Theorem drawPath_bounded (stored : num) (clock : nat -> R)
    (cs : list GameCall) :
  (length (drawPath (run_game_calls cs (new_GameMode stored clock))) <= 300)%nat.
Proof.
  assert (H : forall g,
             pathMaxLength g = 300%nat ->
             (length (drawPath g) <= 300)%nat ->
             (length (drawPath (run_game_calls cs g)) <= 300)%nat).
  { unfold run_game_calls. induction cs as [| c cs IH]; intros g Hm Hl;
      cbn [fold_left]; [exact Hl |].
    destruct (run_game_call_path g c) as [Hm' Hl'].
    apply IH; [congruence |]. rewrite Hm in Hl'. auto. }
  apply H; [reflexivity | cbn; lia].
Qed.





(** ** Score, combo and high score *)

Lemma addScore_combo (points : num) (g : GameMode) :
  combo (snd (addScore points g)) = Fin 1 \/
  combo (snd (addScore points g)) = combo g.
Proof.
  unfold addScore. cbv zeta. cbn [game_now fst snd comboTimer comboTimeout
                                 combo score highScore saved_highScore].
  destruct (_ >? comboTimeout g); destruct (_ >? highScore g); cbn; auto.
Qed.

Lemma addScore_keeps_combo_range (points : num) (g : GameMode) :
  combo_in_range g -> combo_in_range (snd (addScore points g)).
Proof.
  intros H. destruct (addScore_combo points g) as [E | E]; unfold combo_in_range;
    rewrite E; [exists 1%R; split; [reflexivity | lra] | exact H].
Qed.

Lemma increaseCombo_value (g : GameMode) (c : R) :
  combo g = Fin c ->
  fst (increaseCombo g) = Fin (Rmin (c + 1) 10) /\
  combo (snd (increaseCombo g)) = Fin (Rmin (c + 1) 10).
Proof.
  intros H. unfold increaseCombo. cbn. rewrite H. cbn [nadd Math_min nlt].
  unfold Rmin. destruct (Rlt_dec 10 (c + 1)), (Rle_dec (c + 1) 10);
    try (split; reflexivity); lra.
Qed.

Lemma run_game_call_combo (g : GameMode) (c : GameCall) :
  combo_in_range g -> combo_in_range (run_game_call g c).
Proof.
  intros H. destruct c as [x y | | points | | | | m]; cbn [run_game_call].
  - unfold addDrawPoint. cbv zeta. apply addScore_keeps_combo_range. exact H.
  - exact H.
  - now apply addScore_keeps_combo_range.
  - destruct H as (c & Hc & Hr).
    destruct (increaseCombo_value g c Hc) as [_ E].
    exists (Rmin (c + 1) 10). split; [exact E |].
    unfold Rmin. destruct (Rle_dec (c + 1) 10); lra.
  - exists 1%R. split; [reflexivity | lra].
  - exact H.
  - destruct m; exact H.
Qed.

(** The combo multiplier is always a number of [1, 10]: [increaseCombo]
    saturates at 10, and [addScore] and [resetScore] can only put it back
    to 1. *)
Theorem combo_stays_in_range (stored : num) (clock : nat -> R)
    (cs : list GameCall) :
  combo_in_range (run_game_calls cs (new_GameMode stored clock)) /\
  (forall g c, combo g = Fin c ->
     fst (increaseCombo g) = Fin (Rmin (c + 1) 10)).
Proof.
  split.
  - assert (H : forall g, combo_in_range g ->
                          combo_in_range (run_game_calls cs g)).
    { unfold run_game_calls. induction cs as [| c cs IH]; intros g Hg;
        cbn [fold_left]; [exact Hg |].
      apply IH. now apply run_game_call_combo. }
    apply H. exists 1%R. split; [reflexivity | lra].
  - intros g c Hc. now apply increaseCombo_value.
Qed.

Lemma ngt_irrefl (a : num) : (a >? a) = false.
Proof.
  destruct a as [x| | |]; try reflexivity. apply ngt_Fin_false. lra.
Qed.

Lemma ngt_trans (a b c : num) :
  (a >? b) = true -> (b >? c) = true -> (a >? c) = true.
Proof.
  unfold ngt.
  destruct a as [x| | |], b as [y| | |], c as [z| | |]; cbn [nlt];
    try discriminate; try reflexivity.
  destruct (Rlt_dec y x), (Rlt_dec z y), (Rlt_dec z x);
    try discriminate; try reflexivity; lra.
Qed.

(** What is below neither of two numbers is not below the larger one. *)
Lemma ngt_raise (a h s : num) :
  (a >? h) = false -> (s >? h) = true -> (a >? s) = false.
Proof.
  intros Hah Hsh. destruct (a >? s) eqn:E; [| reflexivity].
  now rewrite (ngt_trans a s h E Hsh) in Hah.
Qed.

Lemma addScore_scores (h0 points : num) (g : GameMode) :
  scores_ordered h0 g ->
  scores_ordered h0 (snd (addScore points g)) /\
  fst (addScore points g) = score (snd (addScore points g)).
Proof.
  intros (Hs & Hh & H0 & Hsaved).
  unfold addScore, scores_ordered. cbv zeta.
  cbn [game_now fst snd comboTimer comboTimeout combo score highScore
       saved_highScore].
  set (combo1 := if _ >? comboTimeout g then _ else _).
  set (score1 := score g + points * combo1).
  destruct (score1 >? highScore g) eqn:E;
    cbn [fst snd score highScore saved_highScore set_score].
  - split; [| reflexivity].
    split; [apply ngt_irrefl |].
    split; [now apply (ngt_raise _ (highScore g)) |].
    split; [now apply (ngt_raise _ (highScore g)) | now right].
  - split; [| reflexivity]. repeat split; assumption.
Qed.

Lemma run_game_call_scores (h0 : num) (g : GameMode) (c : GameCall) :
  scores_ordered h0 g -> scores_ordered h0 (run_game_call g c).
Proof.
  intros Hs.
  destruct c as [x y | | points | | | | m]; cbn [run_game_call].
  - unfold addDrawPoint. cbv zeta. apply addScore_scores. exact Hs.
  - exact Hs.
  - now apply addScore_scores.
  - exact Hs.
  - destruct Hs as (_ & Hh & H0 & Hsaved).
    unfold resetScore, scores_ordered.
    cbn [score highScore saved_highScore set_score]. tauto.
  - exact Hs.
  - destruct m; exact Hs.
Qed.

(** The high score dominates: from a stored high score that is not
    negative (it may be NaN), whatever is scored afterwards, amounts that
    are negative, infinite or not numbers included, after every call the
    test [score > highScore] of [addScore] fails, the high score is below
    neither 0 nor the stored one, and the storage holds either nothing or
    the current high score. *)
Theorem highScore_dominates (h0 : num) (clock : nat -> R)
    (cs : list GameCall) :
  (Fin 0 >? h0) = false ->
  scores_ordered h0 (run_game_calls cs (new_GameMode h0 clock)).
Proof.
  intros H0.
  assert (H : forall g, scores_ordered h0 g ->
                        scores_ordered h0 (run_game_calls cs g)).
  { unfold run_game_calls. induction cs as [| c cs IH]; intros g Hs;
      cbn [fold_left]; [exact Hs |].
    apply IH. now apply run_game_call_scores. }
  apply H. unfold scores_ordered, new_GameMode.
  cbn [score highScore saved_highScore].
  split; [exact H0 |]. split; [apply ngt_irrefl |]. split; [exact H0 |].
  now left.
Qed.

Lemma highScore_dominates_witness :
  scores_ordered (Fin 5)
    (run_game_calls [GAddScore (Fin 10); GIncreaseCombo; GAddDrawPoint (Fin 0)
                       (Fin 0); GAddScore NaN; GResetScore]
       (new_GameMode (Fin 5) (fun _ => 0%R))).
Proof.
  apply highScore_dominates. apply ngt_Fin_false. lra.
Defined.

Lemma run_game_call_NaN (g : GameMode) (c : GameCall) :
  highScore g = NaN -> saved_highScore g = None ->
  highScore (run_game_call g c) = NaN /\ saved_highScore (run_game_call g c) = None.
Proof.
  intros Hh Hs.
  assert (A : forall points g0, highScore g0 = NaN -> saved_highScore g0 = None ->
              highScore (snd (addScore points g0)) = NaN /\
              saved_highScore (snd (addScore points g0)) = None).
  { intros points g0 H1 H2. unfold addScore. cbv zeta.
    cbn [game_now fst snd comboTimer comboTimeout combo score highScore
         saved_highScore].
    rewrite H1.
    assert (E : forall m : num, (m >? NaN) = false) by (now destruct m).
    rewrite E. cbn. auto. }
  destruct c as [x y | | points | | | | m]; cbn [run_game_call].
  - unfold addDrawPoint. cbv zeta. apply A; assumption.
  - unfold getActivePath. cbn. auto.
  - now apply A.
  - unfold increaseCombo. cbn. auto.
  - unfold resetScore. cbn. auto.
  - unfold clearPath. cbn. auto.
  - unfold setMode, clearPath. destruct m; cbn; auto.
Qed.

(** A stored high score that [parseInt] could not read (NaN) is never
    replaced: whatever is scored, the high score stays NaN and nothing is
    written to the storage. *)
Theorem unreadable_highScore_sticks (clock : nat -> R) (cs : list GameCall) :
  highScore (run_game_calls cs (new_GameMode NaN clock)) = NaN /\
  saved_highScore (run_game_calls cs (new_GameMode NaN clock)) = None.
Proof.
  assert (H : forall g, highScore g = NaN -> saved_highScore g = None ->
              highScore (run_game_calls cs g) = NaN /\
              saved_highScore (run_game_calls cs g) = None).
  { unfold run_game_calls. induction cs as [| c cs IH]; intros g Hh Hs;
      cbn [fold_left]; [auto |].
    destruct (run_game_call_NaN g c Hh Hs) as [Hh' Hs']. now apply IH. }
  apply H; reflexivity.
Qed.

(** ** What no call touches *)

Lemma physics_steps_accelerations (i : nat) (a : vec3) (dt dr maxV : num)
    (p : Physics) :
  accelerations (update_lifetime i p) = accelerations p /\
  accelerations (integrate_position (i * 3) dt p) = accelerations p /\
  accelerations (clamp_velocity (i * 3) maxV p) = accelerations p /\
  accelerations (integrate_velocity (i * 3) a dt dr p) = accelerations p.
Proof.
  repeat split; try reflexivity.
  unfold clamp_velocity. destruct (_ >? maxV); reflexivity.
Qed.

Lemma respawnParticle_accelerations (i : nat) (w : World) :
  accelerations (this (respawnParticle i w)) = accelerations (this w).
Proof.
  unfold respawnParticle. cbv zeta. reflexivity.
Qed.

Lemma update_particle_accelerations wells merged pfs dt g dr maxV minDist fieldR w i :
  accelerations
    (this (update_particle wells merged pfs dt g dr maxV minDist fieldR w i))
  = accelerations (this w).
Proof.
  unfold update_particle, move_particle.
  destruct (acceleration_this wells merged pfs g minDist fieldR i w) as [Ht _].
  set (aw := acceleration wells merged pfs g minDist fieldR i w) in *.
  clearbody aw. cbn [this on_this].
  rewrite (proj1 (physics_steps_accelerations i (fst aw) dt dr maxV _)).
  set (wm := on_this _ (snd aw)).
  assert (Hm : accelerations (this wm) = accelerations (this w)).
  { unfold wm. cbn [this on_this]. rewrite Ht.
    destruct (physics_steps_accelerations i (fst aw) dt dr maxV
                (clamp_velocity (i * 3) maxV
                   (integrate_velocity (i * 3) (fst aw) dt dr (this w))))
      as (_ & -> & _).
    destruct (physics_steps_accelerations i (fst aw) dt dr maxV
                (integrate_velocity (i * 3) (fst aw) dt dr (this w)))
      as (_ & _ & -> & _).
    now destruct (physics_steps_accelerations i (fst aw) dt dr maxV (this w))
      as (_ & _ & _ & ->). }
  clearbody wm. unfold respawn_escaped.
  destruct (escaped i (this wm)); [| exact Hm].
  now rewrite respawnParticle_accelerations.
Qed.

Lemma update_accelerations gws hvs dt pfs (w : World) :
  accelerations (this (update gws hvs dt pfs w)) = accelerations (this w).
Proof.
  unfold update, update_loop. generalize (seq 0 (count (this w))).
  generalize (effective_G (this w)), (drag (this w)), (maxVelocity (this w)),
    (minDistance (this w)), (fieldRadius (this w)).
  intros g dr mv md fr js. revert w.
  induction js as [| j js IH]; intros w; cbn [fold_left]; [reflexivity |].
  now rewrite IH, update_particle_accelerations.
Qed.

Lemma run_call_configuration (w : World) (c : Call) :
  accelerations (this (run_call w c)) = accelerations (this w) /\
  G (this (run_call w c)) = G (this w) /\
  drag (this (run_call w c)) = drag (this w) /\
  maxVelocity (this (run_call w c)) = maxVelocity (this w) /\
  minDistance (this (run_call w c)) = minDistance (this w) /\
  fieldRadius (this (run_call w c)) = fieldRadius (this w) /\
  chaosMode (this (run_call w c)) = chaosMode (this w) /\
  attractMode (this (run_call w c)) = attractMode (this w).
Proof.
  destruct c as [gws hvs dt pfs | x y s | x y s]; cbn [run_call].
  - split; [apply update_accelerations |].
    destruct (update_loop_setup gws hvs dt pfs (seq 0 (count (this w))) w)
      as [(_&_&HG&Hd&Hm&Hmd&Hf&Hc&_&Ha&_) _].
    fold (update gws hvs dt pfs w) in *. tauto.
  - destruct (applyExplosion_spec x y s w) as (E & _).
    remember (applyExplosion x y s w) as w'. rewrite E. cbn. tauto.
  - destruct (applyImplosion_spec x y s w) as (E & _).
    remember (applyImplosion x y s w) as w'. rewrite E. cbn. tauto.
Qed.

Lemma initParticles_accelerations (w : World) :
  accelerations (this (initParticles w)) = accelerations (this w).
Proof.
  unfold initParticles. generalize (seq 0 (count (this w))). intros js.
  revert w. induction js as [| j js IH]; intros w; cbn [fold_left];
    [reflexivity |].
  rewrite IH.
  destruct (init_particle_shape w j) as (x & y & z & vx & vy & vz & m & l & E).
  now rewrite E.
Qed.

(** The scratch buffer and the constants: no [update] and no impulse ever
    writes the [accelerations] array, which stays the array of zeros the
    constructor allocated, nor changes a physics constant or a mode. *)
Theorem accelerations_never_written (n : nat) (randoms clock : nat -> R)
    (cs : list Call) :
  let p := this (run_calls cs (new_Physics n randoms clock)) in
  accelerations p = new_Float32Array (n * 3) /\
  G p = Fin 0.00015 /\ drag p = Fin 0.995 /\ maxVelocity p = Fin 0.08 /\
  minDistance p = Fin 0.05 /\ fieldRadius p = Fin 2.5 /\
  chaosMode p = false /\ attractMode p = true.
Proof.
  assert (H : forall w,
             accelerations (this (run_calls cs w)) = accelerations (this w) /\
             G (this (run_calls cs w)) = G (this w) /\
             drag (this (run_calls cs w)) = drag (this w) /\
             maxVelocity (this (run_calls cs w)) = maxVelocity (this w) /\
             minDistance (this (run_calls cs w)) = minDistance (this w) /\
             fieldRadius (this (run_calls cs w)) = fieldRadius (this w) /\
             chaosMode (this (run_calls cs w)) = chaosMode (this w) /\
             attractMode (this (run_calls cs w)) = attractMode (this w)).
  { unfold run_calls. induction cs as [| c cs IH]; intros w; cbn [fold_left];
      [tauto |].
    destruct (IH (run_call w c)) as (?&?&?&?&?&?&?&?).
    destruct (run_call_configuration w c) as (?&?&?&?&?&?&?&?).
    repeat split; congruence. }
  cbv zeta.
  destruct (H (new_Physics n randoms clock)) as (A&HG&Hd&Hm&Hmd&Hf&Hc&Ha).
  destruct (new_Physics_view n randoms clock)
    as (_&_&_&HG'&Hd'&Hm'&Hmd'&Hf'&Hc'&_&Ha').
  rewrite A, HG, Hd, Hm, Hmd, Hf, Hc, Ha.
  repeat split; try assumption.
  unfold new_Physics. now rewrite initParticles_accelerations.
Qed.
